(** * xq-test-infra: the specification-to-orchestration compiler

    A shallow embedding of the JavaScript sources of [xq-test-infra]
    (service loader, compose generator, gateway route compiler, the
    compose invoker with its detection of test containers and its wait
    for them, the registry login, and the [up] action of the command
    line), with the properties of the design document, and further
    properties of the code, stated and proved against it.

    Conventions of the embedding.
    - A JavaScript object used as a map (services, dependency groups,
      overrides) is an association list in property-enumeration order;
      [obj_set] writes a property the way an assignment does (in place
      when the key exists, at the end otherwise).  Keys are assumed not
      to be canonical array indices, which JavaScript would enumerate
      first.
    - A read [m[k]] finds the own properties of [m].  The members every
      object inherits from [Object.prototype] are modelled where the
      loader tests that a dependency exists ([has_property]); the names
      of dependency groups and the keys of an overrides object are
      assumed not to be such members.
    - Numbers are integers ([Z]); [parseInt] answers [None] for NaN.
    - Strings are sequences of 8-bit characters; the white space of a
      regular expression is the ASCII white space, and the change of
      case is that of the ASCII letters.
    - What a function finds in the file system, in the environment or
      on the machine (a listing, a parsed file, a variable, the events
      of a child process) is an argument of its model; a value the
      function leaves behind (the environment, a cached command) is part
      of its result.
    - A thrown exception is a value of an error type; [while] loops are
      fixpoints with an explicit bound that is proved sufficient. *)

From Stdlib Require Import ZArith Lia Ascii.
From stdpp Require Import gmap strings list sorting pretty.

Local Open Scope Z_scope.
Local Set Warnings "-register-all".

(** ** JavaScript string primitives *)

Module Js.

Definition nl : string := String "010"%char "".

Definition is_ws (a : ascii) : bool := Ascii.is_space a.

Definition is_digit (a : ascii) : bool :=
  bool_decide (is_Some (Ascii.is_nat a)).

(** [s.startsWith(p)] *)
Fixpoint startsWith (p s : string) : bool :=
  match p, s with
  | "", _ => true
  | String a p', String b s' => bool_decide (a = b) && startsWith p' s'
  | String _ _, "" => false
  end.

(** [s.includes(sub)] *)
Fixpoint includes (sub s : string) : bool :=
  startsWith sub s ||
  match s with
  | "" => false
  | String _ s' => includes sub s'
  end.

(** [s.endsWith(p)] *)
Definition endsWith (p s : string) : bool :=
  startsWith (String.rev p) (String.rev s).

(** [s.slice(0, -n)] *)
Definition drop_end (n : nat) (s : string) : string :=
  String.substring 0 (String.length s - n) s.

(** [s.split(c)] for a one-character separator: never the empty list. *)
Fixpoint split_on (c : ascii) (s : string) : list string :=
  match s with
  | "" => [""]
  | String a s' =>
      if bool_decide (a = c) then "" :: split_on c s'
      else match split_on c s' with
           | w :: ws => String a w :: ws
           | [] => [String a ""]
           end
  end.

(** [s.split(/\s+/)]: a maximal run of white space is one separator; a
    leading or trailing run leaves an empty first or last piece. *)
Fixpoint split_ws_go (in_run : bool) (s : string) : list string :=
  match s with
  | "" => [""]
  | String a s' =>
      if is_ws a then
        if in_run then split_ws_go true s' else "" :: split_ws_go true s'
      else match split_ws_go false s' with
           | w :: ws => String a w :: ws
           | [] => [String a ""]
           end
  end.

Definition split_ws (s : string) : list string := split_ws_go false s.

(** [l.join(sep)] *)
Fixpoint join (sep : string) (l : list string) : string :=
  match l with
  | [] => ""
  | [x] => x
  | x :: l' => x +:+ sep +:+ join sep l'
  end.

(** Truthiness of [s.trim()]: some character is not white space. *)
Fixpoint trim_nonempty (s : string) : bool :=
  match s with
  | "" => false
  | String a s' => negb (is_ws a) || trim_nonempty s'
  end.

(** [s.replace(/\//g, '\\/')]: every slash gets a backslash in front. *)
Fixpoint escape_slashes (s : string) : string :=
  match s with
  | "" => ""
  | String a s' =>
      if bool_decide (a = "/"%char) then String "\"%char (String "/"%char (escape_slashes s'))
      else String a (escape_slashes s')
  end.

Fixpoint skip_ws (s : string) : string :=
  match s with
  | "" => ""
  | String a s' => if is_ws a then skip_ws s' else s
  end.

(** The value of a digit in radix 10 or 16. *)
Definition digit_value (radix : Z) (a : ascii) : option Z :=
  let n := Z.of_N (N_of_ascii a) in
  let v :=
    if (48 <=? n) && (n <=? 57) then Some (n - 48)
    else if (97 <=? n) && (n <=? 102) then Some (n - 87)
    else if (65 <=? n) && (n <=? 70) then Some (n - 55)
    else None in
  match v with
  | Some d => if d <? radix then Some d else None
  | None => None
  end.

(** The longest prefix of digits, read in the radix; [None] when the
    first character is not a digit. *)
Fixpoint read_digits (radix : Z) (acc : option Z) (s : string) : option Z :=
  match s with
  | "" => acc
  | String a s' =>
      match digit_value radix a with
      | Some d => read_digits radix (Some (from_option id 0 acc * radix + d)) s'
      | None => acc
      end
  end.

Definition read_sign (s : string) : Z * string :=
  match s with
  | String "-" s' => (-1, s')
  | String "+" s' => (1, s')
  | _ => (1, s)
  end.

(** [parseInt(s)]: leading white space, a sign, [0x] for radix 16,
    then the longest run of digits; [None] is NaN. *)
Definition parseInt (s : string) : option Z :=
  let '(sign, body) := read_sign (skip_ws s) in
  let r :=
    match body with
    | String "0" (String "x" body') | String "0" (String "X" body') =>
        read_digits 16 None body'
    | _ => read_digits 10 None body
    end in
  Z.mul sign <$> r.

(** [parseInt(s, 10)] *)
Definition parseInt10 (s : string) : option Z :=
  let '(sign, body) := read_sign (skip_ws s) in
  Z.mul sign <$> read_digits 10 None body.

(** The text of a number inside a template literal. *)
Definition of_num (n : Z) : string := pretty n.

End Js.

(** ** JavaScript objects used as maps *)

Section Objects.
Context {A : Type}.

(** [o[k]] on own properties. *)
Fixpoint obj_get (k : string) (o : list (string * A)) : option A :=
  match o with
  | [] => None
  | (k', v) :: o' => if bool_decide (k' = k) then Some v else obj_get k o'
  end.

(** [o[k] = v] *)
Fixpoint obj_set (k : string) (v : A) (o : list (string * A)) : list (string * A) :=
  match o with
  | [] => [(k, v)]
  | (k', v') :: o' =>
      if bool_decide (k' = k) then (k, v) :: o' else (k', v') :: obj_set k v o'
  end.

(** [Object.keys(o)] *)
Definition obj_keys (o : list (string * A)) : list string := o.*1.

End Objects.

(** ** Data model *)

(** Values of a parsed YAML or JSON document. *)
Inductive jsval : Type :=
  | JNull
  | JBool (b : bool)
  | JNum (n : Z)
  | JStr (s : string)
  | JArr (l : list jsval)
  | JObj (o : list (string * jsval)).

(** The truth value of a document value in a condition. *)
Definition truthy (v : jsval) : bool :=
  match v with
  | JNull => false
  | JBool b => b
  | JNum n => negb (n =? 0)
  | JStr s => negb (bool_decide (s = ""))
  | JArr _ | JObj _ => true
  end.

(** An optional field in a condition: absent is false. *)
Definition present (v : option jsval) : bool :=
  match v with
  | Some x => truthy x
  | None => false
  end.

(** One entry of a service's [routes]. *)
Record route_rule : Type := RouteRule {
  methods : option (list string);
  paths : option (list string)
}.

(** A service descriptor; an absent field is [None]. *)
Record service : Type := Service {
  image : option string;
  tag : option string;
  ports : option (list string);
  port : option Z;
  autoPort : option bool;
  environment : option jsval;
  volumes : option jsval;
  command : option jsval;
  healthcheck : option jsval;
  depends_on : option (list string);
  dependencyGroups : option (list string);
  routes : option (list route_rule)
}.

(** The merged specification: [portRange.start], the dependency groups
    and the services in enumeration order. *)
Record spec : Type := Spec {
  portRange_start : option Z;
  dependencies : option (list (string * list string));
  services : list (string * service)
}.

(** The [depends_on] of a compiled entry: the short form (names only) or
    the long form (a wait condition per name). *)
Inductive depends : Type :=
  | DepList (names : list string)
  | DepMap (conditions : list (string * string)).

(** A compiled entry of the orchestration document. *)
Record compose_service : Type := ComposeService {
  c_image : string;
  c_networks : list string;
  c_ports : option (list string);
  c_environment : option jsval;
  c_volumes : option jsval;
  c_command : option jsval;
  c_healthcheck : option jsval;
  c_depends_on : option depends
}.

(** The orchestration document ([version], [services]; the single
    network [xq-network] is constant). *)
Record compose : Type := Compose {
  version : string;
  compose_services : list (string * compose_service);
  networks : list (string * string)
}.

(** The wait condition the entry records for a dependency, if any. *)
Definition wait_condition (d : option depends) (name : string) : option string :=
  match d with
  | Some (DepMap m) => obj_get name m
  | _ => None
  end.

(** The dependency names of a compiled entry. *)
Definition depends_names (d : option depends) : list string :=
  match d with
  | Some (DepList l) => l
  | Some (DepMap m) => obj_keys m
  | None => []
  end.

(** ** Orchestration compiler (composeGenerator.js) *)

(** [while (usedPorts.has(p)) p++], bounded by the size of the set. *)
Fixpoint skip_used (fuel : nat) (usedPorts : gset Z) (p : Z) : Z :=
  match fuel with
  | O => p
  | S fuel' =>
      if bool_decide (p ∈ usedPorts) then skip_used fuel' usedPorts (p + 1) else p
  end.

Definition first_free (usedPorts : gset Z) (p : Z) : Z :=
  skip_used (S (size usedPorts)) usedPorts p.

(** [parseInt(port.split(':')[0])] *)
Definition host_port (mapping : string) : option Z :=
  Js.parseInt (hd "" (Js.split_on ":"%char mapping)).

(** [service.ports.forEach(port => ... usedPorts.add(hostPort))] *)
Definition track_ports (usedPorts : gset Z) (mappings : list string) : gset Z :=
  foldl (fun used mapping =>
           match host_port mapping with
           | Some hostPort => {[hostPort]} ∪ used
           | None => used
           end) usedPorts mappings.

(** [[...new Set(l)]]: first occurrences, in order. *)
Fixpoint set_elements (seen l : list string) : list string :=
  match l with
  | [] => []
  | x :: l' =>
      if bool_decide (x ∈ seen) then set_elements seen l'
      else x :: set_elements (x :: seen) l'
  end.

(** [service.port && service.autoPort !== false] *)
Definition wants_auto_port (s : service) : option Z :=
  match port s with
  | Some p => if negb (p =? 0) && negb (bool_decide (autoPort s = Some false))
              then Some p else None
  | None => None
  end.

(** The dependency names before duplicates are removed. *)
Definition collect_dependencies (s : service)
    (centralizedDeps : list (string * list string)) : list string :=
  let dependencies := from_option id [] (depends_on s) in
  match dependencyGroups s with
  | Some groups =>
      foldl (fun deps group =>
               match obj_get group centralizedDeps with
               | Some members => deps ++ members
               | None => deps
               end) dependencies groups
  | None => dependencies
  end.

Definition keep_if_present (v : option jsval) : option jsval :=
  if present v then v else None.

Definition convertServiceToCompose (s : service)
    (centralizedDeps : list (string * list string))
    (usedPorts : gset Z) (currentPort : Z) : compose_service * gset Z :=
  let img :=
    from_option id "undefined" (image s) +:+ ":" +:+
    match tag s with
    | Some t => if bool_decide (t = "") then "latest" else t
    | None => "latest"
    end in
  let '(compiled_ports, used) :=
    match ports s with
    | Some mappings => (Some mappings, track_ports usedPorts mappings)
    | None =>
        match wants_auto_port s with
        | Some p =>
            let hostPort := first_free usedPorts currentPort in
            (Some [Js.of_num hostPort +:+ ":" +:+ Js.of_num p],
             {[hostPort]} ∪ usedPorts)
        | None => (None, usedPorts)
        end
    end in
  let dependencies := collect_dependencies s centralizedDeps in
  ({| c_image := img;
      c_networks := ["xq-network"];
      c_ports := compiled_ports;
      c_environment := keep_if_present (environment s);
      c_volumes := keep_if_present (volumes s);
      c_command := keep_if_present (command s);
      c_healthcheck := keep_if_present (healthcheck s);
      c_depends_on :=
        match dependencies with
        | [] => None
        | _ => Some (DepList (set_elements [] dependencies))
        end |},
   used).

(** The state of the loop over the services: the entries compiled so
    far, the used host ports and the cursor [nextPort]. *)
Record gen_state : Type := GenState {
  compiled : list (string * compose_service);
  used_ports : gset Z;
  next_port : Z
}.

(** One turn of the [forEach] of [generateComposeObject]. *)
Definition compile_entry (centralizedDeps : list (string * list string))
    (st : gen_state) (entry : string * service) : gen_state :=
  let '(name, s) := entry in
  let '(c, used) :=
    convertServiceToCompose s centralizedDeps (used_ports st) (next_port st) in
  {| compiled := obj_set name c (compiled st);
     used_ports := used;
     next_port :=
       if bool_decide (autoPort s = Some false) then next_port st
       else first_free used (next_port st + 1) |}.

(** [spec.portRange?.start || 3000] *)
Definition initial_port (sp : spec) : Z :=
  match portRange_start sp with
  | Some start => if start =? 0 then 3000 else start
  | None => 3000
  end.

Definition initial_state (sp : spec) : gen_state :=
  {| compiled := []; used_ports := ∅; next_port := initial_port sp |}.

Definition compile_services (sp : spec) : gen_state :=
  foldl (compile_entry (from_option id [] (dependencies sp)))
        (initial_state sp) (services sp).

(** ** Route compiler (gateway.js) *)

(** What the gateway reads of an entry of [servicesMap]: the compiled
    [ports] and the [routes] of the original service. *)
Record gateway_service : Type := GatewayService {
  g_ports : option (list string);
  g_routes : option (list route_rule)
}.

(** An element of the array [parseRoutes] returns. *)
Record compiled_route : Type := CompiledRoute {
  serviceName : string;
  containerPort : Z;
  route_methods : list string;
  route_paths : list string
}.

Definition gateway_name : string := "xq-gateway".

Definition default_methods : list string :=
  ["GET"; "POST"; "PUT"; "DELETE"; "PATCH"].

Definition extractContainerPort (ps : option (list string)) : Z :=
  match ps with
  | Some (first :: _) =>
      let parts := Js.split_on ":"%char first in
      let candidate :=
        if bool_decide (1 < length parts)%nat then last parts else head parts in
      let portPart := hd "" (Js.split_on "/"%char (from_option id "" candidate)) in
      from_option id 80 (Js.parseInt10 portPart)
  | _ => 80
  end.

(** The routes one service contributes: the inner loop of [parseRoutes]. *)
Definition service_routes (name : string) (svc : gateway_service)
    (acc : list compiled_route) : list compiled_route :=
  let port := extractContainerPort (g_ports svc) in
  match g_routes svc with
  | Some rules =>
      foldl (fun acc rule =>
               match paths rule with
               | Some ps =>
                   acc ++ [{| serviceName := name;
                              containerPort := port;
                              route_methods := from_option id default_methods (methods rule);
                              route_paths := ps |}]
               | None => acc
               end) acc rules
  | None => acc
  end.

Definition parseRoutes (servicesMap : list (string * gateway_service))
    : list compiled_route :=
  foldl (fun acc entry =>
           if bool_decide (entry.1 = gateway_name) then acc
           else service_routes entry.1 entry.2 acc) [] servicesMap.

Definition convertToNginxPath (path : string) : string :=
  if Js.endsWith "/*" path then
    "~ ^" +:+ Js.escape_slashes (Js.drop_end 2 path) +:+ "(\/.*)?$"
  else
    "~ ^" +:+ Js.escape_slashes path +:+ "(\/|$)".

(** [if (!m.has(k)) m.set(k, empty); add x to m.get(k)] on a [Map] whose
    values are collections, [add] being the method that adds to one. *)
Definition group_with {A} (add : A -> list A -> list A) (k : string) (x : A)
    (m : list (string * list A)) : list (string * list A) :=
  let m1 := match obj_get k m with Some _ => m | None => obj_set k [] m end in
  match obj_get k m1 with
  | Some l => obj_set k (add x l) m1
  | None => m1
  end.

(** [array.push(x)] *)
Definition array_push {A} (x : A) (l : list A) : list A := l ++ [x].

(** [set.add(x)] on a [Set] kept in insertion order. *)
Definition set_add (x : string) (l : list string) : list string :=
  if bool_decide (x ∈ l) then l else l ++ [x].

(** [pathGroups.get(path).push(route)], after the [has] test. *)
Definition group_push {A} (k : string) (x : A)
    (m : list (string * list A)) : list (string * list A) :=
  group_with array_push k x m.

(** [methodGroups.get(method).add(name)], after the [has] test. *)
Definition group_add (k x : string)
    (m : list (string * list string)) : list (string * list string) :=
  group_with set_add k x m.

Definition pathGroups (rs : list compiled_route)
    : list (string * list compiled_route) :=
  foldl (fun groups route =>
           foldl (fun groups path => group_push path route groups)
                 groups (route_paths route)) [] rs.

Definition methodGroups (routeConfigs : list compiled_route)
    : list (string * list string) :=
  foldl (fun groups config =>
           foldl (fun groups method => group_add method (serviceName config) groups)
                 groups (route_methods config)) [] routeConfigs.

Definition proxy_pass (indent name : string) : string :=
  indent +:+ "proxy_pass http://" +:+ name +:+ "_upstream;" +:+ Js.nl.

Definition method_block (entry : string * list string) : string :=
  let '(method, names) := entry in
  let first := from_option id "undefined" (head names) in
  if bool_decide (length names = 1%nat) then
    "        if ($request_method = " +:+ method +:+ ") {" +:+ Js.nl +:+
    proxy_pass "            " first +:+
    "        }" +:+ Js.nl
  else
    "        if ($request_method = " +:+ method +:+ ") {" +:+ Js.nl +:+
    proxy_pass "            " first +:+
    "        }" +:+ Js.nl.

Definition proxy_headers : string :=
  "        proxy_set_header Host $host;" +:+ Js.nl +:+
  "        proxy_set_header X-Real-IP $remote_addr;" +:+ Js.nl +:+
  "        proxy_set_header X-Forwarded-For $proxy_add_x_forwarded_for;" +:+ Js.nl +:+
  "        proxy_set_header X-Forwarded-Proto $scheme;" +:+ Js.nl.

(** The text of one [location] block: the body of the second loop of
    [generatePathBasedLocations]. *)
Definition locationBlock (path : string) (routeConfigs : list compiled_route) : string :=
  let groups := methodGroups routeConfigs in
  "    location " +:+ convertToNginxPath path +:+ " {" +:+ Js.nl +:+
  (if bool_decide (length groups = 1%nat) && bool_decide (length routeConfigs = 1%nat)
   then proxy_pass "        "
          (from_option id "undefined" (serviceName <$> head routeConfigs))
   else foldl (fun text entry => text +:+ method_block entry) "" groups) +:+
  proxy_headers +:+
  "    }".

Definition generatePathBasedLocations (rs : list compiled_route) : string :=
  Js.join (Js.nl +:+ Js.nl)
    (foldl (fun blocks group => blocks ++ [locationBlock group.1 group.2])
           [] (pathGroups rs)).

Definition generateServiceNameLocations
    (servicesMap : list (string * gateway_service)) : string :=
  Js.join (Js.nl +:+ Js.nl)
    (foldl (fun locations entry =>
              if bool_decide (entry.1 = gateway_name) then locations
              else locations ++
                   ["    location /" +:+ entry.1 +:+ "/ {" +:+ Js.nl +:+
                    "        proxy_pass http://" +:+ entry.1 +:+ "_upstream/;" +:+ Js.nl +:+
                    proxy_headers +:+ "    }"])
           [] servicesMap).

(** The text [generateNginxConfig] writes to the gateway's config file. *)
Definition generateNginxConfig (servicesMap : list (string * gateway_service)) : string :=
  let upstreams :=
    foldl (fun ups entry =>
             if bool_decide (entry.1 = gateway_name) then ups
             else ups ++
                  ["upstream " +:+ entry.1 +:+ "_upstream {" +:+ Js.nl +:+
                   "    server " +:+ entry.1 +:+ ":" +:+
                   Js.of_num (extractContainerPort (g_ports entry.2)) +:+ ";" +:+ Js.nl +:+
                   "}"])
          [] servicesMap in
  let rs := parseRoutes servicesMap in
  let locationBlocks :=
    (match rs with
     | [] => ""
     | _ => generatePathBasedLocations rs +:+ Js.nl +:+ Js.nl
     end) +:+ generateServiceNameLocations servicesMap in
  "# auto-generated by xq-test-infra gateway" +:+ Js.nl +:+
  "worker_processes 1;" +:+ Js.nl +:+
  "error_log /var/log/nginx/error.log warn;" +:+ Js.nl +:+
  "events { worker_connections 1024; }" +:+ Js.nl +:+
  "http {" +:+ Js.nl +:+
  "    sendfile on;" +:+ Js.nl +:+
  "    tcp_nopush on;" +:+ Js.nl +:+
  "    include /etc/nginx/mime.types;" +:+ Js.nl +:+
  "    default_type application/octet-stream;" +:+ Js.nl +:+
  Js.nl +:+
  "    " +:+ Js.join (Js.nl +:+ Js.nl +:+ "    ") upstreams +:+ Js.nl +:+
  Js.nl +:+
  "    server {" +:+ Js.nl +:+
  "        listen 80;" +:+ Js.nl +:+
  "        server_name _;" +:+ Js.nl +:+
  Js.nl +:+
  locationBlocks +:+ Js.nl +:+
  "    }" +:+ Js.nl +:+
  "}" +:+ Js.nl.

(** ** Gateway injection (composeGenerator.js, [addGateway]) *)

(** [condition: entry.healthcheck ? 'service_healthy' : 'service_started'] *)
Definition gateway_condition (c : compose_service) : string :=
  if present (c_healthcheck c) then "service_healthy" else "service_started".

(** The gateway's [depends_on]: one property per key of [compose.services]. *)
Definition gatewayDependsOn (entries : list (string * compose_service))
    : list (string * string) :=
  foldl (fun deps name =>
           match obj_get name entries with
           | Some c => obj_set name (gateway_condition c) deps
           | None => deps
           end) [] (obj_keys entries).

(** The host ports of the compiled entries, as [addGateway] collects them. *)
Definition gateway_used_ports (entries : list (string * compose_service)) : gset Z :=
  foldl (fun used entry =>
           match c_ports entry.2 with
           | Some mappings => track_ports used mappings
           | None => used
           end) ∅ entries.

(** [servicesWithRoutes]: each compiled entry with the [routes] of the
    original service of the same name. *)
Definition servicesWithRoutes (entries : list (string * compose_service))
    (originalServices : list (string * service)) : list (string * gateway_service) :=
  foldl (fun m entry =>
           obj_set entry.1
             {| g_ports := c_ports entry.2;
                g_routes := obj_get entry.1 originalServices ≫= routes |} m)
        [] entries.

(** [addGateway]: the document with the gateway entry, and the text of
    the proxy configuration written next to it. *)
Definition addGateway (nginxConfigPath : string)
    (entries : list (string * compose_service))
    (originalServices : list (string * service))
    : list (string * compose_service) * string :=
  let conf := generateNginxConfig (servicesWithRoutes entries originalServices) in
  let gatewayPort := first_free (gateway_used_ports entries) 8080 in
  (obj_set gateway_name
     {| c_image := "nginx:alpine";
        c_networks := ["xq-network"];
        c_ports := Some [Js.of_num gatewayPort +:+ ":80"];
        c_environment := None;
        c_volumes := Some (JArr [JStr (nginxConfigPath +:+ ":/etc/nginx/nginx.conf:ro")]);
        c_command := None;
        c_healthcheck := None;
        c_depends_on := Some (DepMap (gatewayDependsOn entries)) |}
     entries,
   conf).

(** [generateComposeObject]: the document and, when the gateway is
    injected, the proxy configuration. *)
Definition generateComposeObject (nginxConfigPath : string) (sp : spec)
    (enableGateway : bool) : compose * option string :=
  let entries := compiled (compile_services sp) in
  let '(entries', conf) :=
    if enableGateway && bool_decide (0 < length (obj_keys entries))%nat then
      let '(e, c) := addGateway nginxConfigPath entries (services sp) in (e, Some c)
    else (entries, None) in
  ({| version := "3.8";
      compose_services := entries';
      networks := [("xq-network", "bridge")] |},
   conf).

(** ** Service loader (serviceLoader.js) *)

(** What a loader call throws. *)
Inductive load_error : Type :=
  | PathDoesNotExist
  | InvalidPathType
  | ParseFailure (filename : string)
  | NoServiceFiles
  | EmptyServiceFile (filename : string)
  | DuplicateServiceName (name filename : string)
  | NonExistentDependency (name dep : string)
  | CircularDependency (name : string).

(** The result of running a loader function: it returns, it throws, or
    the bound of the model was too small ([Unfinished], shown below never
    to happen for [validateDependencies]). *)
Inductive outcome (A : Type) : Type :=
  | Returns (a : A)
  | Throws (e : load_error)
  | Unfinished.
Arguments Returns {A} a.
Arguments Throws {A} e.
Arguments Unfinished {A}.

(** The members every object literal inherits from [Object.prototype]:
    reading [o[k]] for one of them gives a function or object, which is
    true in a condition. *)
Definition object_prototype_names : list string :=
  ["constructor"; "__defineGetter__"; "__defineSetter__"; "hasOwnProperty";
   "__lookupGetter__"; "__lookupSetter__"; "isPrototypeOf";
   "propertyIsEnumerable"; "toString"; "valueOf"; "__proto__";
   "toLocaleString"].

(** The truth value of [o[k]] when the own properties of [o] are
    objects. *)
Definition has_property {A} (k : string) (o : list (string * A)) : bool :=
  bool_decide (is_Some (obj_get k o)) || bool_decide (k ∈ object_prototype_names).

(** The [depends_on] that [hasCycle] iterates for a name. *)
Definition deps_of (svcs : list (string * service)) (name : string) : list string :=
  match obj_get name svcs with
  | Some s => from_option id [] (depends_on s)
  | None => []
  end.

Record dfs_state : Type := DfsState {
  visited : gset string;
  recursionStack : gset string
}.

(** The [for (const dep of service.depends_on)] loop of [hasCycle], over
    the recursive call [rec]. *)
Fixpoint check_deps (rec : string -> dfs_state -> outcome (bool * dfs_state))
    (svcs : list (string * service)) (name : string)
    (deps : list string) (st : dfs_state) : outcome dfs_state :=
  match deps with
  | [] => Returns st
  | dep :: rest =>
      if negb (has_property dep svcs) then Throws (NonExistentDependency name dep)
      else match rec dep st with
           | Returns (true, _) => Throws (CircularDependency name)
           | Returns (false, st') => check_deps rec svcs name rest st'
           | Throws e => Throws e
           | Unfinished => Unfinished
           end
  end.

Fixpoint hasCycle (fuel : nat) (svcs : list (string * service))
    (name : string) (st : dfs_state) : outcome (bool * dfs_state) :=
  match fuel with
  | O => Unfinished
  | S fuel' =>
      if bool_decide (name ∈ recursionStack st) then Returns (true, st)
      else if bool_decide (name ∈ visited st) then Returns (false, st)
      else
        let st1 := {| visited := {[name]} ∪ visited st;
                      recursionStack := {[name]} ∪ recursionStack st |} in
        match check_deps (hasCycle fuel' svcs) svcs name (deps_of svcs name) st1 with
        | Returns st2 =>
            Returns (false, {| visited := visited st2;
                               recursionStack := recursionStack st2 ∖ {[name]} |})
        | Throws e => Throws e
        | Unfinished => Unfinished
        end
  end.

(** The loop of [validateDependencies] over [Object.keys(services)]. *)
Fixpoint check_all (fuel : nat) (svcs : list (string * service))
    (names : list string) (st : dfs_state) : outcome dfs_state :=
  match names with
  | [] => Returns st
  | name :: rest =>
      if bool_decide (name ∈ visited st) then check_all fuel svcs rest st
      else match hasCycle fuel svcs name st with
           | Returns (_, st') => check_all fuel svcs rest st'
           | Throws e => Throws e
           | Unfinished => Unfinished
           end
  end.

(** A recursion depth no run exceeds: every nested call marks a new name. *)
Definition dfs_fuel (svcs : list (string * service)) : nat :=
  S (length svcs + length object_prototype_names).

Definition validateDependencies (svcs : list (string * service)) : outcome unit :=
  match check_all (dfs_fuel svcs) svcs (obj_keys svcs)
          {| visited := ∅; recursionStack := ∅ |} with
  | Returns _ => Returns ()
  | Throws e => Throws e
  | Unfinished => Unfinished
  end.

(** The result of [YAML.parse] on a file: it throws, or gives a document,
    [None] for an empty one. *)
Inductive parsed (A : Type) : Type :=
  | Unparsable
  | Parsed (doc : option A).
Arguments Unparsable {A}.
Arguments Parsed {A} doc.

(** A parsed service file: the optional [name] field and the rest. *)
Record service_file : Type := ServiceFile {
  file_name_field : option string;
  file_config : service
}.

(** The parsed [xq.config.yml]. *)
Record global_config : Type := GlobalConfig {
  config_portRange_start : option Z;
  config_dependencies : option (list (string * list string))
}.

(** [filename.replace(/\.service\.ya?ml$/, '')] *)
Definition deriveServiceName (filename : string) : string :=
  if Js.endsWith ".service.yml" filename then Js.drop_end 12 filename
  else if Js.endsWith ".service.yaml" filename then Js.drop_end 13 filename
  else filename.

(** [scanServiceFiles]: the service files of a listing, sorted. *)
Definition scanServiceFiles {A} (files : list (string * A)) : list (string * A) :=
  merge_sort (fun x y => String.le x.1 y.1)
    (filter (fun f => Js.endsWith ".service.yml" f.1 = true
                      ∨ Js.endsWith ".service.yaml" f.1 = true) files).

(** The loop of [mergeServiceFiles] over the service files. *)
Fixpoint merge_files (files : list (string * parsed service_file))
    (svcs : list (string * service)) : outcome (list (string * service)) :=
  match files with
  | [] => Returns svcs
  | (filename, content) :: rest =>
      match content with
      | Unparsable => Throws (ParseFailure filename)
      | Parsed None => Throws (EmptyServiceFile filename)
      | Parsed (Some serviceData) =>
          let name :=
            match file_name_field serviceData with
            | Some n => if bool_decide (n = "") then deriveServiceName filename else n
            | None => deriveServiceName filename
            end in
          if has_property name svcs then Throws (DuplicateServiceName name filename)
          else merge_files rest (obj_set name (file_config serviceData) svcs)
      end
  end.

Definition mergeServiceFiles (files : list (string * parsed service_file))
    (globalConfig : global_config) : outcome spec :=
  match merge_files files [] with
  | Returns svcs =>
      match validateDependencies svcs with
      | Returns _ =>
          Returns {| portRange_start := config_portRange_start globalConfig;
                     dependencies := config_dependencies globalConfig;
                     services := svcs |}
      | Throws e => Throws e
      | Unfinished => Unfinished
      end
  | Throws e => Throws e
  | Unfinished => Unfinished
  end.

(** [loadGlobalConfig]: the parsed config file, if there is one. *)
Definition loadGlobalConfig (config : option (string * parsed global_config))
    : outcome global_config :=
  match config with
  | Some (filename, Unparsable) => Throws (ParseFailure filename)
  | Some (_, Parsed (Some c)) => Returns c
  | Some (_, Parsed None) | None => Returns (GlobalConfig None None)
  end.

Definition loadFromDirectory (files : list (string * parsed service_file))
    (config : option (string * parsed global_config)) : outcome spec :=
  let serviceFiles := scanServiceFiles files in
  match serviceFiles with
  | [] => Throws NoServiceFiles
  | _ =>
      match loadGlobalConfig config with
      | Returns globalConfig => mergeServiceFiles serviceFiles globalConfig
      | Throws e => Throws e
      | Unfinished => Unfinished
      end
  end.

(** What [readXQSpec] finds at the path it is given.  A single file is
    returned as the parser reads it, unchecked: its content is the
    specification it parses to, or nothing when the parser throws. *)
Inductive source : Type :=
  | NoSuchPath
  | OtherPath
  | SpecFile (content : option spec)
  | SpecDirectory (files : list (string * parsed service_file))
                  (config : option (string * parsed global_config)).

(** [readXQSpec]: the [load] of the design document. *)
Definition readXQSpec (src : source) : outcome spec :=
  match src with
  | NoSuchPath => Throws PathDoesNotExist
  | OtherPath => Throws InvalidPathType
  | SpecFile None => Throws (ParseFailure "")
  | SpecFile (Some sp) => Returns sp
  | SpecDirectory files config => loadFromDirectory files config
  end.

(** ** Overrides (composeGenerator.js, [applyOverrides]) *)

(** [applyOverrides] reads no field of a service: it works on the parsed
    document, where a service is a map from field names to values. *)
Definition raw_service : Type := list (string * jsval).

Record raw_spec : Type := RawSpec {
  raw_portRange : option jsval;
  raw_dependencies : option jsval;
  raw_services : option (list (string * raw_service))
}.

Fixpoint indexed {A} (i : nat) (l : list A) : list (string * A) :=
  match l with
  | [] => []
  | x :: l' => (pretty i, x) :: indexed (S i) l'
  end.

Fixpoint chars (s : string) : list jsval :=
  match s with
  | "" => []
  | String a s' => JStr (String a "") :: chars s'
  end.

(** The own enumerable properties [Object.assign] copies from a source. *)
Definition own_props (v : jsval) : list (string * jsval) :=
  match v with
  | JObj o => o
  | JArr l => indexed 0 l
  | JStr s => indexed 0 (chars s)
  | JNull | JBool _ | JNum _ => []
  end.

(** [Object.assign(target, source)] *)
Definition Object_assign (target : raw_service) (source : jsval) : raw_service :=
  foldl (fun t kv => obj_set kv.1 kv.2 t) target (own_props source).

(** One turn of the [forEach] over [Object.keys(overrides.services)]. *)
Definition override_service (svcs : list (string * raw_service))
    (entry : string * jsval) : list (string * raw_service) :=
  match obj_get entry.1 svcs with
  | Some target => obj_set entry.1 (Object_assign target entry.2) svcs
  | None => svcs
  end.

(** [applyOverrides(spec, overrides)], [overrides_services] being
    [overrides.services]; the JSON round trip that copies [spec] is the
    identity on document values. *)
Definition applyOverrides (sp : raw_spec)
    (overrides_services : option (list (string * jsval))) : raw_spec :=
  match overrides_services, raw_services sp with
  | Some ov, Some svcs =>
      {| raw_portRange := raw_portRange sp;
         raw_dependencies := raw_dependencies sp;
         raw_services := Some (foldl override_service svcs ov) |}
  | _, _ => sp
  end.

(** ** Test-container wait (composeInvoker.js) *)

(** An element of [testContainerStatuses]; [exitCode] is [None] when
    the property is not set. *)
Record container_status : Type := ContainerStatus {
  cs_service : string;
  cs_status : string;
  cs_exitCode : option Z;
  cs_exited : bool
}.

Fixpoint take_digits (s : string) : string * string :=
  match s with
  | "" => ("", "")
  | String a s' =>
      if Js.is_digit a then
        let '(ds, rest) := take_digits s' in (String a ds, rest)
      else ("", s)
  end.

Fixpoint strip_prefix (p s : string) : option string :=
  match p, s with
  | "", _ => Some s
  | String a p', String b s' =>
      if bool_decide (a = b) then strip_prefix p' s' else None
  | String _ _, "" => None
  end.

(** [/Exited\s*\((\d+)\)/] anchored at the start of [s]: the digits. *)
Definition exit_code_at (s : string) : option string :=
  r1 ← strip_prefix "Exited" s;
  r2 ← strip_prefix "(" (Js.skip_ws r1);
  let '(ds, r3) := take_digits r2 in
  if bool_decide (ds = "") then None
  else _ ← strip_prefix ")" r3; Some ds.

(** [status.match(/Exited\s*\((\d+)\)/)]: the capture of the leftmost
    match. *)
Fixpoint exit_code_match (s : string) : option string :=
  match exit_code_at s with
  | Some ds => Some ds
  | None =>
      match s with
      | "" => None
      | String _ s' => exit_code_match s'
      end
  end.

(** [parts.findIndex(p)]; [None] for -1. *)
Fixpoint findIndex {A} (p : A -> bool) (l : list A) : option nat :=
  match l with
  | [] => None
  | x :: l' => if p x then Some O else S <$> findIndex p l'
  end.

(** The status text read off a line for a tracked service. *)
Definition line_status (line name : string) : string :=
  let parts := Js.split_ws line in
  let fallback := from_option id "" (last parts) in
  match findIndex (Js.includes name) parts with
  | Some serviceIndex =>
      if bool_decide (serviceIndex < length parts - 1)%nat
      then Js.join " " (drop (S serviceIndex) parts)
      else fallback
  | None => fallback
  end.

Definition line_entry (line name : string) : container_status :=
  let status := line_status line name in
  let isExited := Js.includes "Exited" status || Js.includes "exited" status in
  if isExited then
    {| cs_service := name;
       cs_status := status;
       cs_exitCode :=
         match exit_code_match status with
         | Some ds => Js.parseInt10 ds
         | None => Some 0
         end;
       cs_exited := true |}
  else
    {| cs_service := name; cs_status := status;
       cs_exitCode := None; cs_exited := false |}.

Definition is_header (line : string) : bool :=
  Js.includes "NAME" line || Js.includes "SERVICE" line || Js.startsWith "---" line.

(** [testContainerStatuses] after one poll that printed [stdout]. *)
Definition poll_statuses (testContainers : list string) (stdout : string)
    : list container_status :=
  let lines := filter (fun line => Js.trim_nonempty line = true)
                      (Js.split_on "010"%char stdout) in
  foldl (fun statuses line =>
           if is_header line then statuses
           else foldl (fun statuses name =>
                         if Js.includes name line
                         then statuses ++ [line_entry line name]
                         else statuses) statuses testContainers)
        [] lines.

(** What one poll decides. *)
Inductive verdict : Type :=
  | StillWaiting
  | AllSucceeded
  | SomeFailed (failedContainers : list container_status).

Definition judge (testContainers : list string)
    (statuses : list container_status) : verdict :=
  let foundContainers := cs_service <$> statuses in
  let allFound := forallb (fun name => bool_decide (name ∈ foundContainers)) testContainers in
  let allExited :=
    bool_decide (0 < length statuses)%nat && forallb cs_exited statuses &&
    bool_decide (length statuses = length testContainers) in
  if allFound && allExited then
    let failedContainers :=
      filter (fun c => cs_exitCode c ≠ Some 0) statuses in
    if bool_decide (0 < length failedContainers)%nat
    then SomeFailed failedContainers else AllSucceeded
  else StillWaiting.

(** One status poll: the command fails, or prints [stdout]. *)
Inductive poll : Type :=
  | PsFails
  | PsOutput (stdout : string).

(** How the wait ends: the value returned, after how many polls, and
    the containers reported as failed.  [WaitGoesOn] says the observed
    polls end before the wait does. *)
Inductive wait_result : Type :=
  | WaitTrue (polls : nat)
  | WaitFalse (polls : nat) (failedContainers : list container_status)
  | WaitTimedOut (polls : nat)
  | WaitGoesOn.

Definition returned (r : wait_result) : option bool :=
  match r with
  | WaitTrue _ => Some true
  | WaitFalse _ _ | WaitTimedOut _ => Some false
  | WaitGoesOn => None
  end.

(** The [while (Date.now() - startTime < timeout)] loop.  Each element
    of [observed] is a turn of the loop: the elapsed time read by the
    loop test, and the poll made if the test passes. *)
Fixpoint wait_loop (timeout : Z) (testContainers : list string)
    (done : nat) (observed : list (Z * poll)) : wait_result :=
  match observed with
  | [] => WaitGoesOn
  | (elapsed, p) :: rest =>
      if elapsed <? timeout then
        match p with
        | PsFails => wait_loop timeout testContainers (S done) rest
        | PsOutput stdout =>
            match judge testContainers (poll_statuses testContainers stdout) with
            | SomeFailed failedContainers => WaitFalse (S done) failedContainers
            | AllSucceeded => WaitTrue (S done)
            | StillWaiting => wait_loop timeout testContainers (S done) rest
            end
        end
      else WaitTimedOut done
  end.

Definition waitForTestContainers (timeout : Z) (testContainers : list string)
    (observed : list (Z * poll)) : wait_result :=
  match testContainers with
  | [] => WaitTrue 0
  | _ => wait_loop timeout testContainers 0 observed
  end.

(** ** Notions the properties are stated with *)

(** [h] is the first port at or above [p] that is not in [used]. *)
Definition first_free_from (used : gset Z) (p h : Z) : Prop :=
  (p ≤ h) ∧ (h ∉ used) ∧ (∀ q, p ≤ q < h -> q ∈ used).

(** The state of the loop of [generateComposeObject] once the services
    [done] are compiled. *)
Definition state_after (sp : spec) (done : list (string * service)) : gen_state :=
  foldl (compile_entry (from_option id [] (dependencies sp))) (initial_state sp) done.

(** ** Sample descriptors *)

(** A service with nothing but an image and, possibly, a [port]. *)
Definition plain_service (p : option Z) : service :=
  {| image := Some "app"; tag := None; ports := None; port := p;
     autoPort := None; environment := None; volumes := None; command := None;
     healthcheck := None; depends_on := None; dependencyGroups := None;
     routes := None |}.

(** [port: 80] with [autoPort: false]. *)
Definition no_auto_service : service :=
  {| image := Some "app"; tag := None; ports := None; port := Some 80;
     autoPort := Some false; environment := None; volumes := None;
     command := None; healthcheck := None; depends_on := None;
     dependencyGroups := None; routes := None |}.

Definition spec_no_auto : spec :=
  {| portRange_start := None; dependencies := None;
     services := [("a", no_auto_service); ("b", plain_service (Some 80))] |}.


(** A database with a healthcheck and an API that depends on it, once
    by name and once through a dependency group. *)
Definition db_service : service :=
  {| image := Some "postgres"; tag := None; ports := Some ["5432:5432"];
     port := None; autoPort := None; environment := None; volumes := None;
     command := None;
     healthcheck := Some (JObj [("test", JStr "pg_isready")]);
     depends_on := None; dependencyGroups := None; routes := None |}.

Definition api_service : service :=
  {| image := Some "node"; tag := Some "18-alpine"; ports := None;
     port := Some 3000; autoPort := None; environment := None;
     volumes := None; command := None; healthcheck := None;
     depends_on := Some ["db"]; dependencyGroups := Some ["database"];
     routes := None |}.

Definition spec_api_db : spec :=
  {| portRange_start := Some 4000;
     dependencies := Some [("database", ["db"; "postgres"])];
     services := [("api", api_service); ("db", db_service);
                  ("postgres", plain_service None)] |}.

(** ** The dependency graph *)

(** [u] lists [v] in its [depends_on]. *)
Definition edge (svcs : list (string * service)) (u v : string) : Prop :=
  v ∈ deps_of svcs u.

(** No service reaches itself along one or more [depends_on] entries. *)
Definition acyclic (svcs : list (string * service)) : Prop :=
  ∀ u, ¬ tc (edge svcs) u u.

(** What an error of [validateDependencies] says about the graph. *)
Definition error_sound (svcs : list (string * service)) (e : load_error) : Prop :=
  match e with
  | NonExistentDependency u v => edge svcs u v ∧ has_property v svcs = false
  | CircularDependency u => tc (edge svcs) u u
  | _ => False
  end.

(** The names [hasCycle] can be called with. *)
Definition nodes (svcs : list (string * service)) : gset string :=
  list_to_set (obj_keys svcs ++ object_prototype_names).

(** The names whose visit is over. *)
Definition finished (st : dfs_state) : gset string :=
  visited st ∖ recursionStack st.

(** The invariant of the traversal: the stack is visited; a finished
    name depends only on finished names that pass the existence test,
    and lies on no cycle. *)
Record dfs_inv (svcs : list (string * service)) (st : dfs_state) : Prop := DfsInv {
  inv_stack : recursionStack st ⊆ visited st;
  inv_closed : ∀ u v, u ∈ finished st -> edge svcs u v ->
                      has_property v svcs = true ∧ v ∈ finished st;
  inv_acyclic : ∀ u, u ∈ finished st -> ¬ tc (edge svcs) u u
}.

(** What a call [hasCycle(name)] from state [st] guarantees. *)
Definition hasCycle_post (svcs : list (string * service)) (name : string)
    (st : dfs_state) (r : outcome (bool * dfs_state)) : Prop :=
  match r with
  | Returns (true, st') => name ∈ recursionStack st ∧ st' = st
  | Returns (false, st') =>
      name ∈ finished st' ∧ dfs_inv svcs st' ∧
      visited st ⊆ visited st' ∧ recursionStack st' = recursionStack st
  | Throws e => error_sound svcs e
  | Unfinished => False
  end.

(** What the loop over the dependencies of [name] guarantees. *)
Definition check_deps_post (svcs : list (string * service)) (deps : list string)
    (st : dfs_state) (r : outcome dfs_state) : Prop :=
  match r with
  | Returns st' =>
      dfs_inv svcs st' ∧ visited st ⊆ visited st' ∧
      recursionStack st' = recursionStack st ∧
      ∀ d, d ∈ deps -> has_property d svcs = true ∧ d ∈ finished st'
  | Throws e => error_sound svcs e
  | Unfinished => False
  end.

(** The name fails the existence test [services[dep]]: it is neither a
    service nor a member inherited from [Object.prototype]. *)
Definition missing (svcs : list (string * service)) (v : string) : Prop :=
  obj_get v svcs = None ∧ v ∉ object_prototype_names.

(** The services of a directory as merged, before they are validated. *)
Definition merged_services (files : list (string * parsed service_file))
    (config : option (string * parsed global_config))
    : outcome (list (string * service)) :=
  match scanServiceFiles files with
  | [] => Throws NoServiceFiles
  | serviceFiles =>
      match loadGlobalConfig config with
      | Returns _ => merge_files serviceFiles []
      | Throws e => Throws e
      | Unfinished => Unfinished
      end
  end.

(** [u] depends on [v] once the dependency groups are expanded. *)
Definition expanded_edge (sp : spec) (u v : string) : Prop :=
  ∃ s, obj_get u (services sp) = Some s ∧
       v ∈ collect_dependencies s (default [] (dependencies sp)).

(** A service file with nothing but an image and a [depends_on]. *)
Definition depending_on (deps : option (list string)) : service :=
  {| image := Some "app"; tag := None; ports := None; port := None;
     autoPort := None; environment := None; volumes := None; command := None;
     healthcheck := None; depends_on := deps; dependencyGroups := None;
     routes := None |}.

Definition file_of (s : service) : parsed service_file :=
  Parsed (Some {| file_name_field := None; file_config := s |}).

(** [a] names a missing service before it closes a cycle with [b]. *)
Definition dir_dangling_then_cycle : list (string * parsed service_file) :=
  [("a.service.yml", file_of (depending_on (Some ["zzz"; "b"])));
   ("b.service.yml", file_of (depending_on (Some ["a"])))].

(** [b] closes a cycle with [a] before it names a missing service. *)
Definition dir_cycle_then_dangling : list (string * parsed service_file) :=
  [("a.service.yml", file_of (depending_on (Some ["b"])));
   ("b.service.yml", file_of (depending_on (Some ["a"; "zzz"])))].

(** A dependency on a name every object inherits. *)
Definition dir_inherited_name : list (string * parsed service_file) :=
  [("a.service.yml", file_of (depending_on (Some ["toString"])))].

(** A service apart, and a cycle between two others. *)
Definition dir_cycle_apart : list (string * parsed service_file) :=
  [("a.service.yml", file_of (depending_on None));
   ("x.service.yml", file_of (depending_on (Some ["y"])));
   ("y.service.yml", file_of (depending_on (Some ["x"])))].

(** A valid chain [api -> cache -> db]. *)
Definition dir_chain : list (string * parsed service_file) :=
  [("api.service.yml", file_of (depending_on (Some ["cache"; "db"])));
   ("cache.service.yml", file_of (depending_on (Some ["db"])));
   ("db.service.yml", file_of (depending_on None))].

(** A service whose dependency group names a missing service and the
    service itself. *)
Definition grouped_service : service :=
  {| image := Some "app"; tag := None; ports := None; port := Some 3000;
     autoPort := None; environment := None; volumes := None; command := None;
     healthcheck := None; depends_on := None;
     dependencyGroups := Some ["database"]; routes := None |}.

Definition dir_grouped : list (string * parsed service_file) :=
  [("api.service.yml", file_of grouped_service)].

Definition config_grouped : option (string * parsed global_config) :=
  Some ("xq.config.yml",
        Parsed (Some {| config_portRange_start := None;
                        config_dependencies := Some [("database", ["ghost"; "api"])] |})).

(** A single-file specification with a dependency on a missing service. *)
Definition spec_single_dangling : spec :=
  {| portRange_start := None; dependencies := None;
     services := [("web", depending_on (Some ["nowhere"]))] |}.

(** Decides a dependency edge of a concrete specification. *)
Ltac solve_edge :=
  unfold edge; apply list_elem_of_In; vm_compute; tauto.

(** ** The proxy configuration in the words of the design *)

(** The route a rule makes a service emit, if it has [paths]. *)
Definition emitted_route (name : string) (svc : gateway_service)
    (rule : route_rule) : option compiled_route :=
  ps ← paths rule;
  Some {| serviceName := name;
          containerPort := extractContainerPort (g_ports svc);
          route_methods := default default_methods (methods rule);
          route_paths := ps |}.



(** The pairs of a path and the route that lists it, in order. *)
Definition path_listings (rs : list compiled_route) : list (string * compiled_route) :=
  rs ≫= fun r => (fun p => (p, r)) <$> route_paths r.

(** The distinct paths, in order of first appearance. *)
Definition distinct_paths (rs : list compiled_route) : list string :=
  set_elements [] (path_listings rs).*1.










(** A service whose only rule has an explicitly empty [methods]. *)
Definition service_no_methods : gateway_service :=
  {| g_ports := Some ["3001:3000"];
     g_routes := Some [{| methods := Some []; paths := Some ["/api/data"] |}] |}.

(** A specification with one service, and overrides for its [tag] and
    [environment] and for a service that does not exist. *)
Definition raw_web : raw_service :=
  [("image", JStr "nginx"); ("tag", JStr "1.25");
   ("environment", JObj [("MODE", JStr "prod"); ("DEBUG", JStr "false")]);
   ("volumes", JArr [JStr "./html:/usr/share/nginx/html"])].

Definition raw_spec_web : raw_spec :=
  {| raw_portRange := None; raw_dependencies := None;
     raw_services := Some [("web", raw_web)] |}.

Definition overrides_web : list (string * jsval) :=
  [("web", JObj [("tag", JStr "latest");
                 ("environment", JObj [("DEBUG", JStr "true")])]);
   ("ghost", JObj [("tag", JStr "0")])].

(** ** The test-container wait in the words of the design *)

(** The entries of a poll are complete: every tracked service is among
    them, every entry is exited, and there is one entry per tracked
    service. *)
Definition complete (testContainers : list string)
    (statuses : list container_status) : Prop :=
  (∀ name, name ∈ testContainers -> name ∈ cs_service <$> statuses) ∧
  (∀ c, c ∈ statuses -> cs_exited c = true) ∧
  length statuses = length testContainers.

(** The poll shows every tracked service present and exited with code
    zero: each is named by some entry, and every entry is exited with
    exit code 0. *)
Definition shows_all_exited_zero (testContainers : list string)
    (stdout : string) : Prop :=
  (∀ name, name ∈ testContainers ->
           name ∈ cs_service <$> poll_statuses testContainers stdout) ∧
  (∀ c, c ∈ poll_statuses testContainers stdout ->
        cs_exited c = true ∧ cs_exitCode c = Some 0).

(** A poll that leaves the wait going: the command failed, or the
    entries are not complete. *)
Definition undecided (testContainers : list string) (p : poll) : Prop :=
  match p with
  | PsFails => True
  | PsOutput stdout =>
      judge testContainers (poll_statuses testContainers stdout) = StillWaiting
  end.

(** A turn of the loop that passes the time test and leaves the wait
    going. *)
Definition pending (timeout : Z) (testContainers : list string)
    (turn : Z * poll) : Prop :=
  turn.1 < timeout ∧ undecided testContainers turn.2.

(** The status lines of the invoker's tests. *)
Definition ps_header : string :=
  "NAME                          SERVICE      STATUS".

Definition ps_up : string :=
  ps_header +:+ Js.nl +:+ "database-xq-keeper-1         xq-keeper    Up".

Definition ps_exited_0 : string :=
  ps_header +:+ Js.nl +:+ "database-xq-keeper-1         xq-keeper    Exited (0)".

Definition ps_exited_1 : string :=
  ps_header +:+ Js.nl +:+ "database-xq-keeper-1         xq-keeper    Exited (1)".

(** Two containers whose names contain the tracked name [e2e], both
    exited with code 0. *)
Definition ps_two_e2e : string :=
  ps_header +:+ Js.nl +:+
  "proj-e2e-1                    e2e          Exited (0)" +:+ Js.nl +:+
  "proj-e2e-2                    e2e          Exited (0)".

(** An exit status in lower case, with a nonzero code. *)
Definition ps_lowercase_exit : string :=
  ps_header +:+ Js.nl +:+ "database-xq-keeper-1         xq-keeper    exited (1)".

(** Two test services, the name of one contained in the name of the
    other, both exited with code 0. *)
Definition ps_e2e_and_runner : string :=
  ps_header +:+ Js.nl +:+
  "proj-e2e-1                    e2e          Exited (0)" +:+ Js.nl +:+
  "proj-e2e-runner-1             e2e-runner   Exited (0)".

(** The name [mergeServiceFiles] files a service under:
    [serviceData.name || this.deriveServiceName(filename)]. *)
Definition declared_name (filename : string) (serviceData : service_file) : string :=
  match file_name_field serviceData with
  | Some n => if bool_decide (n = "") then deriveServiceName filename else n
  | None => deriveServiceName filename
  end.

(** The listing entry is a service file: its name ends in
    [.service.yml] or [.service.yaml]. *)
Definition is_service_file (filename : string) : Prop :=
  Js.endsWith ".service.yml" filename = true ∨
  Js.endsWith ".service.yaml" filename = true.

(** A service file that parses to a document. *)
Definition parsed_file (fd : string * service_file) : string * parsed service_file :=
  (fd.1, Parsed (Some fd.2)).

(** The entry [mergeServiceFiles] makes of a service file: its name and
    its document without the [name] field. *)
Definition merged_entry (fd : string * service_file) : string * service :=
  (declared_name fd.1 fd.2, file_config fd.2).

(** Every name is new when its file is merged: no earlier entry has it
    and it is no member inherited from [Object.prototype]. *)
Definition names_are_new (acc : list (string * service))
    (datas : list (string * service_file)) : Prop :=
  ∀ pre fd post, datas = pre ++ fd :: post ->
    has_property (declared_name fd.1 fd.2) (acc ++ (merged_entry <$> pre)) = false.

(** What the error raised for the file [f] with content [c] says, the
    entries [svcs] being merged before it. *)
Definition file_error (svcs : list (string * service)) (f : string)
    (c : parsed service_file) (e : load_error) : Prop :=
  match c with
  | Unparsable => e = ParseFailure f
  | Parsed None => e = EmptyServiceFile f
  | Parsed (Some d) =>
      e = DuplicateServiceName (declared_name f d) f ∧
      (is_Some (obj_get (declared_name f d) svcs) ∨
       declared_name f d ∈ object_prototype_names)
  end.

(** How a directory load fails, in the order the loader works: no
    service file in the listing; then an unparsable global config; then
    the first service file, in ascending order of names, that cannot be
    parsed, is empty, or declares a name that is taken; then, all files
    being merged, a defect of the declared dependencies. *)
Definition load_failure (files : list (string * parsed service_file))
    (config : option (string * parsed global_config)) (e : load_error) : Prop :=
  (scanServiceFiles files = [] ∧ e = NoServiceFiles) ∨
  (scanServiceFiles files ≠ [] ∧
   ∃ f, config = Some (f, Unparsable) ∧ e = ParseFailure f) ∨
  (∃ c pre f content post,
     loadGlobalConfig config = Returns c ∧
     scanServiceFiles files = (parsed_file <$> pre) ++ (f, content) :: post ∧
     names_are_new [] pre ∧
     file_error (merged_entry <$> pre) f content e) ∨
  (∃ c datas,
     loadGlobalConfig config = Returns c ∧
     scanServiceFiles files = parsed_file <$> datas ∧ datas ≠ [] ∧
     names_are_new [] datas ∧
     validateDependencies (merged_entry <$> datas) = Throws e ∧
     error_sound (merged_entry <$> datas) e).

(** Every character of the string satisfies [P]. *)
Definition string_forall (P : ascii -> Prop) (s : string) : Prop :=
  Forall P (String.list_ascii_of_string s).

(** The host ports of a compiled entry, as [parseInt] reads them off
    its port mappings. *)
Definition host_ports (c : compose_service) : list Z :=
  omap host_port (default [] (c_ports c)).

(** ** Test-container detection (composeInvoker.js, [detectTestContainers]) *)

(** [s.toLowerCase()] on ASCII letters; the names of services and of
    service files are ASCII. *)
Definition lower_char (a : ascii) : ascii :=
  let n := N_of_ascii a in
  if ((65 <=? n) && (n <=? 90))%N then ascii_of_N (n + 32) else a.

Fixpoint toLowerCase (s : string) : string :=
  match s with
  | "" => ""
  | String a s' => String (lower_char a) (toLowerCase s')
  end.

(** [s.split(sep)[0]]: what stands before the first [sep], all of [s]
    when [sep] does not occur. *)
Fixpoint before_first (sep s : string) : string :=
  if Js.startsWith sep s then ""
  else match s with
       | "" => ""
       | String a s' => String a (before_first sep s')
       end.

(** [s.replace(/^xq-/, '')] *)
Definition strip_xq (s : string) : string :=
  from_option id s (strip_prefix "xq-" s).

(** The filter of the directory listing: a name that contains [.test.]
    and has one of the endings. *)
Definition is_test_file (file : string) : bool :=
  Js.includes ".test." file &&
  (Js.endsWith ".yml" file || Js.endsWith ".yaml" file ||
   Js.endsWith ".service.yml" file || Js.endsWith ".service.yaml" file).

(** The base name a test file is matched by. *)
Definition test_base_name (testFile : string) : string :=
  strip_xq (before_first ".test." testFile).

(** The condition under which a service matches a base name. *)
Definition matches_base (baseName serviceName : string) : bool :=
  let serviceNameLower := toLowerCase serviceName in
  let baseNameLower := toLowerCase baseName in
  bool_decide (serviceNameLower = baseNameLower) ||
  Js.includes baseNameLower serviceNameLower ||
  Js.includes serviceNameLower baseNameLower ||
  bool_decide (serviceNameLower = "xq-" +:+ baseNameLower) ||
  bool_decide (serviceNameLower = baseNameLower +:+ "-service").

(** The loop over [Object.entries(services)], left at the first match. *)
Fixpoint first_match (baseName : string) (services : list string) : option string :=
  match services with
  | [] => None
  | serviceName :: rest =>
      if matches_base baseName serviceName then Some serviceName
      else first_match baseName rest
  end.

(** One turn of the loop over the test files.  A service of the compose
    file is an object, so [services[withPrefix]] is true exactly for a
    service name. *)
Definition test_file_container (services : list string)
    (testContainers : list string) (testFile : string) : list string :=
  let baseName := test_base_name testFile in
  match first_match baseName services with
  | Some serviceName => testContainers ++ [serviceName]
  | None =>
      let withPrefix := "xq-" +:+ baseName in
      if bool_decide (withPrefix ∈ services) then testContainers ++ [withPrefix]
      else testContainers
  end.

(** The fallback: the services whose names look like test containers. *)
Definition detect_by_name (services : list string) : list string :=
  foldl (fun testContainers serviceName =>
           let nameLower := toLowerCase serviceName in
           if Js.includes "keeper" nameLower then testContainers ++ [serviceName]
           else if Js.includes "e2e" nameLower then testContainers ++ [serviceName]
           else if Js.startsWith "test-" nameLower || bool_decide (nameLower = "test")
                then testContainers ++ [serviceName]
           else testContainers) [] services.

(** What [sourcePath] is: not given; a path that cannot be read (the
    status or the listing throws); a path that is no directory; or a
    directory with its listing. *)
Inductive source_path : Type :=
  | NoSourcePath
  | SourceUnreadable
  | SourceNotDirectory
  | SourceDirectory (files : list string).

(** [detectTestContainers(composeFile, sourcePath)].  [composeServices]
    is [None] when reading or parsing the compose file throws or gives
    no document, otherwise the names of its services in order.  An
    exception in the directory branch falls through to the fallback,
    which reads the compose file again; an exception there gives the
    empty list. *)
Definition detectTestContainers (composeServices : option (list string))
    (sourcePath : source_path) : list string :=
  let fallback :=
    match composeServices with
    | Some services => detect_by_name services
    | None => []
    end in
  match sourcePath with
  | SourceDirectory files =>
      match filter (fun file => is_test_file file = true) files with
      | [] => []
      | testFiles =>
          match composeServices with
          | Some services =>
              set_elements [] (foldl (test_file_container services) [] testFiles)
          | None => fallback
          end
      end
  | NoSourcePath | SourceUnreadable | SourceNotDirectory => fallback
  end.

(** The name looks like the name of a test container. *)
Definition looks_like_test (serviceName : string) : Prop :=
  Js.includes "keeper" (toLowerCase serviceName) = true ∨
  Js.includes "e2e" (toLowerCase serviceName) = true ∨
  Js.startsWith "test-" (toLowerCase serviceName) = true ∨
  toLowerCase serviceName = "test".

(** ** Registry login (registryAuth.js) *)

(** The environment variables the login reads and writes; [None] is an
    unset variable. *)
Record auth_env : Type := AuthEnv {
  DOCKER_CONFIG : option string;
  DOCKER_USERNAME : option string;
  REGISTRY_USERNAME : option string;
  DOCKER_PASSWORD : option string;
  REGISTRY_PASSWORD : option string;
  GITHUB_TOKEN : option string;
  GITHUB_ACTOR : option string;
  GITHUB_ACTIONS : option string
}.

(** The truth value of a string that may be undefined. *)
Definition given (v : option string) : bool :=
  match v with
  | Some s => negb (bool_decide (s = ""))
  | None => false
  end.

(** [a || b] *)
Definition or_else (a b : option string) : option string :=
  if given a then a else b.

(** [process.env.DOCKER_CONFIG = value] *)
Definition set_DOCKER_CONFIG (value : string) (env : auth_env) : auth_env :=
  {| DOCKER_CONFIG := Some value;
     DOCKER_USERNAME := DOCKER_USERNAME env;
     REGISTRY_USERNAME := REGISTRY_USERNAME env;
     DOCKER_PASSWORD := DOCKER_PASSWORD env;
     REGISTRY_PASSWORD := REGISTRY_PASSWORD env;
     GITHUB_TOKEN := GITHUB_TOKEN env;
     GITHUB_ACTOR := GITHUB_ACTOR env;
     GITHUB_ACTIONS := GITHUB_ACTIONS env |}.

(** What a login rejects with. *)
Inductive auth_error : Type :=
  | MissingArguments
  | EnsureDirFailed
  | SpawnFailed
  | LoginExited (code : option Z)
  | NoEnvCredentials
  | NoGitHubToken
  | AutoLoginFailed (original : auth_error).

(** The state of the promise a login returns. *)
Inductive settled : Type :=
  | Pending
  | Resolved
  | Rejected (e : auth_error).

(** An event of the child process: [error], or [exit] with its code
    ([None] when a signal ended it). *)
Inductive child_event : Type :=
  | ChildError
  | ChildExit (code : option Z).

(** How [docker] is started: its arguments, what is written to its
    standard input, and the [DOCKER_CONFIG] it sees. *)
Record docker_call : Type := DockerCall {
  call_args : list string;
  call_stdin : string;
  call_config : option string
}.

(** A login as it went: the promise, the environment afterwards, and
    the call of [docker], if it was started. *)
Record login_run : Type := LoginRun {
  run_result : settled;
  run_env : auth_env;
  run_call : option docker_call
}.

(** A promise settles once. *)
Definition settle (now : settled) (next : settled) : settled :=
  match now with
  | Pending => next
  | _ => now
  end.

(** The handlers of [error] and [exit]. *)
Definition on_child_event (ephemeral : bool) (originalDockerConfig : option string)
    (st : settled * auth_env) (ev : child_event) : settled * auth_env :=
  match ev with
  | ChildError => (settle st.1 (Rejected SpawnFailed), st.2)
  | ChildExit code =>
      let env :=
        match originalDockerConfig with
        | Some original => if ephemeral then set_DOCKER_CONFIG original st.2 else st.2
        | None => st.2
        end in
      (settle st.1 (if bool_decide (code = Some 0) then Resolved
                    else Rejected (LoginExited code)),
       env)
  end.

(** [login(registry, username, password, { ephemeral })].
    [tempDockerConfig] is the temporary directory, [None] when it cannot
    be made; [events] are the events of the child process, in order. *)
Definition login (registry username password : option string) (ephemeral : bool)
    (tempDockerConfig : option string) (events : list child_event)
    (env : auth_env) : login_run :=
  match registry, username, password with
  | Some r, Some u, Some p =>
      if given registry && given username && given password then
        let start (env1 : auth_env) :=
          let '(result, env2) :=
            foldl (on_child_event ephemeral (DOCKER_CONFIG env)) (Pending, env1) events in
          {| run_result := result;
             run_env := env2;
             run_call :=
               Some {| call_args := ["login"; r; "--username"; u; "--password-stdin"];
                       call_stdin := p;
                       call_config := DOCKER_CONFIG env1 |} |} in
        if ephemeral then
          match tempDockerConfig with
          | Some temp => start (set_DOCKER_CONFIG temp env)
          | None => {| run_result := Rejected EnsureDirFailed; run_env := env;
                       run_call := None |}
          end
        else start env
      else {| run_result := Rejected MissingArguments; run_env := env; run_call := None |}
  | _, _, _ => {| run_result := Rejected MissingArguments; run_env := env; run_call := None |}
  end.

Definition loginGitHub (token : option string) (ephemeral : bool)
    (tempDockerConfig : option string) (events : list child_event)
    (env : auth_env) : login_run :=
  login (Some "ghcr.io") (Some "USERNAME_PLACEHOLDER") token ephemeral
        tempDockerConfig events env.

Definition loginFromEnv (registry : option string) (ephemeral : bool)
    (tempDockerConfig : option string) (events : list child_event)
    (env : auth_env) : login_run :=
  let username := or_else (DOCKER_USERNAME env) (REGISTRY_USERNAME env) in
  let password := or_else (DOCKER_PASSWORD env) (REGISTRY_PASSWORD env) in
  if given username && given password then
    login registry username password ephemeral tempDockerConfig events env
  else {| run_result := Rejected NoEnvCredentials; run_env := env; run_call := None |}.

(** [loginFromGitHubActions(registry = 'ghcr.io')]: the options are not
    passed on, so the login is never ephemeral. *)
Definition loginFromGitHubActions (registry : option string)
    (tempDockerConfig : option string) (events : list child_event)
    (env : auth_env) : login_run :=
  let token := GITHUB_TOKEN env in
  if given token then
    login (Some (default "ghcr.io" registry))
          (or_else (GITHUB_ACTOR env) (Some "github-actions")) token false
          tempDockerConfig events env
  else {| run_result := Rejected NoGitHubToken; run_env := env; run_call := None |}.

Definition isInGitHubActions (env : auth_env) : bool :=
  bool_decide (GITHUB_ACTIONS env = Some "true").

(** [autoLogin(registry, options)] for a registry that is a string. *)
Definition autoLogin (registry : string) (ephemeral : bool)
    (tempDockerConfig : option string) (events : list child_event)
    (env : auth_env) : login_run :=
  if isInGitHubActions env &&
     (bool_decide (registry = "ghcr.io") || Js.includes "github" registry)
  then loginFromGitHubActions (Some registry) tempDockerConfig events env
  else
    let run := loginFromEnv (Some registry) ephemeral tempDockerConfig events env in
    match run_result run with
    | Rejected e =>
        {| run_result := Rejected (AutoLoginFailed e); run_env := run_env run;
           run_call := run_call run |}
    | _ => run
    end.

(** The child process has exited: its [exit] handler has run. *)
Definition has_exited (events : list child_event) : bool :=
  existsb (fun ev => match ev with ChildExit _ => true | ChildError => false end) events.

(** The login took place under GitHub Actions, for a GitHub registry. *)
Definition github_login (registry : string) (env : auth_env) : Prop :=
  GITHUB_ACTIONS env = Some "true" ∧
  (registry = "ghcr.io" ∨ Js.includes "github" registry = true).

(** A service with a route rule and a port to be auto-assigned. *)
Definition routed_service : service :=
  {| image := Some "api"; tag := None; ports := None; port := Some 3000;
     autoPort := None; environment := None; volumes := None; command := None;
     healthcheck := None; depends_on := None; dependencyGroups := None;
     routes := Some [{| methods := None; paths := Some ["/api/todos/*"] |}] |}.

Definition spec_routed : spec :=
  {| portRange_start := None; dependencies := None;
     services := [("todo", routed_service)] |}.





(** The upstream block of a service. *)
Definition upstream_block (name : string) (svc : gateway_service) : string :=
  "upstream " +:+ name +:+ "_upstream {" +:+ Js.nl +:+
  "    server " +:+ name +:+ ":" +:+
  Js.of_num (extractContainerPort (g_ports svc)) +:+ ";" +:+ Js.nl +:+
  "}".

(** The fallback location of a service, under its name. *)
Definition fallback_location (name : string) : string :=
  "    location /" +:+ name +:+ "/ {" +:+ Js.nl +:+
  "        proxy_pass http://" +:+ name +:+ "_upstream/;" +:+ Js.nl +:+
  proxy_headers +:+ "    }".

(** ** Compose commands (composeInvoker.js) *)

(** The compose command found on the machine. *)
Record compose_cli : Type := ComposeCli {
  cli_command : string;
  cli_args : list string
}.

(** What the machine has: [which docker] resolves; [docker compose
    --version] exits with code 0 in time; [which docker-compose]
    resolves. *)
Record tools : Type := Tools {
  has_docker : bool;
  has_compose_plugin : bool;
  has_docker_compose : bool
}.

(** A look at the machine. *)
Inductive probe : Type :=
  | WhichDocker
  | ComposeVersion
  | WhichDockerCompose.

Inductive invoke_error : Type :=
  | ComposeFileNotFound (composeFile : string)
  | NoComposeCommand.

(** A call of the invoker as it went: the command found or the error
    thrown, the value of [this.dockerComposeCli] afterwards, and the
    looks at the machine, in order. *)
Record detection (A : Type) : Type := Detection {
  found : A + invoke_error;
  cache : option compose_cli;
  probes : list probe
}.
Arguments Detection {A} found cache probes.
Arguments found {A} d.
Arguments cache {A} d.
Arguments probes {A} d.

(** The second attempt of [detectDockerCompose]: [docker-compose]. *)
Definition detect_v1 (t : tools) (looked : list probe) : detection compose_cli :=
  if has_docker_compose t then
    {| found := inl (ComposeCli "docker-compose" []);
       cache := Some (ComposeCli "docker-compose" []);
       probes := looked ++ [WhichDockerCompose] |}
  else
    {| found := inr NoComposeCommand; cache := None;
       probes := looked ++ [WhichDockerCompose] |}.

(** [detectDockerCompose()], [cached] being [this.dockerComposeCli]. *)
Definition detectDockerCompose (cached : option compose_cli) (t : tools)
    : detection compose_cli :=
  match cached with
  | Some cli => {| found := inl cli; cache := cached; probes := [] |}
  | None =>
      if has_docker t then
        if has_compose_plugin t then
          {| found := inl (ComposeCli "docker" ["compose"]);
             cache := Some (ComposeCli "docker" ["compose"]);
             probes := [WhichDocker; ComposeVersion] |}
        else detect_v1 t [WhichDocker; ComposeVersion]
      else detect_v1 t [WhichDocker]
  end.

(** The process a command starts. *)
Record invocation : Type := Invocation {
  inv_command : string;
  inv_args : list string;
  inv_stdio : string
}.

(** The steps every command begins with: [validateComposeFile], which
    throws when the file cannot be accessed, then [detectDockerCompose],
    then [execCommand] with [-f composeFile] and the command's own
    arguments after the arguments of the compose command. *)
Definition compose_command (accessible : bool) (cached : option compose_cli) (t : tools)
    (composeFile : string) (args : list string) (stdio : string)
    : detection invocation :=
  if accessible then
    let d := detectDockerCompose cached t in
    {| found :=
         match found d with
         | inl cli =>
             inl {| inv_command := cli_command cli;
                    inv_args := cli_args cli ++ ["-f"; composeFile] ++ args;
                    inv_stdio := stdio |}
         | inr e => inr e
         end;
       cache := cache d;
       probes := probes d |}
  else {| found := inr (ComposeFileNotFound composeFile); cache := cached; probes := [] |}.

(** [args.push(flag)] under a condition. *)
Definition flag_if (condition : bool) (flags : list string) : list string :=
  if condition then flags else [].

Definition up (accessible : bool) (cached : option compose_cli) (t : tools)
    (composeFile : string) (detached pull : bool) : detection invocation :=
  compose_command accessible cached t composeFile
    (["up"] ++ flag_if detached ["-d"] ++ flag_if pull ["--pull"; "missing"] ++
     ["--remove-orphans"])
    (if detached then "pipe" else "inherit").

Definition down (accessible : bool) (cached : option compose_cli) (t : tools)
    (composeFile : string) (removeVolumes removeImages : bool) : detection invocation :=
  compose_command accessible cached t composeFile
    (["down"] ++ flag_if removeVolumes ["-v"] ++ flag_if removeImages ["--rmi"; "all"])
    "inherit".

Definition pull (accessible : bool) (cached : option compose_cli) (t : tools)
    (composeFile : string) : detection invocation :=
  compose_command accessible cached t composeFile ["pull"] "inherit".

(** [logs]: [tail] and [service] are strings, left out when empty or
    not given. *)
Definition logs (accessible : bool) (cached : option compose_cli) (t : tools)
    (composeFile : string) (follow : bool) (tail : option string) (timestamps : bool)
    (service_name : option string) : detection invocation :=
  compose_command accessible cached t composeFile
    (["logs"] ++ flag_if follow ["-f"] ++
     flag_if (given tail) ["--tail"; default "" tail] ++
     flag_if timestamps ["--timestamps"] ++
     flag_if (given service_name) [default "" service_name])
    "inherit".

Definition ps (accessible : bool) (cached : option compose_cli) (t : tools)
    (composeFile : string) : detection invocation :=
  compose_command accessible cached t composeFile ["ps"] "inherit".

(** ** The [up] command of the CLI (cli.js) *)

(** A candidate for the source directory: not a directory (or its
    status cannot be read), or a directory with its listing, [None] when
    listing it throws. *)
Inductive candidate : Type :=
  | NotADirectory
  | Directory (listing : option (list string)).

(** The first candidate that is a directory, as [detectTestContainers]
    then finds it. *)
Fixpoint source_of (possibleSourceDirs : list candidate) : source_path :=
  match possibleSourceDirs with
  | [] => NoSourcePath
  | NotADirectory :: rest => source_of rest
  | Directory (Some files) :: _ => SourceDirectory files
  | Directory None :: _ => SourceUnreadable
  end.

(** How the action ends: it returns, it exits with a code, or the wait
    goes on beyond the polls observed. *)
Inductive cli_outcome : Type :=
  | CliDone
  | CliExit (code : Z)
  | CliWaiting.

(** The action of [up].  [started] says that [composeInvoker.up]
    resolved (a failure of the pull before it only gives a warning);
    the candidates are [test-env], [services] and the directory of the
    compose file; the wait runs with its default timeout. *)
Definition cli_up (started : bool) (possibleSourceDirs : list candidate)
    (composeServices : option (list string)) (observed : list (Z * poll))
    : cli_outcome :=
  if started then
    match detectTestContainers composeServices (source_of possibleSourceDirs) with
    | [] => CliDone
    | testContainers =>
        match returned (waitForTestContainers 600000 testContainers observed) with
        | Some true => CliDone
        | Some false => CliExit 1
        | None => CliWaiting
        end
    end
  else CliExit 3.

(** * Properties *)

(** ** Objects *)

Section ObjectFacts.
Context {A : Type}.
Implicit Types (o : list (string * A)) (k : string) (v : A).

Lemma obj_get_set_eq k v o : obj_get k (obj_set k v o) = Some v.
Proof.
  induction o as [|[k' v'] o IH]; simpl.
  - by rewrite bool_decide_true.
  - case_bool_decide as Hk; simpl.
    + by rewrite bool_decide_true.
    + by rewrite bool_decide_false.
Qed.

Lemma obj_get_set_ne k k' v o : k ≠ k' -> obj_get k' (obj_set k v o) = obj_get k' o.
Proof.
  intros Hne. induction o as [|[k1 v1] o IH]; simpl.
  - by rewrite bool_decide_false.
  - case_bool_decide as Hk; simpl.
    + subst k1. by rewrite !bool_decide_false.
    + by rewrite IH.
Qed.

Lemma obj_get_None k o : obj_get k o = None <-> k ∉ obj_keys o.
Proof.
  unfold obj_keys. induction o as [|[k' v'] o IH]; simpl.
  - split; [intros _; apply not_elem_of_nil | done].
  - case_bool_decide as Hk.
    + subst k'. split; [done | intros []; left].
    + rewrite IH, not_elem_of_cons. naive_solver.
Qed.

Lemma obj_get_is_Some k o : is_Some (obj_get k o) <-> k ∈ obj_keys o.
Proof.
  destruct (decide (k ∈ obj_keys o)) as [Hin|Hout].
  - split; [done|]. intros _. destruct (obj_get k o) eqn:E; [done|].
    by apply obj_get_None in E.
  - apply obj_get_None in Hout as E. rewrite E. split; [by intros [??]|done].
Qed.

Lemma obj_get_elem_of k v o : obj_get k o = Some v -> (k, v) ∈ o.
Proof.
  induction o as [|[k' v'] o IH]; simpl; [done|].
  case_bool_decide as Hk.
  - intros [= ->]. subst. left.
  - intros H. right. by apply IH.
Qed.

Lemma obj_get_NoDup k v o : NoDup (obj_keys o) -> (k, v) ∈ o -> obj_get k o = Some v.
Proof.
  unfold obj_keys. induction o as [|[k' v'] o IH]; simpl.
  - intros _ H. by apply elem_of_nil in H.
  - intros [Hk' Hnd]%NoDup_cons [Heq|Hin]%elem_of_cons.
    + injection Heq as -> ->. by rewrite bool_decide_true.
    + case_bool_decide as Hk; [|by apply IH].
      subst k'. destruct Hk'. apply list_elem_of_fmap. by exists (k, v).
Qed.

Lemma obj_keys_set_in k v o : k ∈ obj_keys o -> obj_keys (obj_set k v o) = obj_keys o.
Proof.
  unfold obj_keys. induction o as [|[k' v'] o IH]; simpl.
  - intros H. by apply elem_of_nil in H.
  - intros Hin. case_bool_decide as Hk; simpl; [by subst|].
    f_equal. apply IH. apply elem_of_cons in Hin as [|]; [congruence|done].
Qed.

Lemma obj_keys_set_out k v o : k ∉ obj_keys o -> obj_keys (obj_set k v o) = obj_keys o ++ [k].
Proof.
  unfold obj_keys. induction o as [|[k' v'] o IH]; simpl; [done|].
  intros [Hne Hout]%not_elem_of_cons. rewrite bool_decide_false by done.
  simpl. f_equal. by apply IH.
Qed.

Lemma obj_keys_set_elem k k' v o :
  k' ∈ obj_keys (obj_set k v o) <-> k' = k ∨ k' ∈ obj_keys o.
Proof.
  destruct (decide (k ∈ obj_keys o)) as [Hin|Hout].
  - rewrite obj_keys_set_in by done. naive_solver.
  - rewrite obj_keys_set_out by done. rewrite elem_of_app, list_elem_of_singleton.
    naive_solver.
Qed.

Lemma obj_keys_set_NoDup k v o : NoDup (obj_keys o) -> NoDup (obj_keys (obj_set k v o)).
Proof.
  intros Hnd. destruct (decide (k ∈ obj_keys o)) as [Hin|Hout].
  - by rewrite obj_keys_set_in.
  - rewrite obj_keys_set_out by done. apply NoDup_app. split; [done|].
    split; [|apply NoDup_singleton].
    intros x Hx ->%list_elem_of_singleton. done.
Qed.

End ObjectFacts.

(** ** Host ports *)

Lemma skip_used_spec fuel (used : gset Z) (p : Z) :
  (size (filter (fun x => (p ≤ x)%Z) used) < fuel)%nat ->
  first_free_from used p (skip_used fuel used p).
Proof.
  revert p. induction fuel as [|fuel IH]; intros p Hsz; [lia|].
  simpl. case_bool_decide as Hin.
  - destruct (IH (p + 1)) as (Hle & Hout & Hbelow).
    + assert (filter (fun x => p + 1 ≤ x) used ⊂ filter (fun x => p ≤ x) used) as Hsub.
      { apply strict_spec_alt. split.
        - intros x [Hx ?]%elem_of_filter. apply elem_of_filter. split; [lia|done].
        - intros Heq. assert (p ∈ filter (fun x => p + 1 ≤ x) used) as Hp.
          { rewrite Heq. apply elem_of_filter. split; [lia|done]. }
          apply elem_of_filter in Hp as [? _]. lia. }
      apply subset_size in Hsub. lia.
    + split; [lia|]. split; [done|].
      intros q Hq. destruct (decide (q = p)) as [->|]; [done|]. apply Hbelow. lia.
  - split; [lia|]. split; [done|]. intros q Hq. lia.
Qed.

Lemma first_free_spec (used : gset Z) (p : Z) : first_free_from used p (first_free used p).
Proof.
  apply skip_used_spec.
  assert (size (filter (fun x => (p ≤ x)%Z) used) ≤ size used)%nat; [|lia].
  apply subseteq_size. intros x [_ ?]%elem_of_filter. done.
Qed.

Lemma first_free_from_unique (used : gset Z) (p h h' : Z) :
  first_free_from used p h -> first_free_from used p h' -> h = h'.
Proof.
  intros (H1 & H2 & H3) (H1' & H2' & H3').
  destruct (Z.lt_trichotomy h h') as [Hlt|[->|Hlt]]; [|done|].
  - destruct H2. apply H3'. lia.
  - destruct H2'. apply H3. lia.
Qed.

Lemma track_ports_spec (used : gset Z) mappings (h : Z) :
  h ∈ track_ports used mappings <->
  h ∈ used ∨ ∃ m, m ∈ mappings ∧ host_port m = Some h.
Proof.
  unfold track_ports. revert used.
  induction mappings as [|m ms IH]; intros used; simpl.
  - split; [by left|]. intros [?|(m & Hm & _)]; [done|]. by apply elem_of_nil in Hm.
  - rewrite IH. split.
    + intros [Hin|(m' & Hm' & Hh)].
      * destruct (host_port m) as [h'|] eqn:E; [|by left].
        apply elem_of_union in Hin as [->%elem_of_singleton|Hin]; [|by left].
        right. exists m. split; [left|done].
      * right. exists m'. split; [by right|done].
    + intros [Hin|(m' & Hm' & Hh)].
      * left. destruct (host_port m); [set_solver|done].
      * apply elem_of_cons in Hm' as [->|Hm'].
        -- left. rewrite Hh. set_solver.
        -- right. by exists m'.
Qed.

(** ** The loop over the services *)

Lemma compile_entry_compiled deps st name s :
  compiled (compile_entry deps st (name, s)) =
  obj_set name (convertServiceToCompose s deps (used_ports st) (next_port st)).1
          (compiled st).
Proof.
  unfold compile_entry.
  by destruct (convertServiceToCompose s deps (used_ports st) (next_port st)).
Qed.

Lemma compile_entry_used deps st name s :
  used_ports (compile_entry deps st (name, s)) =
  (convertServiceToCompose s deps (used_ports st) (next_port st)).2.
Proof.
  unfold compile_entry.
  by destruct (convertServiceToCompose s deps (used_ports st) (next_port st)).
Qed.

Lemma compile_entry_next deps st name s :
  next_port (compile_entry deps st (name, s)) =
  if bool_decide (autoPort s = Some false) then next_port st
  else first_free (used_ports (compile_entry deps st (name, s))) (next_port st + 1).
Proof.
  unfold compile_entry.
  by destruct (convertServiceToCompose s deps (used_ports st) (next_port st)).
Qed.

Lemma compiled_foldl_other deps l st name :
  name ∉ l.*1 ->
  obj_get name (compiled (foldl (compile_entry deps) st l)) = obj_get name (compiled st).
Proof.
  revert st. induction l as [|[n s] l IH]; intros st Hout; [done|].
  rewrite fmap_cons in Hout. apply not_elem_of_cons in Hout as [Hne Hout].
  cbn [foldl]. rewrite IH by done. rewrite compile_entry_compiled.
  by apply obj_get_set_ne.
Qed.

Lemma compiled_foldl_keys deps l st name :
  name ∈ obj_keys (compiled (foldl (compile_entry deps) st l)) <->
  name ∈ obj_keys (compiled st) ∨ name ∈ l.*1.
Proof.
  revert st. induction l as [|[n s] l IH]; intros st.
  - cbn. rewrite elem_of_nil. naive_solver.
  - cbn [foldl]. rewrite fmap_cons, IH, compile_entry_compiled.
    rewrite obj_keys_set_elem, elem_of_cons. cbn. naive_solver.
Qed.

(** Every compiled entry is what [convertServiceToCompose] makes of a
    service of the specification. *)
Lemma compiled_foldl_origin deps l st name c :
  obj_get name (compiled (foldl (compile_entry deps) st l)) = Some c ->
  obj_get name (compiled st) = Some c ∨
  ∃ s used cur, (name, s) ∈ l ∧ c = (convertServiceToCompose s deps used cur).1.
Proof.
  revert st. induction l as [|[n s] l IH]; intros st; [by left|].
  cbn [foldl]. intros H. apply IH in H as [H|(s' & used & cur & Hin & ->)].
  - rewrite compile_entry_compiled in H.
    destruct (decide (n = name)) as [->|Hne].
    + rewrite obj_get_set_eq in H. injection H as <-.
      right. eexists s, _, _. split; [left|done].
    + rewrite obj_get_set_ne in H by done. by left.
  - right. exists s', used, cur. split; [by right|done].
Qed.

Lemma compile_services_origin sp name c :
  obj_get name (compiled (compile_services sp)) = Some c ->
  ∃ s used cur, (name, s) ∈ services sp ∧
    c = (convertServiceToCompose s (from_option id [] (dependencies sp)) used cur).1.
Proof.
  intros H. apply compiled_foldl_origin in H as [H|H]; [done|done].
Qed.

Lemma compile_services_at sp done name s rest :
  services sp = done ++ (name, s) :: rest ->
  name ∉ rest.*1 ->
  obj_get name (compiled (compile_services sp)) =
  Some (convertServiceToCompose s (from_option id [] (dependencies sp))
          (used_ports (state_after sp done)) (next_port (state_after sp done))).1.
Proof.
  intros Hsp Hout. unfold compile_services, state_after. rewrite Hsp.
  rewrite foldl_app. cbn [foldl]. rewrite compiled_foldl_other by done.
  rewrite compile_entry_compiled. apply obj_get_set_eq.
Qed.

Lemma convert_explicit_ports s deps used cur mappings :
  ports s = Some mappings ->
  c_ports (convertServiceToCompose s deps used cur).1 = Some mappings ∧
  (convertServiceToCompose s deps used cur).2 = track_ports used mappings.
Proof. intros H. unfold convertServiceToCompose. by rewrite H. Qed.

Lemma convert_auto_port s deps used cur p :
  ports s = None -> port s = Some p -> p ≠ 0 -> autoPort s ≠ Some false ->
  c_ports (convertServiceToCompose s deps used cur).1 =
    Some [Js.of_num (first_free used cur) +:+ ":" +:+ Js.of_num p] ∧
  (convertServiceToCompose s deps used cur).2 = {[first_free used cur]} ∪ used.
Proof.
  intros Hports Hport Hp Hauto. unfold convertServiceToCompose, wants_auto_port.
  rewrite Hports, Hport.
  destruct (Z.eqb_spec p 0) as [|_]; [done|]. simpl.
  by rewrite bool_decide_false.
Qed.

Lemma convert_no_port s deps used cur :
  ports s = None -> wants_auto_port s = None ->
  c_ports (convertServiceToCompose s deps used cur).1 = None ∧
  (convertServiceToCompose s deps used cur).2 = used.
Proof. intros Hports Hw. unfold convertServiceToCompose. by rewrite Hports, Hw. Qed.

(** ** C1: automatic host ports *)

(** C1, as stated, fails: a service with [autoPort: false] leaves the
    cursor where it was.  In [spec_no_auto] the cursor is still 3000
    after service [a], not the next free port above it, and [b] is bound
    to host port 3000. *)
Lemma autoPort_false_keeps_cursor :
  next_port (state_after spec_no_auto [("a", no_auto_service)]) = 3000 ∧
  next_port (state_after spec_no_auto [("a", no_auto_service)]) ≠
    first_free (used_ports (state_after spec_no_auto [("a", no_auto_service)]))
               (next_port (state_after spec_no_auto []) + 1) ∧
  c_ports <$> obj_get "b" (compiled (compile_services spec_no_auto)) =
    Some (Some ["3000:80"]).
Proof. by vm_compute. Qed.

(** C1 (amended): services are compiled in specification order, each
    against the used ports and the cursor its predecessors leave, the
    cursor starting at [portRange.start] (3000 when absent); explicit
    [ports] are kept verbatim and their host sides recorded as used; a
    service with a [port] and auto-assignment not disabled gets the first
    port at or above the cursor that is not used; after a service whose
    [autoPort] is not [false] the cursor is the first unused port above
    its old value, and after a service with [autoPort: false] it is
    unchanged.  Two services with one auto port each, from 3000, get
    3000 and 3001. *)
Theorem auto_port_assignment (sp : spec) :
  let deps := from_option id [] (dependencies sp) in
  (next_port (state_after sp []) =
     match portRange_start sp with
     | Some start => if start =? 0 then 3000 else start
     | None => 3000
     end ∧ used_ports (state_after sp []) = ∅) ∧
  (∀ done name s rest,
     services sp = done ++ (name, s) :: rest -> name ∉ rest.*1 ->
     obj_get name (compiled (compile_services sp)) =
       Some (convertServiceToCompose s deps (used_ports (state_after sp done))
               (next_port (state_after sp done))).1 ∧
     state_after sp (done ++ [(name, s)]) =
       compile_entry deps (state_after sp done) (name, s)) ∧
  (∀ s used cur mappings,
     ports s = Some mappings ->
     c_ports (convertServiceToCompose s deps used cur).1 = Some mappings ∧
     ∀ h, h ∈ (convertServiceToCompose s deps used cur).2 <->
          h ∈ used ∨ ∃ m, m ∈ mappings ∧ host_port m = Some h) ∧
  (∀ s used cur p,
     ports s = None -> port s = Some p -> p ≠ 0 -> autoPort s ≠ Some false ->
     ∃ h, first_free_from used cur h ∧
          c_ports (convertServiceToCompose s deps used cur).1 =
            Some [Js.of_num h +:+ ":" +:+ Js.of_num p] ∧
          (convertServiceToCompose s deps used cur).2 = {[h]} ∪ used) ∧
  (∀ st name s,
     (autoPort s ≠ Some false ->
      first_free_from (used_ports (compile_entry deps st (name, s)))
        (next_port st + 1) (next_port (compile_entry deps st (name, s)))) ∧
     (autoPort s = Some false ->
      next_port (compile_entry deps st (name, s)) = next_port st)) ∧
  (∀ n1 n2 s1 s2 p1 p2,
     services sp = [(n1, s1); (n2, s2)] -> n1 ≠ n2 ->
     portRange_start sp = None ∨ portRange_start sp = Some 3000 ->
     ports s1 = None -> port s1 = Some p1 -> p1 ≠ 0 -> autoPort s1 ≠ Some false ->
     ports s2 = None -> port s2 = Some p2 -> p2 ≠ 0 -> autoPort s2 ≠ Some false ->
     c_ports <$> obj_get n1 (compiled (compile_services sp)) =
       Some (Some ["3000:" +:+ Js.of_num p1]) ∧
     c_ports <$> obj_get n2 (compiled (compile_services sp)) =
       Some (Some ["3001:" +:+ Js.of_num p2])).
Proof.
  intros deps.
  split; [done|].
  split.
  { intros done name s rest Hsp Hout. split; [by apply (compile_services_at sp done name s rest)|].
    unfold state_after. by rewrite foldl_app. }
  split.
  { intros s used cur mappings Hports.
    destruct (convert_explicit_ports s deps used cur mappings Hports) as [Hc Hu].
    split; [done|]. intros h. rewrite Hu. apply track_ports_spec. }
  split.
  { intros s used cur p Hports Hport Hp Hauto.
    exists (first_free used cur). split; [apply first_free_spec|].
    by apply convert_auto_port. }
  split.
  { intros st name s. split; intros Hauto.
    - rewrite compile_entry_next, bool_decide_false by done. apply first_free_spec.
    - by rewrite compile_entry_next, bool_decide_true. }
  intros n1 n2 s1 s2 p1 p2 Hsp Hne Hstart Hports1 Hport1 Hp1 Hauto1
    Hports2 Hport2 Hp2 Hauto2.
  assert (initial_port sp = 3000) as Hinit.
  { unfold initial_port. by destruct Hstart as [-> | ->]. }
  destruct (convert_auto_port s1 deps ∅ 3000 p1) as [Hc1 Hu1]; [done..|].
  assert (first_free (∅ : gset Z) 3000 = 3000) as Hf1 by by vm_compute.
  assert (first_free ({[3000]} ∪ ∅ : gset Z) (3000 + 1) = 3001) as Hf2 by by vm_compute.
  rewrite Hf1 in Hc1, Hu1.
  split.
  - rewrite (compile_services_at sp [] n1 s1 [(n2, s2)]); [|done|].
    2:{ cbn. by intros ->%list_elem_of_singleton. }
    unfold state_after. cbn [foldl initial_state used_ports next_port].
    rewrite Hinit. fold deps. cbn [fmap option_fmap option_map]. by rewrite Hc1.
  - rewrite (compile_services_at sp [(n1, s1)] n2 s2 []); [|done|].
    2:{ cbn. apply not_elem_of_nil. }
    unfold state_after. cbn [foldl]. fold deps.
    rewrite compile_entry_next, compile_entry_used, bool_decide_false by done.
    cbn [initial_state used_ports next_port]. rewrite Hinit, Hu1, Hf2.
    destruct (convert_auto_port s2 deps ({[3000]} ∪ ∅) 3001 p2)
      as [Hc2 _]; [done..|].
    assert (first_free ({[3000]} ∪ ∅ : gset Z) 3001 = 3001) as Hf3 by by vm_compute.
    rewrite Hf3 in Hc2.
    cbn [fmap option_fmap option_map]. by rewrite Hc2.
Qed.

(** ** C2: the dependencies of a compiled service *)

Lemma set_elements_spec (seen l : list string) (x : string) :
  x ∈ set_elements seen l <-> x ∈ l ∧ x ∉ seen.
Proof.
  revert seen. induction l as [|y l IH]; intros seen; simpl.
  - rewrite elem_of_nil. naive_solver.
  - case_bool_decide as Hy.
    + rewrite IH, elem_of_cons. naive_solver.
    + rewrite !elem_of_cons, IH, not_elem_of_cons.
      destruct (decide (x = y)); naive_solver.
Qed.

Lemma set_elements_NoDup seen l : NoDup (set_elements seen l).
Proof.
  revert seen. induction l as [|y l IH]; intros seen; simpl; [constructor|].
  case_bool_decide as Hy; [apply IH|].
  constructor; [|apply IH].
  rewrite set_elements_spec, not_elem_of_cons. naive_solver.
Qed.

Lemma set_elements_sublist seen l : set_elements seen l `sublist_of` l.
Proof.
  revert seen. induction l as [|y l IH]; intros seen; simpl; [done|].
  case_bool_decide; [by apply sublist_cons|by apply sublist_skip].
Qed.







(** ** C3: the gateway waits for every compiled service *)

Lemma gatewayDependsOn_fold entries names acc name :
  obj_get name
    (foldl (fun deps n =>
              match obj_get n entries with
              | Some c => obj_set n (gateway_condition c) deps
              | None => deps
              end) acc names) =
  match obj_get name entries with
  | Some c => if bool_decide (name ∈ names) then Some (gateway_condition c)
              else obj_get name acc
  | None => obj_get name acc
  end.
Proof.
  revert acc. induction names as [|n names IH]; intros acc; cbn [foldl].
  - rewrite bool_decide_false by apply not_elem_of_nil. by destruct (obj_get name entries).
  - rewrite IH. destruct (obj_get name entries) as [c|] eqn:Hc.
    + destruct (decide (name ∈ names)) as [Hin|Hout].
      * rewrite !bool_decide_true; [done|by right|done].
      * rewrite (bool_decide_false _ Hout).
        destruct (decide (n = name)) as [->|Hne].
        -- rewrite Hc, obj_get_set_eq. rewrite bool_decide_true; [done|left].
        -- rewrite bool_decide_false by (rewrite elem_of_cons; naive_solver).
           destruct (obj_get n entries); [by apply obj_get_set_ne|done].
    + destruct (decide (n = name)) as [->|Hne]; [by rewrite Hc|].
      destruct (obj_get n entries); [by apply obj_get_set_ne|done].
Qed.

Lemma gatewayDependsOn_get entries name :
  obj_get name (gatewayDependsOn entries) = gateway_condition <$> obj_get name entries.
Proof.
  unfold gatewayDependsOn. rewrite gatewayDependsOn_fold.
  destruct (obj_get name entries) as [c|] eqn:Hc; [|done].
  rewrite bool_decide_true; [done|]. apply obj_get_is_Some. by rewrite Hc.
Qed.

Lemma convert_healthcheck s deps used cur :
  c_healthcheck (convertServiceToCompose s deps used cur).1 =
  keep_if_present (healthcheck s).
Proof.
  unfold convertServiceToCompose.
  destruct (ports s); [|destruct (wants_auto_port s)]; done.
Qed.

Lemma present_keep_if_present v :
  present (keep_if_present v) = bool_decide (is_Some (keep_if_present v)).
Proof.
  unfold keep_if_present. destruct (present v) eqn:E.
  - rewrite E. destruct v; [|done]. by rewrite bool_decide_true.
  - by rewrite bool_decide_false by by intros [??].
Qed.

Lemma compile_services_keys sp name :
  name ∈ obj_keys (compiled (compile_services sp)) <-> name ∈ (services sp).*1.
Proof.
  unfold compile_services. rewrite compiled_foldl_keys. cbn.
  rewrite elem_of_nil. naive_solver.
Qed.

(** C3: with the gateway enabled and at least one service, the entry
    [xq-gateway] has a long-form [depends_on] with exactly the compiled
    services as keys, each with condition [service_healthy] when the
    compiled entry carries a healthcheck and [service_started] when it
    does not; every service of the specification is among them, and
    the entries of the other services are left as compiled. *)
Theorem gateway_depends_on_every_service (nginxConfigPath : string) (sp : spec) :
  services sp ≠ [] ->
  ∃ gw,
    obj_get gateway_name
      (compose_services (generateComposeObject nginxConfigPath sp true).1) = Some gw ∧
    (∀ name, name ∈ depends_names (c_depends_on gw) <->
             name ∈ obj_keys (compiled (compile_services sp))) ∧
    (∀ name, name ∈ (services sp).*1 -> name ∈ depends_names (c_depends_on gw)) ∧
    (∀ name c,
       obj_get name (compiled (compile_services sp)) = Some c ->
       wait_condition (c_depends_on gw) name =
         Some (match c_healthcheck c with
               | Some _ => "service_healthy"
               | None => "service_started"
               end) ∧
       (name ≠ gateway_name ->
        obj_get name
          (compose_services (generateComposeObject nginxConfigPath sp true).1) = Some c)).
Proof.
  intros Hne.
  assert (0 < length (obj_keys (compiled (compile_services sp))))%nat as Hlen.
  { destruct (services sp) as [|[n s] l] eqn:Hs; [done|].
    assert (n ∈ obj_keys (compiled (compile_services sp))) as Hin.
    { apply compile_services_keys. rewrite Hs. left. }
    destruct (obj_keys (compiled (compile_services sp))); [by apply elem_of_nil in Hin|].
    simpl. lia. }
  unfold generateComposeObject, addGateway. cbn [andb].
  rewrite bool_decide_true by done. cbn [fst compose_services].
  eexists. split; [apply obj_get_set_eq|]. cbn [c_depends_on depends_names wait_condition].
  split; [|split].
  - intros name. rewrite <- !obj_get_is_Some, gatewayDependsOn_get.
    by rewrite fmap_is_Some.
  - intros name Hin. apply obj_get_is_Some. rewrite gatewayDependsOn_get, fmap_is_Some.
    by apply obj_get_is_Some, compile_services_keys.
  - intros name c Hc. split.
    + rewrite gatewayDependsOn_get, Hc. cbn. f_equal.
      apply compile_services_origin in Hc as (s & used & cur & _ & ->).
      unfold gateway_condition. rewrite convert_healthcheck, present_keep_if_present.
      destruct (keep_if_present (healthcheck s)).
      * by rewrite bool_decide_true.
      * by rewrite bool_decide_false by by intros [??].
    + intros Hname. rewrite obj_get_set_ne by done. done.
Qed.

Lemma gateway_depends_on_every_service_witness :
  services spec_api_db ≠ [] ∧
  ∃ gw,
    obj_get gateway_name
      (compose_services
         (generateComposeObject "/work/nginx-gateway.conf" spec_api_db true).1) = Some gw ∧
    wait_condition (c_depends_on gw) "db" = Some "service_healthy" ∧
    wait_condition (c_depends_on gw) "api" = Some "service_started".
Proof.
  split; [done|].
  destruct (gateway_depends_on_every_service "/work/nginx-gateway.conf" spec_api_db)
    as (gw & Hgw & _ & _ & Hcond); [done|].
  exists gw. split; [done|]. split.
  - destruct (obj_get "db" (compiled (compile_services spec_api_db)))
      as [c|] eqn:E; [|by vm_compute in E].
    destruct (Hcond "db" c E) as [-> _].
    vm_compute in E. by injection E as <-.
  - destruct (obj_get "api" (compiled (compile_services spec_api_db)))
      as [c|] eqn:E; [|by vm_compute in E].
    destruct (Hcond "api" c E) as [-> _].
    vm_compute in E. by injection E as <-.
Defined.

(** ** Dependency validation *)

Section Validation.
Variable svcs : list (string * service).

Lemma has_property_nodes name :
  has_property name svcs = true <-> name ∈ nodes svcs.
Proof.
  unfold has_property, nodes. rewrite elem_of_list_to_set, elem_of_app.
  rewrite orb_true_iff, !bool_decide_eq_true, obj_get_is_Some. done.
Qed.

Lemma edge_declared u v : edge svcs u v -> is_Some (obj_get u svcs).
Proof.
  unfold edge, deps_of. destruct (obj_get u svcs); [done|].
  intros H. by apply elem_of_nil in H.
Qed.

Lemma size_list_to_set_le (l : list string) :
  (size (list_to_set l : gset string) ≤ length l)%nat.
Proof.
  induction l as [|x l IH].
  - by rewrite list_to_set_nil, size_empty.
  - rewrite list_to_set_cons, size_union_alt, size_singleton. cbn [length].
    assert (size (list_to_set l ∖ {[x]} : gset string) ≤ size (list_to_set l : gset string))%nat.
    { apply subseteq_size. set_solver. }
    lia.
Qed.

Lemma nodes_size : (size (nodes svcs) < dfs_fuel svcs)%nat.
Proof.
  unfold nodes, dfs_fuel.
  pose proof (size_list_to_set_le (obj_keys svcs ++ object_prototype_names)) as H.
  rewrite length_app in H.
  assert (length (obj_keys svcs) = length svcs) as Hlen by apply length_fmap.
  lia.
Qed.

Lemma unvisited_mono (V V' : gset string) :
  V ⊆ V' -> (size (nodes svcs ∖ V') ≤ size (nodes svcs ∖ V))%nat.
Proof. intros H. apply subseteq_size. set_solver. Qed.

Lemma unvisited_visit (V : gset string) name :
  name ∈ nodes svcs -> name ∉ V ->
  (size (nodes svcs ∖ ({[name]} ∪ V)) < size (nodes svcs ∖ V))%nat.
Proof.
  intros Hin Hout. apply subset_size. apply strict_spec_alt. split; [set_solver|].
  intros Heq. assert (name ∈ nodes svcs ∖ V) as H by set_solver.
  rewrite <- Heq in H. set_solver.
Qed.

(** A set closed under [edge] is closed under reachability. *)
Lemma finished_reach st u v :
  dfs_inv svcs st -> u ∈ finished st -> rtc (edge svcs) u v -> v ∈ finished st.
Proof.
  intros Hinv Hu Hreach. induction Hreach as [|x y z Hxy _ IH]; [done|].
  apply IH. by apply (inv_closed _ _ Hinv x y).
Qed.

(** Marking a new name leaves the finished names as they were. *)
Lemma dfs_inv_enter st name :
  dfs_inv svcs st -> name ∉ visited st ->
  dfs_inv svcs {| visited := {[name]} ∪ visited st;
                  recursionStack := {[name]} ∪ recursionStack st |}.
Proof.
  intros [Hs Hc Ha] Hnew.
  assert (∀ u, u ∈ finished {| visited := {[name]} ∪ visited st;
                               recursionStack := {[name]} ∪ recursionStack st |}
               <-> u ∈ finished st) as Hfin.
  { intros u. unfold finished. cbn. set_solver. }
  split.
  - cbn. set_solver.
  - intros u v Hu Huv. apply Hfin in Hu. destruct (Hc u v Hu Huv) as [? ?].
    split; [done|]. by apply Hfin.
  - intros u Hu. apply Ha. by apply Hfin.
Qed.

(** Leaving a name whose dependencies are all finished. *)
Lemma dfs_inv_leave st name :
  dfs_inv svcs st -> name ∈ recursionStack st ->
  (∀ d, edge svcs name d -> has_property d svcs = true ∧ d ∈ finished st) ->
  dfs_inv svcs {| visited := visited st;
                  recursionStack := recursionStack st ∖ {[name]} |}.
Proof.
  intros Hinv Hname Hdeps. pose proof Hinv as [Hs Hc Ha].
  assert (∀ u, u ∈ finished {| visited := visited st;
                               recursionStack := recursionStack st ∖ {[name]} |}
               <-> u = name ∨ u ∈ finished st) as Hfin.
  { intros u. unfold finished. cbn.
    destruct (decide (u = name)) as [->|]; set_solver. }
  split.
  - cbn. set_solver.
  - intros u v Hu Huv. apply Hfin in Hu as [->|Hu].
    + destruct (Hdeps v Huv) as [? ?]. split; [done|]. apply Hfin. by right.
    + destruct (Hc u v Hu Huv) as [? ?]. split; [done|]. apply Hfin. by right.
  - intros u Hu. apply Hfin in Hu as [->|Hu]; [|by apply Ha].
    intros Hcyc.
    assert (∃ d, edge svcs name d ∧ rtc (edge svcs) d name) as (d & Hd & Hback).
    { inversion Hcyc as [? ? H1|? y ? H1 H2]; subst.
      - exists name. split; [done|apply rtc_refl].
      - exists y. split; [done|by apply tc_rtc]. }
    destruct (Hdeps d Hd) as [_ Hfd].
    pose proof (finished_reach st d name Hinv Hfd Hback) as Hfn.
    unfold finished in Hfn. set_solver.
Qed.

Lemma check_deps_spec rec name deps st bound :
  (∀ dep st',
     dfs_inv svcs st' -> dep ∈ nodes svcs ->
     (∀ x, x ∈ recursionStack st' -> tc (edge svcs) x dep) ->
     (size (nodes svcs ∖ visited st') < bound)%nat ->
     hasCycle_post svcs dep st' (rec dep st')) ->
  (∀ d, d ∈ deps -> edge svcs name d) ->
  dfs_inv svcs st ->
  name ∈ recursionStack st ->
  (∀ x, x ∈ recursionStack st -> rtc (edge svcs) x name) ->
  (size (nodes svcs ∖ visited st) < bound)%nat ->
  check_deps_post svcs deps st (check_deps rec svcs name deps st).
Proof.
  intros Hrec. revert st.
  induction deps as [|dep rest IH]; intros st Hedges Hinv Hname Hpath Hsize; simpl.
  - split; [done|]. split; [done|]. split; [done|].
    intros d Hd. by apply elem_of_nil in Hd.
  - assert (edge svcs name dep) as Hdep by (apply Hedges; left).
    destruct (has_property dep svcs) eqn:Hprop; simpl; [|done].
    pose proof (Hrec dep st Hinv (proj1 (has_property_nodes dep) Hprop)) as Hpost.
    destruct (rec dep st) as [[[] st']|e|]; simpl in Hpost |- *.
    + destruct Hpost as [Hin _].
      * intros x Hx. eapply tc_rtc_l; [by apply Hpath|by apply tc_once].
      * done.
      * eapply tc_rtc_r; [by apply tc_once|by apply Hpath].
    + destruct Hpost as (Hfin & Hinv' & Hvis & Hstack).
      * intros x Hx. eapply tc_rtc_l; [by apply Hpath|by apply tc_once].
      * done.
      * specialize (IH st'). 
        destruct (check_deps rec svcs name rest st') as [st''|e|] eqn:Hloop;
          simpl in IH |- *.
        -- destruct IH as (Hinv'' & Hvis' & Hstack' & Hall).
           ++ intros d Hd. apply Hedges. by right.
           ++ done.
           ++ by rewrite Hstack.
           ++ intros x Hx. apply Hpath. by rewrite <- Hstack.
           ++ pose proof (unvisited_mono _ _ Hvis). lia.
           ++ split; [done|]. split; [set_solver|]. split; [congruence|].
              intros d [->|Hd]%elem_of_cons; [|by apply Hall].
              split; [done|]. unfold finished in *. set_solver.
        -- apply IH.
           ++ intros d Hd. apply Hedges. by right.
           ++ done.
           ++ by rewrite Hstack.
           ++ intros x Hx. apply Hpath. by rewrite <- Hstack.
           ++ pose proof (unvisited_mono _ _ Hvis). lia.
        -- apply IH.
           ++ intros d Hd. apply Hedges. by right.
           ++ done.
           ++ by rewrite Hstack.
           ++ intros x Hx. apply Hpath. by rewrite <- Hstack.
           ++ pose proof (unvisited_mono _ _ Hvis). lia.
    + apply Hpost; [|done].
      intros x Hx. eapply tc_rtc_l; [by apply Hpath|by apply tc_once].
    + apply Hpost; [|done].
      intros x Hx. eapply tc_rtc_l; [by apply Hpath|by apply tc_once].
Qed.

Lemma hasCycle_spec fuel name st :
  dfs_inv svcs st -> name ∈ nodes svcs ->
  (∀ x, x ∈ recursionStack st -> tc (edge svcs) x name) ->
  (size (nodes svcs ∖ visited st) < fuel)%nat ->
  hasCycle_post svcs name st (hasCycle fuel svcs name st).
Proof.
  revert name st. induction fuel as [|fuel IH]; intros name st Hinv Hnode Hpath Hsize;
    [lia|].
  cbn [hasCycle]. case_bool_decide as Hstack; [done|].
  case_bool_decide as Hvis.
  { cbn. split; [unfold finished; set_solver|done]. }
  set (st1 := {| visited := {[name]} ∪ visited st;
                 recursionStack := {[name]} ∪ recursionStack st |}).
  pose proof (check_deps_spec (hasCycle fuel svcs) name (deps_of svcs name) st1 fuel)
    as Hloop.
  assert (dfs_inv svcs st1) as Hinv1 by by apply dfs_inv_enter.
  destruct (check_deps (hasCycle fuel svcs) svcs name (deps_of svcs name) st1)
    as [st2|e|]; cbn in Hloop |- *.
  - destruct Hloop as (Hinv2 & Hvis2 & Hstack2 & Hall).
    + intros dep st' ????. by apply IH.
    + done.
    + done.
    + cbn. set_solver.
    + intros x Hx. cbn in Hx. apply elem_of_union in Hx as [->%elem_of_singleton|Hx].
      * apply rtc_refl.
      * by apply tc_rtc, Hpath.
    + pose proof (unvisited_visit (visited st) name Hnode Hvis). cbn. lia.
    + assert (name ∈ recursionStack st2) as Hin2 by (rewrite Hstack2; cbn; set_solver).
      split; [|split; [|split]].
      * unfold finished. cbn. cbn in Hvis2. set_solver.
      * by apply dfs_inv_leave.
      * cbn. cbn in Hvis2. set_solver.
      * cbn. rewrite Hstack2. cbn. set_solver.
  - apply Hloop.
    + intros dep st' ????. by apply IH.
    + done.
    + done.
    + cbn. set_solver.
    + intros x Hx. cbn in Hx. apply elem_of_union in Hx as [->%elem_of_singleton|Hx].
      * apply rtc_refl.
      * by apply tc_rtc, Hpath.
    + pose proof (unvisited_visit (visited st) name Hnode Hvis). cbn. lia.
  - apply Hloop.
    + intros dep st' ????. by apply IH.
    + done.
    + done.
    + cbn. set_solver.
    + intros x Hx. cbn in Hx. apply elem_of_union in Hx as [->%elem_of_singleton|Hx].
      * apply rtc_refl.
      * by apply tc_rtc, Hpath.
    + pose proof (unvisited_visit (visited st) name Hnode Hvis). cbn. lia.
Qed.

Lemma check_all_spec names st :
  dfs_inv svcs st -> recursionStack st = ∅ ->
  (∀ n, n ∈ names -> n ∈ obj_keys svcs) ->
  match check_all (dfs_fuel svcs) svcs names st with
  | Returns st' =>
      dfs_inv svcs st' ∧ recursionStack st' = ∅ ∧ visited st ⊆ visited st' ∧
      ∀ n, n ∈ names -> n ∈ visited st'
  | Throws e => error_sound svcs e
  | Unfinished => False
  end.
Proof.
  revert st. induction names as [|name rest IH]; intros st Hinv Hempty Hkeys;
    cbn [check_all].
  - split; [done|]. split; [done|]. split; [done|].
    intros n Hn. by apply elem_of_nil in Hn.
  - assert (∀ n, n ∈ rest -> n ∈ obj_keys svcs) as Hkeys'
      by (intros n Hn; apply Hkeys; by right).
    case_bool_decide as Hvis.
    + specialize (IH st Hinv Hempty Hkeys').
      destruct (check_all (dfs_fuel svcs) svcs rest st) as [st'|e|]; [|done..].
      destruct IH as (? & ? & Hsub & Hall). split; [done|]. split; [done|].
      split; [done|]. intros n [->|Hn]%elem_of_cons; [set_solver|by apply Hall].
    + assert (name ∈ nodes svcs) as Hnode.
      { unfold nodes. rewrite elem_of_list_to_set, elem_of_app. left.
        apply Hkeys. left. }
      assert (∀ x, x ∈ recursionStack st -> tc (edge svcs) x name) as Hpath.
      { intros x Hx. rewrite Hempty in Hx. set_solver. }
      assert (size (nodes svcs ∖ visited st) < dfs_fuel svcs)%nat as Hsize.
      { pose proof nodes_size.
        assert (size (nodes svcs ∖ visited st) ≤ size (nodes svcs))%nat
          by (apply subseteq_size; set_solver).
        lia. }
      pose proof (hasCycle_spec (dfs_fuel svcs) name st Hinv Hnode Hpath Hsize) as Hpost.
      destruct (hasCycle (dfs_fuel svcs) svcs name st) as [[b st1]|e|];
        cbn in Hpost |- *; [|done..].
      destruct b.
      { destruct Hpost as [Hin _]. rewrite Hempty in Hin. set_solver. }
      destruct Hpost as (Hfin & Hinv1 & Hsub1 & Hstack1).
      specialize (IH st1 Hinv1). rewrite Hstack1 in IH. specialize (IH Hempty Hkeys').
      destruct (check_all (dfs_fuel svcs) svcs rest st1) as [st'|e|]; [|done..].
      destruct IH as (? & ? & Hsub & Hall). split; [done|]. split; [done|].
      split; [set_solver|]. intros n [->|Hn]%elem_of_cons; [|by apply Hall].
      unfold finished in Hfin. set_solver.
Qed.

(** [validateDependencies] always finishes; when it returns, every
    dependency passes the existence test and the graph is acyclic; when
    it throws, the error describes the graph. *)
Lemma validateDependencies_spec :
  match validateDependencies svcs with
  | Returns _ =>
      (∀ u v, edge svcs u v -> has_property v svcs = true) ∧ acyclic svcs
  | Throws e => error_sound svcs e
  | Unfinished => False
  end.
Proof.
  unfold validateDependencies.
  pose proof (check_all_spec (obj_keys svcs) {| visited := ∅; recursionStack := ∅ |})
    as Hspec.
  destruct (check_all (dfs_fuel svcs) svcs (obj_keys svcs)
              {| visited := ∅; recursionStack := ∅ |}) as [st|e|].
  - destruct Hspec as (Hinv & Hstack & _ & Hall); [|done|done|].
    { split; [done| |]; intros u; unfold finished; cbn; set_solver. }
    assert (∀ u v, edge svcs u v -> u ∈ finished st) as Hfin.
    { intros u v Huv. apply edge_declared, obj_get_is_Some, Hall in Huv.
      unfold finished. rewrite Hstack. set_solver. }
    split.
    + intros u v Huv.
      by destruct (inv_closed _ _ Hinv u v (Hfin u v Huv) Huv) as [? _].
    + intros u Hcyc. assert (∃ v, edge svcs u v) as [v Huv].
      { inversion Hcyc; subst; eauto. }
      by apply (inv_acyclic _ _ Hinv u (Hfin u v Huv)).
  - apply Hspec; [|done|done].
    split; [done| |]; intros u; unfold finished; cbn; set_solver.
  - apply Hspec; [|done|done].
    split; [done| |]; intros u; unfold finished; cbn; set_solver.
Qed.

End Validation.

(** ** C4 and C5: what loading a directory guarantees *)

Lemma has_property_false (svcs : list (string * service)) v :
  has_property v svcs = false <-> missing svcs v.
Proof.
  unfold has_property, missing. rewrite orb_false_iff, !bool_decide_eq_false.
  by rewrite <- eq_None_not_Some.
Qed.

Lemma has_property_true (svcs : list (string * service)) v :
  has_property v svcs = true <-> is_Some (obj_get v svcs) ∨ v ∈ object_prototype_names.
Proof.
  unfold has_property. by rewrite orb_true_iff, !bool_decide_eq_true.
Qed.

(** Loading a directory is merging its files and validating the result. *)
Lemma load_directory files config svcs :
  merged_services files config = Returns svcs ->
  readXQSpec (SpecDirectory files config) =
  match validateDependencies svcs with
  | Returns _ =>
      Returns {| portRange_start :=
                   match loadGlobalConfig config with
                   | Returns c => config_portRange_start c
                   | _ => None
                   end;
                 dependencies :=
                   match loadGlobalConfig config with
                   | Returns c => config_dependencies c
                   | _ => None
                   end;
                 services := svcs |}
  | Throws e => Throws e
  | Unfinished => Unfinished
  end.
Proof.
  unfold merged_services, readXQSpec, loadFromDirectory, mergeServiceFiles.
  destruct (scanServiceFiles files) as [|f fs]; [done|].
  destruct (loadGlobalConfig config) as [c|e|]; [|done..].
  intros ->. by destruct (validateDependencies svcs).
Qed.

Lemma load_directory_inv files config sp :
  readXQSpec (SpecDirectory files config) = Returns sp ->
  merged_services files config = Returns (services sp) ∧
  validateDependencies (services sp) = Returns ().
Proof.
  unfold merged_services, readXQSpec, loadFromDirectory, mergeServiceFiles.
  destruct (scanServiceFiles files) as [|f fs]; [done|].
  destruct (loadGlobalConfig config) as [c|e|]; [|done..].
  destruct (merge_files (f :: fs) []) as [svcs|e|]; [|done..].
  destruct (validateDependencies svcs) as [[]|e|] eqn:Hv; [|done..].
  by intros [= <-].
Qed.

(** C4, as stated, fails.  A specification with both defects fails with
    the error of the defect the traversal meets first: in
    [dir_dangling_then_cycle] the services [a] and [b] form a cycle and
    the load fails with the non-existent-dependency error; in
    [dir_cycle_then_dangling] service [b] names the missing [zzz] and
    the load fails with the circular-dependency error.  And a dependency
    on a name that every object inherits ([toString]) passes the
    existence test: [dir_inherited_name] loads. *)
Lemma first_defect_decides_the_error :
  (tc (edge [("a", depending_on (Some ["zzz"; "b"])); ("b", depending_on (Some ["a"]))])
      "a" "a" ∧
   readXQSpec (SpecDirectory dir_dangling_then_cycle None) =
     Throws (NonExistentDependency "a" "zzz")) ∧
  (edge [("a", depending_on (Some ["b"])); ("b", depending_on (Some ["a"; "zzz"]))]
        "b" "zzz" ∧
   obj_get "zzz" [("a", depending_on (Some ["b"])); ("b", depending_on (Some ["a"; "zzz"]))]
     = None ∧
   readXQSpec (SpecDirectory dir_cycle_then_dangling None) =
     Throws (CircularDependency "b")) ∧
  (edge [("a", depending_on (Some ["toString"]))] "a" "toString" ∧
   obj_get "toString" [("a", depending_on (Some ["toString"]))] = None ∧
   readXQSpec (SpecDirectory dir_inherited_name None) =
     Returns {| portRange_start := None; dependencies := None;
                services := [("a", depending_on (Some ["toString"]))] |}).
Proof.
  split; [|split].
  - split; [|by vm_compute].
    apply tc_l with "b"; [solve_edge|]. apply tc_once. solve_edge.
  - split; [solve_edge|]. split; by vm_compute.
  - split; [solve_edge|]. split; by vm_compute.
Qed.

(** C4 (amended): for the services [svcs] merged from a directory, the
    load returns the specification or fails with one of the two
    dependency errors; a circular-dependency error names a service on a
    cycle, and a non-existent-dependency error names a service and an
    entry of its [depends_on] that is not a service.  If the explicit
    [depends_on] edges contain a cycle (of any length, anywhere in the
    graph) and every entry passes the existence test, the load fails
    with a circular-dependency error; if some entry names neither a
    service nor a member inherited from [Object.prototype] and there is
    no cycle, it fails with a non-existent-dependency error; and it
    fails exactly when there is a cycle or such an entry. *)
Theorem load_validates_dependencies
    (files : list (string * parsed service_file))
    (config : option (string * parsed global_config))
    (svcs : list (string * service)) :
  merged_services files config = Returns svcs ->
  let load := readXQSpec (SpecDirectory files config) in
  ((∃ sp, load = Returns sp ∧ services sp = svcs) ∨
   (∃ u, load = Throws (CircularDependency u)) ∨
   (∃ u v, load = Throws (NonExistentDependency u v))) ∧
  (∀ u, load = Throws (CircularDependency u) -> tc (edge svcs) u u) ∧
  (∀ u v, load = Throws (NonExistentDependency u v) ->
          edge svcs u v ∧ obj_get v svcs = None) ∧
  ((∃ u, tc (edge svcs) u u) ->
   (∀ a b, edge svcs a b -> ¬ missing svcs b) ->
   ∃ u, load = Throws (CircularDependency u) ∧ tc (edge svcs) u u) ∧
  ((∃ u v, edge svcs u v ∧ missing svcs v) ->
   acyclic svcs ->
   ∃ u v, load = Throws (NonExistentDependency u v) ∧
          edge svcs u v ∧ obj_get v svcs = None) ∧
  ((∃ u, tc (edge svcs) u u) ∨ (∃ u v, edge svcs u v ∧ missing svcs v) <->
   ∃ e, load = Throws e).
Proof.
  intros Hmerged load. unfold load. rewrite (load_directory files config svcs Hmerged).
  pose proof (validateDependencies_spec svcs) as Hspec.
  destruct (validateDependencies svcs) as [[]|e|]; [| |done].
  - destruct Hspec as [Hexist Hacyclic].
    split; [left; eauto|]. split; [done|]. split; [done|].
    split. { intros [u Hu] _. by destruct (Hacyclic u). }
    split. { intros (u & v & Huv & Hv) _. apply has_property_false in Hv.
             rewrite (Hexist u v Huv) in Hv. done. }
    split; [|by intros [e ?]].
    intros [[u Hu]|(u & v & Huv & Hv)].
    + by destruct (Hacyclic u).
    + apply has_property_false in Hv. rewrite (Hexist u v Huv) in Hv. done.
  - destruct e as [| | | | | |u v|u]; try done; cbn in Hspec.
    + destruct Hspec as [Huv Hv]. apply has_property_false in Hv as Hmiss.
      split; [right; right; eauto|]. split; [done|].
      split. { intros u' v' [= -> ->]. split; [done|apply Hmiss]. }
      split. { intros _ Hall. by destruct (Hall u v Huv). }
      split. { intros _ _. exists u, v. split; [done|]. split; [done|apply Hmiss]. }
      split; [eauto|]. intros _. right. eauto.
    + split; [right; left; eauto|].
      split. { by intros u' [= ->]. }
      split; [done|].
      split. { intros _ _. eauto. }
      split. { intros _ Hacyclic. by destruct (Hacyclic u). }
      split; [eauto|]. intros _. left. eauto.
Qed.

Lemma load_validates_dependencies_witness :
  merged_services dir_cycle_apart None =
    Returns [("a", depending_on None); ("x", depending_on (Some ["y"]));
             ("y", depending_on (Some ["x"]))] ∧
  ∃ u, readXQSpec (SpecDirectory dir_cycle_apart None) = Throws (CircularDependency u) ∧
       tc (edge [("a", depending_on None); ("x", depending_on (Some ["y"]));
                 ("y", depending_on (Some ["x"]))]) u u.
Proof.
  split; [by vm_compute|].
  refine (proj1 (proj2 (proj2 (proj2
    (load_validates_dependencies dir_cycle_apart None _ _)))) _ _).
  - by vm_compute.
  - exists "x". apply tc_l with "y"; [solve_edge|]. apply tc_once. solve_edge.
  - intros a b Hab [Hnone _]. unfold edge, deps_of in Hab. cbn [obj_get] in Hab.
    repeat case_bool_decide; subst; cbn in Hab;
      repeat (apply elem_of_cons in Hab as [->|Hab]); try by apply elem_of_nil in Hab.
    all: by vm_compute in Hnone.
Defined.

(** C5, as stated, fails: dependency groups are not validated, and a
    single file is not validated at all.  [dir_grouped] loads although
    the group [database] gives [api] the missing dependency [ghost] and
    a dependency on itself; the single file [spec_single_dangling]
    loads although [web] depends on the missing [nowhere]; and
    [dir_inherited_name] loads although [toString], a name every object
    inherits, is no service. *)
Lemma groups_and_single_files_are_not_validated :
  (readXQSpec (SpecDirectory dir_grouped config_grouped) =
     Returns {| portRange_start := None;
                dependencies := Some [("database", ["ghost"; "api"])];
                services := [("api", grouped_service)] |} ∧
   expanded_edge {| portRange_start := None;
                    dependencies := Some [("database", ["ghost"; "api"])];
                    services := [("api", grouped_service)] |} "api" "ghost" ∧
   obj_get "ghost" [("api", grouped_service)] = None ∧
   expanded_edge {| portRange_start := None;
                    dependencies := Some [("database", ["ghost"; "api"])];
                    services := [("api", grouped_service)] |} "api" "api") ∧
  (readXQSpec (SpecFile (Some spec_single_dangling)) =
     Returns spec_single_dangling ∧
   expanded_edge spec_single_dangling "web" "nowhere" ∧
   obj_get "nowhere" (services spec_single_dangling) = None) ∧
  (∃ sp, readXQSpec (SpecDirectory dir_inherited_name None) = Returns sp ∧
         expanded_edge sp "a" "toString" ∧
         obj_get "toString" (services sp) = None).
Proof.
  split; [|split].
  - split; [by vm_compute|]. split; [|split; [by vm_compute|]].
    + exists grouped_service. split; [by vm_compute|].
      apply list_elem_of_In. vm_compute. tauto.
    + exists grouped_service. split; [by vm_compute|].
      apply list_elem_of_In. vm_compute. tauto.
  - split; [done|]. split; [|by vm_compute].
    eexists. split; [by vm_compute|]. apply list_elem_of_In. vm_compute. tauto.
  - eexists. split; [by vm_compute|]. split; [|by vm_compute].
    eexists. split; [by vm_compute|]. apply list_elem_of_In. vm_compute. tauto.
Qed.

(** C5 (amended): for every specification returned by loading a
    directory, every name in a service's own [depends_on] (before
    dependency groups are expanded) names a service of the
    specification, or a member every object inherits from
    [Object.prototype], and the relation of these explicit entries is
    acyclic. *)
Theorem loaded_directory_explicit_dependencies
    (files : list (string * parsed service_file))
    (config : option (string * parsed global_config)) (sp : spec) :
  readXQSpec (SpecDirectory files config) = Returns sp ->
  (∀ name s d,
     obj_get name (services sp) = Some s -> d ∈ default [] (depends_on s) ->
     is_Some (obj_get d (services sp)) ∨ d ∈ object_prototype_names) ∧
  acyclic (services sp).
Proof.
  intros [_ Hvalid]%load_directory_inv.
  pose proof (validateDependencies_spec (services sp)) as Hspec.
  rewrite Hvalid in Hspec. destruct Hspec as [Hexist Hacyclic].
  split; [|done]. intros name s d Hs Hd.
  apply has_property_true, (Hexist name d). unfold edge, deps_of. by rewrite Hs.
Qed.

Lemma loaded_directory_explicit_dependencies_witness :
  readXQSpec (SpecDirectory dir_chain None) =
    Returns {| portRange_start := None; dependencies := None;
               services := [("api", depending_on (Some ["cache"; "db"]));
                            ("cache", depending_on (Some ["db"]));
                            ("db", depending_on None)] |} ∧
  acyclic [("api", depending_on (Some ["cache"; "db"]));
           ("cache", depending_on (Some ["db"]));
           ("db", depending_on None)].
Proof.
  split; [by vm_compute|].
  refine (proj2 (loaded_directory_explicit_dependencies dir_chain None
                   {| portRange_start := None; dependencies := None;
                      services := _ |} _)).
  by vm_compute.
Defined.

(** ** Maps of collections *)






Section MapsOfCollections.
Context {A : Type}.
Implicit Types (f : string -> A) (ks : list string) (k : string).



Lemma obj_set_absent k (v : A) (o : list (string * A)) :
  k ∉ obj_keys o -> obj_set k v o = o ++ [(k, v)].
Proof.
  unfold obj_keys. induction o as [|[k' v'] o IH]; simpl; [done|].
  intros [Hne Hout]%not_elem_of_cons. rewrite bool_decide_false by done.
  f_equal. by apply IH.
Qed.



End MapsOfCollections.

Section Grouping.
Context {A : Type} (add : A -> list A -> list A).








End Grouping.

(** ** Text *)

Lemma string_app_nil_r (s : string) : s +:+ "" = s.
Proof. induction s as [|a s IH]; [done|]. cbv [String.append]. fold String.append. by rewrite IH. Qed.

Lemma string_app_nil_l (s : string) : "" +:+ s = s.
Proof. done. Qed.

Lemma string_app_assoc (s t u : string) : (s +:+ t) +:+ u = s +:+ (t +:+ u).
Proof.
  induction s as [|a s IH]; [done|].
  change (String a ((s +:+ t) +:+ u) = String a (s +:+ (t +:+ u))). by rewrite IH.
Qed.


Lemma foldl_collect {B C} (f : B -> C) (acc : list C) (l : list B) :
  foldl (fun out e => out ++ [f e]) acc l = acc ++ (f <$> l).
Proof.
  revert acc. induction l as [|e l IH]; intros acc; cbn [foldl fmap list_fmap].
  - by rewrite app_nil_r.
  - by rewrite IH, <- app_assoc.
Qed.



(** ** C6 and C7: the route compiler *)













Lemma service_routes_emitted name svc acc :
  service_routes name svc acc =
  acc ++ omap (emitted_route name svc) (default [] (g_routes svc)).
Proof.
  unfold service_routes. destruct (g_routes svc) as [rules|]; cbn [default];
    [|by rewrite app_nil_r].
  unfold id. revert acc. induction rules as [|rule rules IH]; intros acc; cbn [foldl].
  - by rewrite app_nil_r.
  - rewrite IH. destruct (paths rule) as [ps|] eqn:Hp.
    + assert (emitted_route name svc rule =
              Some {| serviceName := name;
                      containerPort := extractContainerPort (g_ports svc);
                      route_methods := default default_methods (methods rule);
                      route_paths := ps |}) as Hr
        by (unfold emitted_route; by rewrite Hp).
      cbn [omap list_omap]. rewrite Hr. by rewrite <- app_assoc.
    + assert (emitted_route name svc rule = None) as Hr
        by (unfold emitted_route; by rewrite Hp).
      cbn [omap list_omap]. by rewrite Hr.
Qed.

Lemma parseRoutes_emitted servicesMap :
  parseRoutes servicesMap =
  servicesMap ≫= fun entry =>
    if bool_decide (entry.1 = gateway_name) then []
    else omap (emitted_route entry.1 entry.2) (default [] (g_routes entry.2)).
Proof.
  unfold parseRoutes.
  assert (∀ acc,
    foldl (fun acc entry =>
             if bool_decide (entry.1 = gateway_name) then acc
             else service_routes entry.1 entry.2 acc) acc servicesMap =
    acc ++ (servicesMap ≫= fun entry =>
      if bool_decide (entry.1 = gateway_name) then []
      else omap (emitted_route entry.1 entry.2) (default [] (g_routes entry.2))))
    as H; [|apply (H [])].
  induction servicesMap as [|entry m IH]; intros acc; cbn [foldl].
  - by rewrite app_nil_r.
  - rewrite IH, bind_cons. case_bool_decide; [done|].
    by rewrite service_routes_emitted, <- app_assoc.
Qed.

(** C7, as stated, fails for an explicitly empty [methods]: the rule of
    [service_no_methods] is emitted with no method at all. *)
Lemma empty_methods_are_kept :
  route_methods <$> parseRoutes [("api", service_no_methods)] = [[]] ∧
  route_methods <$> parseRoutes [("api", service_no_methods)] ≠ [default_methods].
Proof. split; by vm_compute. Qed.

(** C7 (amended): the routes [parseRoutes] emits are, service by service
    (the gateway excepted) and rule by rule, one route for each rule that
    has [paths]; the route of a rule whose [methods] field is absent has
    the methods GET, POST, PUT, DELETE and PATCH, and the route of a rule
    whose [methods] field is present has exactly the methods listed, none
    when the list is empty. *)
Theorem route_methods_default_when_absent
    (servicesMap : list (string * gateway_service)) :
  parseRoutes servicesMap =
    (servicesMap ≫= fun entry =>
       if bool_decide (entry.1 = gateway_name) then []
       else omap (emitted_route entry.1 entry.2) (default [] (g_routes entry.2))) ∧
  (∀ name svc rule,
     (paths rule = None -> emitted_route name svc rule = None) ∧
     (∀ ps, paths rule = Some ps ->
        ∃ r, emitted_route name svc rule = Some r ∧
             serviceName r = name ∧ route_paths r = ps ∧
             (methods rule = None ->
              route_methods r = ["GET"; "POST"; "PUT"; "DELETE"; "PATCH"]) ∧
             (∀ ms, methods rule = Some ms -> route_methods r = ms))).
Proof.
  split; [apply parseRoutes_emitted|].
  intros name svc rule. unfold emitted_route. split.
  - by intros ->.
  - intros ps ->. eexists. split; [done|]. cbn. split; [done|]. split; [done|].
    split; [by intros ->|by intros ms ->].
Qed.

(** ** C9: overrides *)

Lemma foldl_obj_set_get (kvs : list (string * jsval)) (t : raw_service) field :
  NoDup kvs.*1 ->
  obj_get field (foldl (fun t kv => obj_set kv.1 kv.2 t) t kvs) =
  match obj_get field kvs with
  | Some v => Some v
  | None => obj_get field t
  end.
Proof.
  revert t. induction kvs as [|[k v] kvs IH]; intros t Hnd; [done|].
  rewrite fmap_cons in Hnd. apply NoDup_cons in Hnd as [Hk Hnd].
  cbn [foldl obj_get fst snd]. rewrite IH by done.
  destruct (decide (k = field)) as [->|Hne].
  - rewrite (bool_decide_true (field = field)) by done.
    rewrite (proj2 (obj_get_None field kvs) Hk). apply obj_get_set_eq.
  - rewrite (bool_decide_false (k = field)) by done.
    by rewrite obj_get_set_ne.
Qed.

Lemma Object_assign_get target source field :
  NoDup (own_props source).*1 ->
  obj_get field (Object_assign target source) =
  match obj_get field (own_props source) with
  | Some v => Some v
  | None => obj_get field target
  end.
Proof. apply foldl_obj_set_get. Qed.



Lemma foldl_override_get ov svcs name :
  NoDup ov.*1 ->
  obj_get name (foldl override_service svcs ov) =
  match obj_get name svcs with
  | Some target =>
      Some match obj_get name ov with
           | Some patch => Object_assign target patch
           | None => target
           end
  | None => None
  end.
Proof.
  revert svcs. induction ov as [|[k patch] ov IH]; intros svcs Hnd.
  { cbn. by destruct (obj_get name svcs). }
  rewrite fmap_cons in Hnd. apply NoDup_cons in Hnd as [Hk Hnd].
  cbn [foldl obj_get]. rewrite IH by done. unfold override_service. cbn [fst snd].
  destruct (decide (k = name)) as [->|Hne].
  - rewrite (bool_decide_true (name = name)) by done.
    rewrite (proj2 (obj_get_None name ov) Hk).
    destruct (obj_get name svcs) as [target|] eqn:E.
    + by rewrite obj_get_set_eq.
    + by rewrite E.
  - rewrite (bool_decide_false (k = name)) by done.
    destruct (obj_get k svcs) as [target|]; [|done].
    by rewrite obj_get_set_ne.
Qed.


Lemma applyOverrides_some sp ov svcs :
  raw_services sp = Some svcs ->
  applyOverrides sp (Some ov) =
  {| raw_portRange := raw_portRange sp;
     raw_dependencies := raw_dependencies sp;
     raw_services := Some (foldl override_service svcs ov) |}.
Proof. intros H. unfold applyOverrides. by rewrite H. Qed.

Lemma applyOverrides_no_services sp ov :
  raw_services sp = None -> applyOverrides sp (Some ov) = sp.
Proof. intros H. unfold applyOverrides. by rewrite H. Qed.



(** ** C8 and C10: the test-container wait *)

Lemma line_entries_fold line (tracked : list string) acc :
  foldl (fun statuses name =>
           if Js.includes name line then statuses ++ [line_entry line name]
           else statuses) acc tracked =
  acc ++ (line_entry line <$> filter (fun name => Js.includes name line = true) tracked).
Proof.
  revert acc. induction tracked as [|name tracked IH]; intros acc; cbn [foldl].
  - by rewrite app_nil_r.
  - rewrite IH. destruct (Js.includes name line) eqn:E.
    + rewrite filter_cons_True by done. cbn [fmap list_fmap].
      by rewrite <- app_assoc.
    + rewrite filter_cons_False by by rewrite E. done.
Qed.

(** The entries of a poll: for each line that is not blank and not a
    header, one entry for each tracked name the line contains. *)
Lemma poll_statuses_lines tracked stdout :
  poll_statuses tracked stdout =
  filter (fun line => Js.trim_nonempty line = true) (Js.split_on "010"%char stdout)
  ≫= fun line =>
       if is_header line then []
       else line_entry line <$> filter (fun name => Js.includes name line = true) tracked.
Proof.
  unfold poll_statuses.
  generalize (filter (fun line => Js.trim_nonempty line = true)
                (Js.split_on "010"%char stdout)).
  intros lines.
  assert (∀ acc,
    foldl (fun statuses line =>
             if is_header line then statuses
             else foldl (fun statuses name =>
                           if Js.includes name line
                           then statuses ++ [line_entry line name]
                           else statuses) statuses tracked) acc lines =
    acc ++ (lines ≫= fun line =>
              if is_header line then []
              else line_entry line <$>
                     filter (fun name => Js.includes name line = true) tracked))
    as H; [|apply (H [])].
  induction lines as [|line lines IH]; intros acc; cbn [foldl].
  - by rewrite app_nil_r.
  - rewrite IH, bind_cons. destruct (is_header line); [done|].
    by rewrite line_entries_fold, <- app_assoc.
Qed.

Lemma poll_statuses_entry tracked stdout c :
  c ∈ poll_statuses tracked stdout ->
  ∃ line name, name ∈ tracked ∧ Js.includes name line = true ∧ c = line_entry line name.
Proof.
  rewrite poll_statuses_lines. intros (line & Hc & _)%list_elem_of_bind.
  destruct (is_header line); [by apply elem_of_nil in Hc|].
  apply list_elem_of_fmap in Hc as (name & -> & [Hinc Hin]%list_elem_of_filter).
  eauto.
Qed.

Lemma judge_complete tracked statuses :
  tracked ≠ [] ->
  (judge tracked statuses = StillWaiting <-> ¬ complete tracked statuses) ∧
  (judge tracked statuses = AllSucceeded <->
     complete tracked statuses ∧ ∀ c, c ∈ statuses -> cs_exitCode c = Some 0) ∧
  (∀ failed, judge tracked statuses = SomeFailed failed <->
     complete tracked statuses ∧ failed ≠ [] ∧
     failed = filter (fun c => cs_exitCode c ≠ Some 0) statuses).
Proof.
  intros Hne. unfold judge.
  set (allFound := forallb _ tracked).
  set (allExited := _ && _ && _).
  assert (allFound && allExited = true <-> complete tracked statuses) as Hc.
  { unfold allFound, allExited, complete.
    rewrite !andb_true_iff, !bool_decide_eq_true, !forallb_forall.
    split.
    - intros (Hfound & (Hpos & Hexited) & Hlen). split; [|split; [|done]].
      + intros name Hin. apply list_elem_of_In in Hin.
        by apply Hfound, bool_decide_eq_true in Hin.
      + intros c Hin. apply Hexited. by apply list_elem_of_In.
    - intros (Hfound & Hexited & Hlen). split; [|split; [split|done]].
      + intros name Hin. apply bool_decide_eq_true, Hfound. by apply list_elem_of_In.
      + rewrite Hlen. destruct tracked; [done|]. cbn. lia.
      + intros c Hin. apply Hexited. by apply list_elem_of_In. }
  set (failed := filter (fun c => cs_exitCode c ≠ Some 0) statuses).
  assert (failed = [] <-> ∀ c, c ∈ statuses -> cs_exitCode c = Some 0) as Hf.
  { unfold failed. split.
    - intros Hnil c Hin. destruct (decide (cs_exitCode c = Some 0)) as [|Hnz]; [done|].
      assert (c ∈ filter (fun c => cs_exitCode c ≠ Some 0) statuses) as H
        by by apply list_elem_of_filter.
      rewrite Hnil in H. by apply elem_of_nil in H.
    - intros Hall. destruct (filter _ statuses) as [|c l] eqn:E; [done|].
      assert (c ∈ filter (fun c => cs_exitCode c ≠ Some 0) statuses) as H
        by (rewrite E; left).
      apply list_elem_of_filter in H as [Hnz Hin]. by destruct (Hnz (Hall c Hin)). }
  destruct (allFound && allExited) eqn:E.
  - assert (complete tracked statuses) as Hcomplete by by apply Hc.
    destruct failed as [|c l] eqn:Ef; cbn [length].
    + rewrite bool_decide_false by lia.
      split; [split; [done|by intros []]|]. split.
      * split; [intros _; split; [done|by apply Hf]|done].
      * intros f. split; [done|]. by intros (_ & Hnil & ->).
    + rewrite bool_decide_true by lia.
      split; [split; [done|by intros []]|]. split.
      * split; [done|]. intros [_ Hall]. by apply Hf in Hall.
      * intros f. split; [by intros [= <-]|]. by intros (_ & _ & ->).
  - assert (¬ complete tracked statuses) as Hincomplete.
    { intros H. apply Hc in H. congruence. }
    split; [done|]. split.
    + split; [done|]. by intros [? _].
    + intros f. split; [done|]. by intros [? _].
Qed.

Lemma wait_loop_spec timeout tracked count observed :
  match wait_loop timeout tracked count observed with
  | WaitTrue k =>
      ∃ before elapsed stdout rest,
        observed = before ++ (elapsed, PsOutput stdout) :: rest ∧
        Forall (pending timeout tracked) before ∧ elapsed < timeout ∧
        judge tracked (poll_statuses tracked stdout) = AllSucceeded ∧
        k = (count + S (length before))%nat
  | WaitFalse k failed =>
      ∃ before elapsed stdout rest,
        observed = before ++ (elapsed, PsOutput stdout) :: rest ∧
        Forall (pending timeout tracked) before ∧ elapsed < timeout ∧
        judge tracked (poll_statuses tracked stdout) = SomeFailed failed ∧
        k = (count + S (length before))%nat
  | WaitTimedOut k =>
      ∃ before elapsed p rest,
        observed = before ++ (elapsed, p) :: rest ∧
        Forall (pending timeout tracked) before ∧ timeout ≤ elapsed ∧
        k = (count + length before)%nat
  | WaitGoesOn => Forall (pending timeout tracked) observed
  end.
Proof.
  revert count. induction observed as [|[elapsed p] observed IH]; intros count;
    cbn [wait_loop]; [done|].
  destruct (Z.ltb_spec elapsed timeout) as [Hlt|Hge].
  2:{ exists [], elapsed, p, observed. cbn. split; [done|]. split; [done|].
      split; [done|lia]. }
  assert (∀ p', undecided tracked p' ->
    match wait_loop timeout tracked (S count) observed with
    | WaitTrue k =>
        ∃ before elapsed0 stdout rest,
          (elapsed, p') :: observed = before ++ (elapsed0, PsOutput stdout) :: rest ∧
          Forall (pending timeout tracked) before ∧ elapsed0 < timeout ∧
          judge tracked (poll_statuses tracked stdout) = AllSucceeded ∧
          k = (count + S (length before))%nat
    | WaitFalse k failed =>
        ∃ before elapsed0 stdout rest,
          (elapsed, p') :: observed = before ++ (elapsed0, PsOutput stdout) :: rest ∧
          Forall (pending timeout tracked) before ∧ elapsed0 < timeout ∧
          judge tracked (poll_statuses tracked stdout) = SomeFailed failed ∧
          k = (count + S (length before))%nat
    | WaitTimedOut k =>
        ∃ before elapsed0 p0 rest,
          (elapsed, p') :: observed = before ++ (elapsed0, p0) :: rest ∧
          Forall (pending timeout tracked) before ∧ timeout ≤ elapsed0 ∧
          k = (count + length before)%nat
    | WaitGoesOn => Forall (pending timeout tracked) ((elapsed, p') :: observed)
    end) as Hnext.
  { intros p' Hp'. specialize (IH (S count)).
    destruct (wait_loop timeout tracked (S count) observed) as [k|k failed|k|].
    - destruct IH as (before & e0 & out & rest & -> & Hb & ? & ? & ->).
      exists ((elapsed, p') :: before), e0, out, rest.
      split; [done|]. split; [by constructor|]. split; [done|]. split; [done|].
      cbn. lia.
    - destruct IH as (before & e0 & out & rest & -> & Hb & ? & ? & ->).
      exists ((elapsed, p') :: before), e0, out, rest.
      split; [done|]. split; [by constructor|]. split; [done|]. split; [done|].
      cbn. lia.
    - destruct IH as (before & e0 & p0 & rest & -> & Hb & ? & ->).
      exists ((elapsed, p') :: before), e0, p0, rest.
      split; [done|]. split; [by constructor|]. split; [done|]. cbn. lia.
    - by constructor. }
  destruct p as [|stdout]; [by apply Hnext|].
  destruct (judge tracked (poll_statuses tracked stdout)) as [| |failed] eqn:Hj.
  - by apply Hnext.
  - exists [], elapsed, stdout, observed. cbn. split; [done|]. split; [done|].
    split; [done|]. split; [done|lia].
  - exists [], elapsed, stdout, observed. cbn. split; [done|]. split; [done|].
    split; [done|]. split; [done|lia].
Qed.

Lemma wait_loop_skip timeout tracked count before rest :
  Forall (pending timeout tracked) before ->
  wait_loop timeout tracked count (before ++ rest) =
  wait_loop timeout tracked (count + length before) rest.
Proof.
  intros Hb. revert count. induction Hb as [|[elapsed p] before [Hlt Hp] _ IH];
    intros count; cbn [app length].
  - by rewrite Nat.add_0_r.
  - cbn [wait_loop]. cbn in Hlt, Hp.
    rewrite (proj2 (Z.ltb_lt elapsed timeout) Hlt).
    replace (count + S (length before))%nat with (S count + length before)%nat by lia.
    destruct p as [|stdout]; [apply IH|]. cbn in Hp. rewrite Hp. apply IH.
Qed.

Lemma wait_loop_returned timeout tracked count count' observed :
  returned (wait_loop timeout tracked count observed) =
  returned (wait_loop timeout tracked count' observed).
Proof.
  revert count count'. induction observed as [|[elapsed p] observed IH];
    intros count count'; cbn [wait_loop]; [done|].
  destruct (elapsed <? timeout); [|done].
  destruct p as [|stdout]; [apply IH|].
  destruct (judge tracked (poll_statuses tracked stdout)); [apply IH|done..].
Qed.

Lemma waitForTestContainers_loop timeout tracked observed :
  tracked ≠ [] ->
  waitForTestContainers timeout tracked observed =
  wait_loop timeout tracked 0 observed.
Proof. by destruct tracked. Qed.

(** C8: the wait misses the stated result when a tracked name is found
    on more than one status line.  An entry is made for every status
    line and every tracked name the line contains, and a poll counts
    only when there are as many entries as tracked services.  With the
    services [e2e] and [e2e-runner] tracked, the line of [e2e-runner]
    also contains [e2e]: every poll of [ps_e2e_and_runner] shows both
    services present and exited with code 0, gives three entries for
    two services, and the wait times out and returns false.  The same
    happens for one tracked service with two containers
    ([ps_two_e2e]). *)
Theorem matches_on_several_lines_time_out :
  (shows_all_exited_zero ["e2e"; "e2e-runner"] ps_e2e_and_runner ∧
   poll_statuses ["e2e"; "e2e-runner"] ps_e2e_and_runner =
     [{| cs_service := "e2e"; cs_status := "e2e Exited (0)";
         cs_exitCode := Some 0; cs_exited := true |};
      {| cs_service := "e2e"; cs_status := "e2e-runner Exited (0)";
         cs_exitCode := Some 0; cs_exited := true |};
      {| cs_service := "e2e-runner"; cs_status := "e2e-runner Exited (0)";
         cs_exitCode := Some 0; cs_exited := true |}] ∧
   waitForTestContainers 600000 ["e2e"; "e2e-runner"]
     [(0, PsOutput ps_e2e_and_runner); (2000, PsOutput ps_e2e_and_runner);
      (600000, PsOutput ps_e2e_and_runner)] = WaitTimedOut 2) ∧
  (shows_all_exited_zero ["e2e"] ps_two_e2e ∧
   waitForTestContainers 600000 ["e2e"]
     [(0, PsOutput ps_two_e2e); (2000, PsOutput ps_two_e2e);
      (600000, PsOutput ps_two_e2e)] = WaitTimedOut 2) ∧
  returned (WaitTimedOut 2) = Some false.
Proof.
  assert (∀ tracked stdout,
            forallb (fun name =>
              bool_decide (name ∈ cs_service <$> poll_statuses tracked stdout))
              tracked = true ->
            forallb (fun c => cs_exited c && bool_decide (cs_exitCode c = Some 0))
              (poll_statuses tracked stdout) = true ->
            shows_all_exited_zero tracked stdout) as Hshows.
  { intros tracked stdout Hfound Hzero. split.
    - intros name Hname. rewrite forallb_forall in Hfound.
      apply list_elem_of_In, Hfound in Hname. by apply bool_decide_eq_true in Hname.
    - intros c Hc. rewrite forallb_forall in Hzero.
      apply list_elem_of_In, Hzero, andb_true_iff in Hc as [He Hz].
      by apply bool_decide_eq_true in Hz. }
  split; [|split; [|done]].
  - split; [by apply Hshows; vm_compute|]. split; by vm_compute.
  - split; [by apply Hshows; vm_compute|]. by vm_compute.
Qed.

(** X1: the result of the wait, for a non-empty list of tracked
    services.  It returns true exactly when some poll made before the timeout is
    complete (every tracked service is named by an entry, every entry is
    exited, and there are as many entries as tracked services, one
    matching line each) with every exit code zero, all earlier turns
    being before the timeout with a poll that failed or was not
    complete; it returns false reporting the entries with another exit
    code exactly when the first complete poll has such entries; it
    returns false on timeout exactly when the loop test fails before
    any complete poll.  A failed status command leaves the wait going.
    One service polled as Up and then as Exited (0) gives true after
    two polls; Exited (1) on the second poll gives false, naming the
    service with exit code 1. *)
Theorem wait_for_test_containers (timeout : Z) (testContainers : list string)
    (observed : list (Z * poll)) :
  testContainers ≠ [] ->
  (∀ k, waitForTestContainers timeout testContainers observed = WaitTrue k <->
        ∃ before elapsed stdout rest,
          observed = before ++ (elapsed, PsOutput stdout) :: rest ∧
          Forall (pending timeout testContainers) before ∧ elapsed < timeout ∧
          complete testContainers (poll_statuses testContainers stdout) ∧
          (∀ c, c ∈ poll_statuses testContainers stdout -> cs_exitCode c = Some 0) ∧
          k = S (length before)) ∧
  (∀ k failed,
     waitForTestContainers timeout testContainers observed = WaitFalse k failed <->
     ∃ before elapsed stdout rest,
       observed = before ++ (elapsed, PsOutput stdout) :: rest ∧
       Forall (pending timeout testContainers) before ∧ elapsed < timeout ∧
       complete testContainers (poll_statuses testContainers stdout) ∧
       failed ≠ [] ∧
       failed = filter (fun c => cs_exitCode c ≠ Some 0)
                       (poll_statuses testContainers stdout) ∧
       k = S (length before)) ∧
  (∀ k, waitForTestContainers timeout testContainers observed = WaitTimedOut k <->
        ∃ before elapsed p rest,
          observed = before ++ (elapsed, p) :: rest ∧
          Forall (pending timeout testContainers) before ∧ timeout ≤ elapsed ∧
          k = length before) ∧
  (waitForTestContainers timeout testContainers observed = WaitGoesOn <->
   Forall (pending timeout testContainers) observed) ∧
  (∀ turn, pending timeout testContainers turn <->
           turn.1 < timeout ∧
           (turn.2 = PsFails ∨
            ∃ stdout, turn.2 = PsOutput stdout ∧
                      ¬ complete testContainers (poll_statuses testContainers stdout))) ∧
  (∀ elapsed, elapsed < timeout ->
     returned (waitForTestContainers timeout testContainers
                 ((elapsed, PsFails) :: observed)) =
     returned (waitForTestContainers timeout testContainers observed)) ∧
  (waitForTestContainers 5000 ["xq-keeper"]
     [(0, PsOutput ps_up); (2000, PsOutput ps_exited_0)] = WaitTrue 2 ∧
   waitForTestContainers 5000 ["xq-keeper"]
     [(0, PsOutput ps_up); (2000, PsOutput ps_exited_1)] =
     WaitFalse 2 [{| cs_service := "xq-keeper"; cs_status := "xq-keeper Exited (1)";
                     cs_exitCode := Some 1; cs_exited := true |}]).
Proof.
  intros Hne. rewrite !(waitForTestContainers_loop _ _ _ Hne).
  pose proof (wait_loop_spec timeout testContainers 0 observed) as Hspec.
  split.
  { intros k. split.
    - intros Hr. rewrite Hr in Hspec.
      destruct Hspec as (before & elapsed & stdout & rest & -> & Hb & Hlt & Hj & ->).
      apply (judge_complete _ _ Hne) in Hj as [Hc Hz].
      exists before, elapsed, stdout, rest.
      split; [done|]. split; [done|]. split; [done|]. split; [done|]. by split.
    - intros (before & elapsed & stdout & rest & -> & Hb & Hlt & Hc & Hz & ->).
      rewrite wait_loop_skip by done. cbn [wait_loop].
      rewrite (proj2 (Z.ltb_lt elapsed timeout) Hlt).
      by rewrite (proj2 (proj1 (proj2 (judge_complete _ _ Hne)))). }
  split.
  { intros k failed. split.
    - intros Hr. rewrite Hr in Hspec.
      destruct Hspec as (before & elapsed & stdout & rest & -> & Hb & Hlt & Hj & ->).
      apply (judge_complete _ _ Hne) in Hj as (Hc & Hf & Heq).
      exists before, elapsed, stdout, rest.
      split; [done|]. split; [done|]. split; [done|]. split; [done|].
      split; [done|]. by split.
    - intros (before & elapsed & stdout & rest & -> & Hb & Hlt & Hc & Hf & Heq & ->).
      rewrite wait_loop_skip by done. cbn [wait_loop].
      rewrite (proj2 (Z.ltb_lt elapsed timeout) Hlt).
      by rewrite (proj2 (proj2 (proj2 (judge_complete _ _ Hne)) failed)). }
  split.
  { intros k. split.
    - intros Hr. by rewrite Hr in Hspec.
    - intros (before & elapsed & p & rest & -> & Hb & Hge & ->).
      rewrite wait_loop_skip by done. cbn [wait_loop].
      by rewrite (proj2 (Z.ltb_ge elapsed timeout) Hge). }
  split.
  { split.
    - intros Hr. by rewrite Hr in Hspec.
    - intros Hall. rewrite <- (app_nil_r observed), wait_loop_skip by done. done. }
  split.
  { intros [elapsed p]. unfold pending. cbn [fst snd]. split.
    - intros [Hlt Hp]. split; [done|]. destruct p as [|stdout]; [by left|].
      right. exists stdout. split; [done|]. by apply (judge_complete _ _ Hne).
    - intros [Hlt Hp]. split; [done|].
      destruct Hp as [->|(stdout & -> & Hc)]; [done|].
      by apply (judge_complete _ _ Hne). }
  split.
  { intros elapsed Hlt. rewrite (waitForTestContainers_loop _ _ _ Hne).
    cbn [wait_loop]. rewrite (proj2 (Z.ltb_lt elapsed timeout) Hlt).
    apply wait_loop_returned. }
  split; by vm_compute.
Qed.

Lemma wait_for_test_containers_witness :
  ["xq-keeper"] ≠ ([] : list string) ∧
  waitForTestContainers 5000 ["xq-keeper"]
    [(0, PsOutput ps_up); (2000, PsOutput ps_exited_0)] = WaitTrue 2.
Proof.
  split; [done|].
  apply (proj1 (wait_for_test_containers 5000 ["xq-keeper"]
                  [(0, PsOutput ps_up); (2000, PsOutput ps_exited_0)] ltac:(done))).
  exists [(0, PsOutput ps_up)], 2000, ps_exited_0, [].
  assert (poll_statuses ["xq-keeper"] ps_exited_0 =
          [{| cs_service := "xq-keeper"; cs_status := "xq-keeper Exited (0)";
              cs_exitCode := Some 0; cs_exited := true |}]) as Hst by by vm_compute.
  split; [done|]. split.
  { constructor; [|constructor]. split; [done|]. by vm_compute. }
  split; [done|]. rewrite Hst. split.
  { split; [|split; [|done]].
    - intros name ->%list_elem_of_singleton. cbn. left.
    - by intros c ->%list_elem_of_singleton. }
  split; [|done]. by intros c ->%list_elem_of_singleton.
Defined.

Lemma judge_failed tracked statuses failed :
  judge tracked statuses = SomeFailed failed ->
  failed = filter (fun c => cs_exitCode c ≠ Some 0) statuses ∧
  ∀ c, c ∈ statuses -> cs_exited c = true.
Proof.
  unfold judge.
  destruct (forallb _ tracked); [|done]. cbn [andb].
  destruct (bool_decide (0 < length statuses)%nat); [|done]. cbn [andb].
  destruct (forallb cs_exited statuses) eqn:He; [|done]. cbn [andb].
  destruct (bool_decide (length statuses = length tracked)); [|done].
  case_bool_decide; [|done]. intros [= <-]. split; [done|].
  intros c Hc. rewrite forallb_forall in He. by apply He, list_elem_of_In.
Qed.

Lemma line_entry_code line name :
  cs_exited (line_entry line name) = true ->
  cs_exitCode (line_entry line name) =
  match exit_code_match (cs_status (line_entry line name)) with
  | Some digits => Js.parseInt10 digits
  | None => Some 0
  end.
Proof.
  unfold line_entry.
  by destruct (Js.includes "Exited" (line_status line name)
               || Js.includes "exited" (line_status line name)).
Qed.

(** C10: a status that contains [Exited] or [exited] but no exit code of
    the form [Exited (n)] gives an exited entry with exit code 0; an
    entry reported as failed always has a parsed exit code other than 0;
    and when no status of any poll has a parsable exit code the wait
    never returns the failure of a container, only true, a timeout, or
    no result yet.  A status [exited (1)] in lower case is read as exit
    code 0 and the wait returns true. *)
Theorem unparsable_exit_status_counts_as_success :
  (∀ line name,
     Js.includes "Exited" (line_status line name) = true ∨
     Js.includes "exited" (line_status line name) = true ->
     exit_code_match (line_status line name) = None ->
     line_entry line name =
       {| cs_service := name; cs_status := line_status line name;
          cs_exitCode := Some 0; cs_exited := true |}) ∧
  (∀ tracked stdout failed c,
     judge tracked (poll_statuses tracked stdout) = SomeFailed failed ->
     c ∈ failed ->
     ∃ digits, exit_code_match (cs_status c) = Some digits ∧
               cs_exitCode c = Js.parseInt10 digits ∧ cs_exitCode c ≠ Some 0) ∧
  (∀ timeout tracked observed,
     (∀ elapsed stdout c,
        (elapsed, PsOutput stdout) ∈ observed -> c ∈ poll_statuses tracked stdout ->
        exit_code_match (cs_status c) = None) ->
     (∀ k failed, waitForTestContainers timeout tracked observed ≠ WaitFalse k failed) ∧
     ((∃ k, waitForTestContainers timeout tracked observed = WaitTrue k) ∨
      (∃ k, waitForTestContainers timeout tracked observed = WaitTimedOut k) ∨
      waitForTestContainers timeout tracked observed = WaitGoesOn)) ∧
  (poll_statuses ["xq-keeper"] ps_lowercase_exit =
     [{| cs_service := "xq-keeper"; cs_status := "xq-keeper exited (1)";
         cs_exitCode := Some 0; cs_exited := true |}] ∧
   waitForTestContainers 600000 ["xq-keeper"] [(0, PsOutput ps_lowercase_exit)] =
     WaitTrue 1).
Proof.
  assert (∀ tracked stdout failed c,
     judge tracked (poll_statuses tracked stdout) = SomeFailed failed ->
     c ∈ failed ->
     ∃ digits, exit_code_match (cs_status c) = Some digits ∧
               cs_exitCode c = Js.parseInt10 digits ∧ cs_exitCode c ≠ Some 0) as Hfailed.
  { intros tracked stdout failed c [-> Hexited]%judge_failed
      [Hnz Hc]%list_elem_of_filter.
    pose proof (Hexited c Hc) as He.
    apply poll_statuses_entry in Hc as (line & name & _ & _ & ->).
    pose proof (line_entry_code line name He) as Hcode.
    destruct (exit_code_match (cs_status (line_entry line name))) as [digits|];
      [|done].
    exists digits. by rewrite <- Hcode. }
  split.
  { intros line name Hex Hnone. unfold line_entry.
    assert (Js.includes "Exited" (line_status line name)
            || Js.includes "exited" (line_status line name) = true) as ->
      by by apply orb_true_iff.
    by rewrite Hnone. }
  split; [done|].
  split; [|split; by vm_compute].
  intros timeout tracked observed Hnone.
  assert (∀ k failed, waitForTestContainers timeout tracked observed ≠ WaitFalse k failed)
    as Hnever.
  { intros k failed Hr. destruct tracked as [|t tracked]; [done|].
    cbn [waitForTestContainers] in Hr.
    pose proof (wait_loop_spec timeout (t :: tracked) 0 observed) as Hspec.
    rewrite Hr in Hspec.
    destruct Hspec as (before & elapsed & stdout & rest & -> & _ & _ & Hj & _).
    pose proof (judge_complete (t :: tracked) (poll_statuses (t :: tracked) stdout)
                  ltac:(done)) as (_ & _ & Hf).
    apply Hf in Hj as Hj'. destruct Hj' as (_ & Hne & _).
    destruct failed as [|c failed]; [done|].
    destruct (Hfailed _ _ _ c Hj) as (digits & Hd & _); [left|].
    pose proof (judge_failed _ _ _ Hj) as [Heq _].
    assert (c ∈ poll_statuses (t :: tracked) stdout) as Hc.
    { assert (c ∈ c :: failed) as H by left. rewrite Heq in H.
      by apply list_elem_of_filter in H as [_ ?]. }
    rewrite (Hnone elapsed stdout c) in Hd; [done| |done].
    apply elem_of_app. right. left. }
  split; [done|].
  destruct (waitForTestContainers timeout tracked observed) as [k|k failed|k|] eqn:E;
    eauto.
  by destruct (Hnever k failed).
Qed.

(** ** Facts about the string primitives *)

Lemma string_app_cons a (s t : string) : String a s +:+ t = String a (s +:+ t).
Proof. done. Qed.

Lemma string_length_app (s t : string) :
  String.length (s +:+ t) = (String.length s + String.length t)%nat.
Proof. induction s as [|a s IH]; [done|]. rewrite string_app_cons. simpl. by rewrite IH. Qed.

Lemma string_rev_app_spec (s t : string) :
  String.rev_app s t = String.rev s +:+ t.
Proof.
  unfold String.rev. revert t. induction s as [|a s IH]; intros t; [done|].
  simpl. rewrite IH, (IH (String a "")), string_app_assoc. done.
Qed.

Lemma string_rev_cons a (s : string) : String.rev (String a s) = String.rev s +:+ String a "".
Proof. unfold String.rev at 1. simpl. by rewrite string_rev_app_spec. Qed.

Lemma string_rev_app (s t : string) :
  String.rev (s +:+ t) = String.rev t +:+ String.rev s.
Proof.
  induction s as [|a s IH].
  - change ("" +:+ t) with t. change (String.rev "") with "". by rewrite string_app_nil_r.
  - rewrite string_app_cons, !string_rev_cons, IH. by rewrite string_app_assoc.
Qed.

Lemma string_rev_involutive (s : string) : String.rev (String.rev s) = s.
Proof.
  induction s as [|a s IH]; [done|].
  rewrite string_rev_cons, string_rev_app, IH. done.
Qed.

Lemma startsWith_spec (p s : string) :
  Js.startsWith p s = true <-> ∃ t, s = p +:+ t.
Proof.
  revert s. induction p as [|a p IH]; intros s.
  - split; [|done]. intros _. by exists s.
  - destruct s as [|b s]; simpl.
    + split; [done|]. by intros [t ?].
    + rewrite andb_true_iff, bool_decide_eq_true, IH. split.
      * intros [-> [t ->]]. by exists t.
      * intros [t Ht]. rewrite string_app_cons in Ht. injection Ht as -> ->. eauto.
Qed.

Lemma endsWith_spec (p s : string) :
  Js.endsWith p s = true <-> ∃ t, s = t +:+ p.
Proof.
  unfold Js.endsWith. rewrite startsWith_spec. split.
  - intros [t Ht]. exists (String.rev t).
    rewrite <- (string_rev_involutive s), Ht, string_rev_app.
    by rewrite string_rev_involutive.
  - intros [t ->]. exists (String.rev t). by rewrite string_rev_app.
Qed.

Lemma substring_app_start (s t : string) :
  String.substring 0 (String.length s) (s +:+ t) = s.
Proof. induction s as [|a s IH]; [by destruct t|]. rewrite string_app_cons. simpl. by rewrite IH. Qed.

Lemma drop_end_app (s p : string) : Js.drop_end (String.length p) (s +:+ p) = s.
Proof.
  unfold Js.drop_end. rewrite string_length_app.
  replace (String.length s + String.length p - String.length p)%nat
    with (String.length s) by lia.
  apply substring_app_start.
Qed.

Lemma substring_prefix n (s : string) :
  ∃ t, s = String.substring 0 n s +:+ t.
Proof.
  revert s. induction n as [|n IH]; intros s.
  - exists s. by destruct s.
  - destruct s as [|a s]; [by exists ""|]. simpl.
    destruct (IH s) as [t Ht]. exists t. by rewrite string_app_cons, <- Ht.
Qed.

(** ** The service loader: file names and listings *)

(** X2: the service name derived from a file name is the file name
    without its [.service.yml] or [.service.yaml] ending, whatever the
    rest of the name is; a file name with neither ending is its own
    service name. *)
Theorem derived_service_name (name filename : string) :
  deriveServiceName (name +:+ ".service.yml") = name ∧
  deriveServiceName (name +:+ ".service.yaml") = name ∧
  (¬ is_service_file filename -> deriveServiceName filename = filename) ∧
  (is_service_file filename -> deriveServiceName filename ≠ filename) ∧
  (∃ ending, filename = deriveServiceName filename +:+ ending ∧
             ending ∈ [""; ".service.yml"; ".service.yaml"]).
Proof.
  assert (∀ n, Js.endsWith ".service.yml" (n +:+ ".service.yml") = true) as Hyml.
  { intros n. apply endsWith_spec. by exists n. }
  assert (∀ n, Js.endsWith ".service.yaml" (n +:+ ".service.yaml") = true) as Hyaml.
  { intros n. apply endsWith_spec. by exists n. }
  assert (∀ n, Js.endsWith ".service.yml" (n +:+ ".service.yaml") = false) as Hno.
  { intros n. unfold Js.endsWith. rewrite string_rev_app.
    change (String.rev ".service.yaml") with "lmay.ecivres.".
    change (String.rev ".service.yml") with "lmy.ecivres.". done. }
  assert (∀ f ending, Js.endsWith ending f = true ->
            f = Js.drop_end (String.length ending) f +:+ ending) as Hdrop.
  { intros f ending [t ->]%endsWith_spec. by rewrite drop_end_app. }
  split; [|split; [|split; [|split]]].
  - unfold deriveServiceName. rewrite Hyml.
    apply (drop_end_app name ".service.yml").
  - unfold deriveServiceName. rewrite Hno, Hyaml.
    apply (drop_end_app name ".service.yaml").
  - intros Hnot. unfold deriveServiceName.
    destruct (Js.endsWith ".service.yml" filename) eqn:E1; [destruct Hnot; by left|].
    destruct (Js.endsWith ".service.yaml" filename) eqn:E2; [destruct Hnot; by right|].
    done.
  - intros Hsvc Heq. unfold deriveServiceName in Heq.
    destruct (Js.endsWith ".service.yml" filename) eqn:E1.
    { apply Hdrop in E1. cbn [String.length] in E1. rewrite Heq in E1. apply (f_equal String.length) in E1.
      rewrite string_length_app in E1. simpl in E1. lia. }
    destruct (Js.endsWith ".service.yaml" filename) eqn:E2.
    { apply Hdrop in E2. cbn [String.length] in E2. rewrite Heq in E2. apply (f_equal String.length) in E2.
      rewrite string_length_app in E2. simpl in E2. lia. }
    destruct Hsvc; congruence.
  - unfold deriveServiceName.
    destruct (Js.endsWith ".service.yml" filename) eqn:E1.
    { exists ".service.yml". split; [by apply (Hdrop _ ".service.yml")|]. set_solver. }
    destruct (Js.endsWith ".service.yaml" filename) eqn:E2.
    { exists ".service.yaml". split; [by apply (Hdrop _ ".service.yaml")|]. set_solver. }
    exists "". rewrite string_app_nil_r. split; [done|]. set_solver.
Qed.

Lemma file_order_total {A} :
  Total (fun x y : string * A => String.le x.1 y.1).
Proof. intros x y. apply (total String.le). Qed.

Lemma file_order_trans {A} :
  Transitive (fun x y : string * A => String.le x.1 y.1).
Proof. intros x y z. apply (transitivity (R:=String.le)). Qed.

(** X3: the service files of a listing are the entries whose name ends
    in [.service.yml] or [.service.yaml], each as often as the listing
    has it, in ascending order of their names: every entry is at most
    every later one. *)
Theorem scanned_files_are_sorted {A} (files : list (string * A)) :
  scanServiceFiles files ≡ₚ filter (fun f => is_service_file f.1) files ∧
  (∀ f, f ∈ scanServiceFiles files <-> f ∈ files ∧ is_service_file f.1) ∧
  StronglySorted (fun x y => String.le x.1 y.1) (scanServiceFiles files) ∧
  (∀ i j x y, scanServiceFiles files !! i = Some x ->
              scanServiceFiles files !! j = Some y -> (i < j)%nat ->
              String.le x.1 y.1) ∧
  (scanServiceFiles files = [] <-> ∀ f, f ∈ files -> ¬ is_service_file f.1).
Proof.
  assert (scanServiceFiles files ≡ₚ filter (fun f => is_service_file f.1) files) as Hperm.
  { unfold scanServiceFiles. apply merge_sort_Permutation. }
  assert (∀ f, f ∈ scanServiceFiles files <-> f ∈ files ∧ is_service_file f.1) as Hin.
  { intros f. rewrite Hperm, list_elem_of_filter. tauto. }
  assert (StronglySorted (fun x y : string * A => String.le x.1 y.1)
            (scanServiceFiles files)) as Hsorted.
  { unfold scanServiceFiles.
    apply (@StronglySorted_merge_sort _ _ _ file_order_trans file_order_total). }
  split; [done|]. split; [done|]. split; [done|]. split.
  - intros i j x y Hi Hj Hlt. clear Hperm Hin.
    revert i j Hi Hj Hlt. induction Hsorted as [|z l Hl IH Hall]; intros i j Hi Hj Hlt.
    { by rewrite lookup_nil in Hi. }
    destruct j as [|j]; [lia|]. simpl in Hj. destruct i as [|i].
    + injection Hi as ->. rewrite Forall_forall in Hall.
      apply Hall. by eapply list_elem_of_lookup_2.
    + simpl in Hi. apply (IH i j); [done..|lia].
  - split.
    + intros Hnil f Hf Hsvc. assert (f ∈ scanServiceFiles files) as H by by apply Hin.
      rewrite Hnil in H. by apply elem_of_nil in H.
    + intros Hnone. destruct (scanServiceFiles files) as [|f l] eqn:E; [done|].
      assert (f ∈ f :: l) as H by left. apply Hin in H as [H1 H2].
      by destruct (Hnone f H1).
Qed.

Lemma names_are_new_nil acc : names_are_new acc [].
Proof. intros pre fd post H. by destruct pre. Qed.

Lemma names_are_new_cons acc fd datas :
  names_are_new acc (fd :: datas) <->
  has_property (declared_name fd.1 fd.2) acc = false ∧
  names_are_new (acc ++ [merged_entry fd]) datas.
Proof.
  split.
  - intros H. split.
    + specialize (H [] fd datas eq_refl). by rewrite app_nil_r in H.
    + intros pre fd' post ->. specialize (H (fd :: pre) fd' post eq_refl).
      by rewrite fmap_cons, cons_middle, app_assoc in H.
  - intros [H1 H2] pre fd' post Heq. destruct pre as [|x pre].
    + injection Heq as <- <-. by rewrite app_nil_r.
    + injection Heq as <- ->. specialize (H2 pre fd' post eq_refl).
      by rewrite fmap_cons, cons_middle, app_assoc.
Qed.

Lemma has_property_new {A} k (v : A) (o : list (string * A)) :
  has_property k o = false -> obj_set k v o = o ++ [(k, v)].
Proof.
  unfold has_property. intros [H _]%orb_false_iff.
  apply bool_decide_eq_false in H. apply obj_set_absent.
  by rewrite <- obj_get_is_Some.
Qed.

Lemma merge_files_parsed datas acc :
  names_are_new acc datas ->
  merge_files (parsed_file <$> datas) acc = Returns (acc ++ (merged_entry <$> datas)).
Proof.
  revert acc. induction datas as [|[f d] datas IH]; intros acc Hnew.
  - by rewrite app_nil_r.
  - apply names_are_new_cons in Hnew as [Hfd Hnew]. cbn [fmap list_fmap parsed_file merge_files fst snd].
    change (match file_name_field d with
            | Some n => if bool_decide (n = "") then deriveServiceName f else n
            | None => deriveServiceName f
            end) with (declared_name f d).
    cbn [fst snd] in Hfd. rewrite Hfd, (has_property_new _ _ _ Hfd).
    change (declared_name f d, file_config d) with (merged_entry (f, d)).
    rewrite (IH _ Hnew). by rewrite <- app_assoc.
Qed.

Lemma merge_files_spec files acc :
  match merge_files files acc with
  | Returns svcs =>
      ∃ datas, files = parsed_file <$> datas ∧ names_are_new acc datas ∧
               svcs = acc ++ (merged_entry <$> datas)
  | Throws e =>
      ∃ pre f c post,
        files = (parsed_file <$> pre) ++ (f, c) :: post ∧ names_are_new acc pre ∧
        file_error (acc ++ (merged_entry <$> pre)) f c e
  | Unfinished => False
  end.
Proof.
  revert acc. induction files as [|[f c] files IH]; intros acc.
  - exists []. split; [done|]. split; [apply names_are_new_nil|]. by rewrite app_nil_r.
  - cbn [merge_files]. destruct c as [|[d|]].
    + exists [], f, Unparsable, files. split; [done|]. split; [apply names_are_new_nil|done].
    + change (match file_name_field d with
              | Some n => if bool_decide (n = "") then deriveServiceName f else n
              | None => deriveServiceName f
              end) with (declared_name f d).
      destruct (has_property (declared_name f d) acc) eqn:Hp.
      * exists [], f, (Parsed (Some d)), files. split; [done|].
        split; [apply names_are_new_nil|]. split; [done|]. rewrite app_nil_r.
        unfold has_property in Hp. apply orb_true_iff in Hp as [Hp|Hp].
        -- left. by apply bool_decide_eq_true in Hp.
        -- right. by apply bool_decide_eq_true in Hp.
      * rewrite (has_property_new _ _ _ Hp). specialize (IH (acc ++ [(declared_name f d, file_config d)])).
        destruct (merge_files files _) as [svcs|e|].
        -- destruct IH as (datas & -> & Hnew & ->). exists ((f, d) :: datas).
           split; [done|]. split; [by apply names_are_new_cons|].
           by rewrite fmap_cons, <- app_assoc.
        -- destruct IH as (pre & f' & c' & post & -> & Hnew & Herr).
           exists ((f, d) :: pre), f', c', post. split; [done|].
           split; [by apply names_are_new_cons|].
           by rewrite fmap_cons, cons_middle, app_assoc.
        -- done.
    + exists [], f, (Parsed None), files. split; [done|]. split; [apply names_are_new_nil|done].
Qed.


Lemma merge_files_app pre rest acc :
  names_are_new acc pre ->
  merge_files ((parsed_file <$> pre) ++ rest) acc =
  merge_files rest (acc ++ (merged_entry <$> pre)).
Proof.
  revert acc. induction pre as [|[f d] pre IH]; intros acc Hnew.
  - by rewrite app_nil_r.
  - apply names_are_new_cons in Hnew as [Hfd Hnew].
    cbn [fmap list_fmap parsed_file merge_files fst snd app].
    change (match file_name_field d with
            | Some n => if bool_decide (n = "") then deriveServiceName f else n
            | None => deriveServiceName f
            end) with (declared_name f d).
    cbn [fst snd] in Hfd. rewrite Hfd, (has_property_new _ _ _ Hfd).
    change (declared_name f d, file_config d) with (merged_entry (f, d)).
    rewrite (IH _ Hnew). by rewrite <- app_assoc.
Qed.

Lemma merge_files_file_error svcs f content post e :
  file_error svcs f content e ->
  merge_files ((f, content) :: post) svcs = Throws e.
Proof.
  destruct content as [|[d|]]; cbn [merge_files file_error].
  - by intros ->.
  - change (match file_name_field d with
            | Some n => if bool_decide (n = "") then deriveServiceName f else n
            | None => deriveServiceName f
            end) with (declared_name f d).
    intros [-> Htaken]. unfold has_property.
    destruct Htaken as [H|H].
    + by rewrite (bool_decide_true _ H).
    + by rewrite (bool_decide_true (_ ∈ _) H), orb_true_r.
  - by intros ->.
Qed.

Lemma parsed_file_nil datas : parsed_file <$> datas = [] <-> datas = [].
Proof. by destruct datas. Qed.

Lemma loadGlobalConfig_cases config :
  (∃ c, loadGlobalConfig config = Returns c) ∨
  (∃ f, config = Some (f, Unparsable) ∧ loadGlobalConfig config = Throws (ParseFailure f)).
Proof. destruct config as [[f [|[c|]]]|]; simpl; eauto. Qed.


(** X5: a directory load never runs out of the bound of the model, and
    it fails exactly in one of four ways, in this order: the listing has
    no service file; the global config cannot be parsed; a service file
    cannot be parsed, is empty, or declares a name that an earlier file
    declared or that is a member inherited from [Object.prototype], the
    files before it (in ascending order of names) being merged without
    error; or all files are merged and the dependency validation fails,
    with an error that is true of the merged services.  Files after the
    one that fails play no part. *)
Theorem directory_load_failures
    (files : list (string * parsed service_file))
    (config : option (string * parsed global_config)) :
  loadFromDirectory files config ≠ Unfinished ∧
  (∀ e, loadFromDirectory files config = Throws e <-> load_failure files config e).
Proof.
  split.
  - unfold loadFromDirectory, mergeServiceFiles.
    destruct (scanServiceFiles files) as [|f0 fs]; [done|].
    destruct (loadGlobalConfig config) as [c|e|] eqn:Hc; [|done|].
    + pose proof (merge_files_spec (f0 :: fs) []) as Hspec.
      destruct (merge_files (f0 :: fs) []) as [svcs|e|]; [|done..].
      pose proof (validateDependencies_spec svcs) as Hv.
      by destruct (validateDependencies svcs) as [[]|e|].
    + by destruct (loadGlobalConfig_cases config) as [[c Hc']|(f & _ & Hc')]; rewrite Hc in Hc'.
  - intros e. unfold loadFromDirectory, mergeServiceFiles, load_failure.
    destruct (scanServiceFiles files) as [|f0 fs] eqn:Hscan.
    { split.
      - intros [= <-]. by left.
      - intros [[_ ->]|[[Hne _]|[H|H]]]; [done|done|..].
        + destruct H as (c & pre & f & content & post & _ & Heq & _). by destruct pre.
        + destruct H as (c & datas & _ & Heq & Hne & _).
          symmetry in Heq. by apply parsed_file_nil in Heq. }
    destruct (loadGlobalConfig_cases config) as [[c Hc]|(f & Hcfg & Hc)]; rewrite Hc.
    + pose proof (merge_files_spec (f0 :: fs) []) as Hspec.
      destruct (merge_files (f0 :: fs) []) as [svcs|e'|] eqn:Hm; [| |done].
      * destruct Hspec as (datas & Hfiles & Hnew & ->). rewrite app_nil_l.
        pose proof (validateDependencies_spec (merged_entry <$> datas)) as Hv.
        split.
        -- intros Hthrow. right. right. right. exists c, datas.
           split; [done|]. split; [done|]. split; [by intros ->|]. split; [done|].
           destruct (validateDependencies (merged_entry <$> datas)) as [[]|e'|]; [done| |done].
           injection Hthrow as ->. done.
        -- intros [[? _]|[(_ & f & Hcfg & _)|[H|H]]]; [done| |..].
           ++ rewrite Hcfg in Hc. done.
           ++ destruct H as (c' & pre & f & content & post & _ & Heq & Hnew' & Herr).
              rewrite Heq, (merge_files_app _ _ _ Hnew'), app_nil_l in Hm.
              by rewrite (merge_files_file_error _ _ _ _ _ Herr) in Hm.
           ++ destruct H as (c' & datas' & _ & Heq & _ & Hnew' & Hv' & _).
              rewrite Hfiles in Heq.
              assert (datas = datas') as <-.
              { revert Heq. clear. revert datas'.
                induction datas as [|[f d] datas IH]; intros [|[f' d'] datas'] Heq;
                  try done.
                injection Heq as -> -> Heq. f_equal. by apply IH. }
              by rewrite Hv'.
      * destruct Hspec as (pre & f & content & post & Hfiles & Hnew & Herr).
        rewrite app_nil_l in Herr. split.
        -- intros [= <-]. right. right. left. exists c, pre, f, content, post. done.
        -- intros [[? _]|[(_ & f' & Hcfg & _)|[H|H]]]; [done| |..].
           ++ rewrite Hcfg in Hc. done.
           ++ destruct H as (c' & pre' & f' & content' & post' & _ & Heq & Hnew' & Herr').
              rewrite Heq, (merge_files_app _ _ _ Hnew'), app_nil_l in Hm.
              rewrite (merge_files_file_error _ _ _ _ _ Herr') in Hm. congruence.
           ++ destruct H as (c' & datas' & _ & Heq & _ & Hnew' & _).
              rewrite Heq, merge_files_parsed in Hm by done. done.
    + split.
      * intros [= <-]. right. left. split; [done|]. eauto.
      * intros [[? _]|[(_ & f' & Hcfg' & ->)|[H|H]]]; [done| |..].
        -- rewrite Hcfg in Hcfg'. by injection Hcfg' as ->.
        -- by destruct H as (c' & _ & _ & _ & _ & Hc' & _).
        -- by destruct H as (c' & _ & Hc' & _).
Qed.

(** ** Numbers in port mappings: printing and reading back *)

Lemma string_forall_nil P : string_forall P "".
Proof. constructor. Qed.

Lemma string_forall_cons P a s :
  string_forall P (String a s) <-> P a ∧ string_forall P s.
Proof. unfold string_forall. simpl. apply Forall_cons. Qed.


Lemma string_forall_impl (P Q : ascii -> Prop) s :
  (∀ a, P a -> Q a) -> string_forall P s -> string_forall Q s.
Proof. intros HPQ H. by eapply Forall_impl. Qed.

Lemma pretty_N_char_digit d :
  (d < 10)%N -> Js.digit_value 10 (pretty_N_char d) = Some (Z.of_N d).
Proof.
  intros Hd.
  assert (d = 0 ∨ d = 1 ∨ d = 2 ∨ d = 3 ∨ d = 4 ∨ d = 5 ∨ d = 6 ∨ d = 7 ∨ d = 8 ∨ d = 9)%N
    as H by lia.
  by repeat (destruct H as [->|H]); try subst d.
Qed.

Lemma pretty_N_go_app x s t : pretty_N_go x s +:+ t = pretty_N_go x (s +:+ t).
Proof.
  revert s. induction (N.lt_wf_0 x) as [x _ IH]; intros s.
  destruct (decide (x = 0)%N) as [->|Hx]; [by rewrite !pretty_N_go_0|].
  rewrite (pretty_N_go_step x s), (pretty_N_go_step x (s +:+ t)) by lia.
  by rewrite IH by (apply N.div_lt; lia).
Qed.

Lemma pretty_N_go_forall (P : ascii -> Prop) x s :
  (∀ d, (d < 10)%N -> P (pretty_N_char d)) ->
  string_forall P s -> string_forall P (pretty_N_go x s).
Proof.
  intros HP. revert s. induction (N.lt_wf_0 x) as [x _ IH]; intros s Hs.
  destruct (decide (x = 0)%N) as [->|Hx]; [by rewrite pretty_N_go_0|].
  rewrite pretty_N_go_step by lia. apply IH; [apply N.div_lt; lia|].
  apply string_forall_cons. split; [|done]. apply HP. by apply N.mod_lt.
Qed.

(** Reading the digits of a positive number multiplies what was read
    before by a power of ten and adds the number. *)
Lemma read_digits_pretty_go x :
  (0 < x)%N ->
  ∃ m, ∀ acc s,
    Js.read_digits 10 acc (pretty_N_go x s) =
    Js.read_digits 10 (Some (from_option id 0 acc * m + Z.of_N x)) s.
Proof.
  induction (N.lt_wf_0 x) as [x _ IH]. intros Hx.
  pose proof (N.div_mod x 10 ltac:(done)) as Hdm.
  pose proof (N.mod_lt x 10 ltac:(done)) as Hmod.
  destruct (decide (x `div` 10 = 0)%N) as [Hsmall|Hbig].
  - exists 10. intros acc s. rewrite pretty_N_go_step, Hsmall, pretty_N_go_0 by done.
    cbn [Js.read_digits]. rewrite pretty_N_char_digit by done.
    do 3 f_equal. lia.
  - destruct (IH (x `div` 10)%N) as [m Hm]; [apply N.div_lt; lia|lia|].
    exists (m * 10). intros acc s. rewrite pretty_N_go_step, Hm by done.
    cbn [Js.read_digits]. rewrite pretty_N_char_digit by done.
    do 2 f_equal. cbn [from_option id]. lia.
Qed.

Lemma read_digits_stop acc s :
  match s with
  | "" => True
  | String a _ => Js.digit_value 10 a = None
  end ->
  Js.read_digits 10 acc s = acc.
Proof. destruct s as [|a s]; [done|]. simpl. by intros ->. Qed.

Lemma read_digits_pretty_N (x : N) rest :
  match rest with
  | "" => True
  | String a _ => Js.digit_value 10 a = None
  end ->
  Js.read_digits 10 None (pretty x +:+ rest) = Some (Z.of_N x).
Proof.
  intros Hrest. unfold pretty, pretty_N. case_decide as Hx.
  - subst x. rewrite string_app_cons, string_app_nil_l. cbn [Js.read_digits].
    change (Js.digit_value 10 "0") with (Some 0). cbv iota.
    by rewrite read_digits_stop.
  - destruct (read_digits_pretty_go x) as [m Hm]; [lia|].
    rewrite pretty_N_go_app, string_app_nil_l, Hm. by rewrite read_digits_stop.
Qed.

Lemma pretty_N_digits (x : N) :
  string_forall (fun a => is_Some (Js.digit_value 10 a)) (pretty x).
Proof.
  unfold pretty, pretty_N. case_decide.
  - apply string_forall_cons. split; [by eexists|apply string_forall_nil].
  - apply pretty_N_go_forall; [|apply string_forall_nil].
    intros d Hd. rewrite pretty_N_char_digit by done. by eexists.
Qed.

(** A string that begins with a digit is not white space, has no sign,
    and is a hexadecimal literal only if it begins with [0x] or [0X]. *)
Lemma digit_cases a :
  is_Some (Js.digit_value 10 a) ->
  Js.is_ws a = false ∧ a ≠ "-"%char ∧ a ≠ "+"%char ∧ a ≠ "x"%char ∧ a ≠ "X"%char ∧
  a ≠ ":"%char ∧ a ≠ "/"%char.
Proof.
  destruct a as [[] [] [] [] [] [] [] []]; intros [d Hd]; try done.
Qed.

Lemma parse_digits_plain (body : string) :
  string_forall (fun a => is_Some (Js.digit_value 10 a)) body ->
  Js.skip_ws body = body ∧ Js.read_sign body = (1, body) ∧
  match body with
  | String "0" (String "x" body') | String "0" (String "X" body') =>
      Js.read_digits 16 None body'
  | _ => Js.read_digits 10 None body
  end = Js.read_digits 10 None body.
Proof.
  destruct body as [|a body]; [done|].
  intros [Ha Hbody]%string_forall_cons.
  destruct (digit_cases a Ha) as (Hws & Hminus & Hplus & _).
  split; [by simpl; rewrite Hws|].
  split.
  { destruct a as [[] [] [] [] [] [] [] []]; try done. }
  destruct body as [|b body].
  { destruct a as [[] [] [] [] [] [] [] []]; try done. }
  apply string_forall_cons in Hbody as [Hb _].
  destruct (digit_cases b Hb) as (_ & _ & _ & Hx & HX & _).
  destruct a as [[] [] [] [] [] [] [] []]; try done.
  destruct b as [[] [] [] [] [] [] [] []]; try done.
Qed.

Lemma parse_positive (x : N) :
  Js.parseInt (pretty x) = Some (Z.of_N x) ∧ Js.parseInt10 (pretty x) = Some (Z.of_N x).
Proof.
  destruct (parse_digits_plain (pretty x) (pretty_N_digits x)) as (Hws & Hsign & Hhex).
  pose proof (read_digits_pretty_N x "" I) as Hread. rewrite string_app_nil_r in Hread.
  unfold Js.parseInt, Js.parseInt10. rewrite Hws, Hsign, Hhex, Hread.
  split; simpl; f_equal; lia.
Qed.

(** The text of an integer reads back as the integer. *)
Lemma parseInt_of_num (n : Z) :
  Js.parseInt (Js.of_num n) = Some n ∧ Js.parseInt10 (Js.of_num n) = Some n.
Proof.
  unfold Js.of_num, pretty, pretty_Z. destruct n as [|p|p].
  - done.
  - change (pretty p) with (pretty (N.pos p)).
    destruct (parse_positive (N.pos p)) as [-> ->]. done.
  - change (pretty p) with (pretty (N.pos p)).
    destruct (parse_digits_plain _ (pretty_N_digits (N.pos p))) as (Hws & Hsign & Hhex).
    pose proof (read_digits_pretty_N (N.pos p) "" I) as Hread.
    rewrite string_app_nil_r in Hread.
    unfold Js.parseInt, Js.parseInt10.
    change (Js.skip_ws ("-" +:+ pretty (N.pos p))) with ("-" +:+ pretty (N.pos p)).
    change (Js.read_sign ("-" +:+ pretty (N.pos p))) with (-1, pretty (N.pos p)).
    cbv beta iota zeta. rewrite Hhex, Hread. done.
Qed.

(** The text of an integer has no colon and no slash. *)
Lemma of_num_chars (n : Z) :
  string_forall (fun a => a ≠ ":"%char ∧ a ≠ "/"%char) (Js.of_num n).
Proof.
  assert (∀ x : N, string_forall (fun a => a ≠ ":"%char ∧ a ≠ "/"%char) (pretty x)) as HN.
  { intros x. eapply string_forall_impl; [|apply pretty_N_digits].
    intros a Ha. by destruct (digit_cases a Ha) as (_ & _ & _ & _ & _ & ? & ?). }
  unfold Js.of_num, pretty, pretty_Z. destruct n as [|p|p].
  - apply string_forall_cons. split; [done|apply string_forall_nil].
  - apply (HN (N.pos p)).
  - apply string_forall_cons. split; [done|apply (HN (N.pos p))].
Qed.

(** ** Splitting at a character *)

Lemma split_on_cons c s : ∃ w ws, Js.split_on c s = w :: ws.
Proof.
  induction s as [|a s IH]; simpl; [eauto|].
  case_bool_decide; [eauto|]. destruct IH as (w & ws & ->). eauto.
Qed.

Lemma split_on_none c s :
  string_forall (fun a => a ≠ c) s -> Js.split_on c s = [s].
Proof.
  induction s as [|a s IH]; [done|]. intros [Ha Hs]%string_forall_cons.
  simpl. rewrite bool_decide_false by done. by rewrite IH.
Qed.

Lemma split_on_first c s t :
  string_forall (fun a => a ≠ c) s ->
  Js.split_on c (s +:+ String c t) = s :: Js.split_on c t.
Proof.
  induction s as [|a s IH].
  - intros _. rewrite string_app_nil_l. simpl. by rewrite bool_decide_true.
  - intros [Ha Hs]%string_forall_cons. rewrite string_app_cons. simpl.
    rewrite bool_decide_false by done. by rewrite IH.
Qed.

Lemma split_on_app c s t :
  ∃ ws w, Js.split_on c (s +:+ String c t) = ws ++ w :: Js.split_on c t.
Proof.
  induction s as [|a s IH].
  - exists [], "". rewrite string_app_nil_l. simpl. by rewrite bool_decide_true.
  - rewrite string_app_cons. simpl. destruct IH as (ws & w & ->).
    case_bool_decide.
    + exists ("" :: ws), w. done.
    + destruct ws as [|w' ws]; [exists [], (String a w)|exists (String a w' :: ws), w]; done.
Qed.

Lemma split_on_last c s t :
  string_forall (fun a => a ≠ c) t ->
  (1 < length (Js.split_on c (s +:+ String c t)))%nat ∧
  last (Js.split_on c (s +:+ String c t)) = Some t.
Proof.
  intros Ht. destruct (split_on_app c s t) as (ws & w & ->).
  rewrite (split_on_none c t Ht). split.
  - rewrite length_app. simpl. lia.
  - change (ws ++ [w; t]) with (ws ++ [w] ++ [t]).
    by rewrite (assoc_L (++) ws [w] [t]), last_snoc.
Qed.

(** ** Port mappings read back *)

Lemma string_forall_weaken_colon s :
  string_forall (fun a => a ≠ ":"%char ∧ a ≠ "/"%char) s ->
  string_forall (fun a => a ≠ ":"%char) s ∧ string_forall (fun a => a ≠ "/"%char) s.
Proof. intros H. split; (eapply string_forall_impl; [|done]); by intros a [??]. Qed.

Lemma host_port_of_num (h : Z) (rest : string) :
  host_port (Js.of_num h) = Some h ∧
  host_port (Js.of_num h +:+ ":" +:+ rest) = Some h.
Proof.
  destruct (string_forall_weaken_colon _ (of_num_chars h)) as [Hcolon _].
  unfold host_port. split.
  - rewrite (split_on_none _ _ Hcolon). apply parseInt_of_num.
  - change (":" +:+ rest) with (String ":" rest).
    rewrite (split_on_first _ _ _ Hcolon). apply parseInt_of_num.
Qed.

Lemma container_port_after_colon (host : string) (c : Z) (rest : list string) :
  extractContainerPort (Some ((host +:+ ":" +:+ Js.of_num c) :: rest)) = c.
Proof.
  unfold extractContainerPort.
  destruct (string_forall_weaken_colon _ (of_num_chars c)) as [Hc Hs].
  change (":" +:+ Js.of_num c) with (String ":" (Js.of_num c)).
  destruct (split_on_last ":" host _ Hc) as [Hlen Hlast].
  rewrite bool_decide_true by done. rewrite Hlast. cbn [from_option id].
  rewrite (split_on_none _ _ Hs). cbn [hd]. by destruct (parseInt_of_num c) as [_ ->].
Qed.


(** ** Host ports of the compiled document *)

Lemma elem_of_host_ports c h :
  h ∈ host_ports c <-> ∃ m, m ∈ default [] (c_ports c) ∧ host_port m = Some h.
Proof. unfold host_ports. rewrite list_elem_of_omap. naive_solver. Qed.

Lemma wants_auto_port_cases s :
  (∃ p, wants_auto_port s = Some p ∧ port s = Some p ∧ p ≠ 0 ∧ autoPort s ≠ Some false) ∨
  wants_auto_port s = None.
Proof.
  unfold wants_auto_port. destruct (port s) as [p|]; [|by right].
  destruct (p =? 0) eqn:Hp; [by right|]. apply Z.eqb_neq in Hp.
  case_bool_decide; [by right|]. left. eauto.
Qed.

(** The ports a conversion records as used are those recorded before
    and the host ports of the entry it returns. *)
Lemma convert_used_ports s deps used cur h :
  h ∈ (convertServiceToCompose s deps used cur).2 <->
  h ∈ used ∨ h ∈ host_ports (convertServiceToCompose s deps used cur).1.
Proof.
  rewrite elem_of_host_ports. destruct (ports s) as [mappings|] eqn:Hports.
  - destruct (convert_explicit_ports s deps used cur mappings Hports) as [-> ->].
    by rewrite track_ports_spec.
  - destruct (wants_auto_port_cases s) as [(p & _ & Hp & Hp0 & Hauto)|Hnone].
    + destruct (convert_auto_port s deps used cur p Hports Hp Hp0 Hauto) as [-> ->].
      cbn [default id]. rewrite elem_of_union, elem_of_singleton. split.
      * intros [->|?]; [|by left]. right. eexists. split; [left|].
        apply host_port_of_num.
      * intros [?|(m & ->%list_elem_of_singleton & Hm)]; [by right|]. left.
        destruct (host_port_of_num (first_free used cur) (Js.of_num p)) as [_ Hh].
        rewrite Hh in Hm. by injection Hm.
    + destruct (convert_no_port s deps used cur Hports Hnone) as [-> ->].
      cbn [default id]. split; [by left|]. intros [?|(m & Hm & _)]; [done|].
      by apply elem_of_nil in Hm.
Qed.

Lemma state_after_snoc sp done name s :
  state_after sp (done ++ [(name, s)]) =
  compile_entry (from_option id [] (dependencies sp)) (state_after sp done) (name, s).
Proof. unfold state_after. by rewrite foldl_app. Qed.

(** The entry compiled for a service at its turn. *)
Lemma used_ports_state_after sp done h :
  h ∈ used_ports (state_after sp done) <->
  ∃ pre name s post,
    done = pre ++ (name, s) :: post ∧
    h ∈ host_ports (convertServiceToCompose s (from_option id [] (dependencies sp))
                      (used_ports (state_after sp pre))
                      (next_port (state_after sp pre))).1.
Proof.
  induction done as [|[name s] done IH] using rev_ind.
  - split; [by intros ?%elem_of_empty|]. intros (pre & n & s & post & Heq & _).
    by destruct pre.
  - rewrite state_after_snoc, compile_entry_used, convert_used_ports, IH. split.
    + intros [(pre & n & s' & post & -> & Hh)|Hh].
      * exists pre, n, s', (post ++ [(name, s)]). by rewrite <- app_assoc.
      * exists done, name, s, []. done.
    + intros (pre & n & s' & post & Heq & Hh).
      destruct post as [|x post _] using rev_ind.
      * apply app_inj_tail in Heq as [-> [= -> ->]]. by right.
      * rewrite app_comm_cons, app_assoc in Heq. apply app_inj_tail in Heq as [-> _].
        left. eauto 10.
Qed.

Lemma next_port_monotone sp done :
  initial_port sp ≤ next_port (state_after sp done).
Proof.
  induction done as [|[name s] done IH] using rev_ind; [done|].
  rewrite state_after_snoc, compile_entry_next. case_bool_decide; [done|].
  destruct (first_free_spec (used_ports (compile_entry (from_option id [] (dependencies sp))
                                           (state_after sp done) (name, s)))
              (next_port (state_after sp done) + 1)) as [Hle _].
  lia.
Qed.

Lemma compiled_entry_at sp pre name s post :
  NoDup (services sp).*1 ->
  services sp = pre ++ (name, s) :: post ->
  obj_get name (compiled (compile_services sp)) =
  Some (convertServiceToCompose s (from_option id [] (dependencies sp))
          (used_ports (state_after sp pre)) (next_port (state_after sp pre))).1.
Proof.
  intros Hnodup Heq. apply (compile_services_at sp pre name s post Heq).
  rewrite Heq, fmap_app, fmap_cons in Hnodup.
  apply NoDup_app in Hnodup as (_ & _ & Hnodup). by apply NoDup_cons in Hnodup as [? _].
Qed.

(** X7: a service with a [port] and no [ports], auto-assignment not
    disabled, is published on the smallest host port, from the cursor
    on, that is not a host port of a service compiled before it; so it
    never shares its host port with an earlier service, auto-assigned or
    not.  The port is at or above the start of the port range, and the
    mapping written for it reads back as this host port and the
    service's own port. *)
Theorem auto_port_avoids_earlier_services (sp : spec)
    (done rest : list (string * service)) (name : string) (s : service) (p : Z) :
  NoDup (services sp).*1 ->
  services sp = done ++ (name, s) :: rest ->
  ports s = None -> port s = Some p -> p ≠ 0 -> autoPort s ≠ Some false ->
  ∃ h c,
    obj_get name (compiled (compile_services sp)) = Some c ∧
    c_ports c = Some [Js.of_num h +:+ ":" +:+ Js.of_num p] ∧
    host_ports c = [h] ∧ extractContainerPort (c_ports c) = p ∧
    initial_port sp ≤ next_port (state_after sp done) ≤ h ∧
    (∀ name' c',
       name' ∈ done.*1 -> obj_get name' (compiled (compile_services sp)) = Some c' ->
       h ∉ host_ports c') ∧
    (∀ q, next_port (state_after sp done) ≤ q < h ->
          ∃ name' c',
            name' ∈ done.*1 ∧
            obj_get name' (compiled (compile_services sp)) = Some c' ∧
            q ∈ host_ports c').
Proof.
  intros Hnodup Heq Hports Hp Hp0 Hauto.
  set (deps := from_option id [] (dependencies sp)).
  set (st := state_after sp done).
  destruct (convert_auto_port s deps (used_ports st) (next_port st) p Hports Hp Hp0 Hauto)
    as [Hc _].
  destruct (first_free_spec (used_ports st) (next_port st)) as (Hle & Hfree & Hmin).
  assert (∀ pre n s' post,
            done = pre ++ (n, s') :: post ->
            obj_get n (compiled (compile_services sp)) =
            Some (convertServiceToCompose s' deps (used_ports (state_after sp pre))
                    (next_port (state_after sp pre))).1) as Hat.
  { intros pre n s' post ->. apply (compiled_entry_at sp pre n s' (post ++ (name, s) :: rest));
      [done|]. by rewrite Heq, <- app_assoc. }
  exists (first_free (used_ports st) (next_port st)),
    (convertServiceToCompose s deps (used_ports st) (next_port st)).1.
  split; [by apply (compiled_entry_at sp done name s rest)|].
  split; [done|]. split.
  { unfold host_ports. rewrite Hc. cbn [default id omap list_omap].
    by destruct (host_port_of_num (first_free (used_ports st) (next_port st)) (Js.of_num p))
      as [_ ->]. }
  split.
  { rewrite Hc. apply container_port_after_colon. }
  split; [split; [apply next_port_monotone|done]|]. split.
  - intros name' c' Hin Hc' Hh. apply Hfree, used_ports_state_after.
    apply list_elem_of_fmap in Hin as ([n s'] & -> & Hin).
    apply list_elem_of_split in Hin as (pre & post & Hdone).
    exists pre, n, s', post. split; [done|]. cbn [fst] in Hc'.
    rewrite (Hat pre n s' post Hdone) in Hc'. by injection Hc' as <-.
  - intros q Hq. apply Hmin in Hq.
    apply used_ports_state_after in Hq as (pre & n & s' & post & Hdone & Hq).
    eexists n, _. split; [|split; [by apply (Hat pre n s' post)|done]].
    rewrite Hdone, fmap_app, fmap_cons. apply elem_of_app. right. left.
Qed.

Lemma auto_port_avoids_earlier_services_witness :
  ∃ h c,
    obj_get "api" (compiled (compile_services spec_api_db)) = Some c ∧
    c_ports c = Some [Js.of_num h +:+ ":" +:+ Js.of_num 3000] ∧
    host_ports c = [h] ∧ extractContainerPort (c_ports c) = 3000 ∧
    4000 ≤ h.
Proof.
  destruct (auto_port_avoids_earlier_services spec_api_db [] 
              [("db", db_service); ("postgres", plain_service None)]
              "api" api_service 3000)
    as (h & c & H1 & H2 & H3 & H4 & [H5 H6] & _).
  - simpl. repeat constructor; set_solver.
  - reflexivity.
  - reflexivity.
  - reflexivity.
  - lia.
  - simpl. congruence.
  - exists h, c. split; [done|]. split; [done|]. split; [done|]. split; [done|].
    assert (next_port (state_after spec_api_db []) = 4000) as Hn by reflexivity.
    rewrite Hn in H6. done.
Defined.

(** ** The gateway entry and the shape of the document *)

Lemma compiled_foldl_NoDup deps l st :
  NoDup (obj_keys (compiled st)) ->
  NoDup (obj_keys (compiled (foldl (compile_entry deps) st l))).
Proof.
  revert st. induction l as [|[name s] l IH]; intros st Hst; [done|].
  cbn [foldl]. apply IH. rewrite compile_entry_compiled. by apply obj_keys_set_NoDup.
Qed.

Lemma compiled_NoDup sp : NoDup (obj_keys (compiled (compile_services sp))).
Proof. apply compiled_foldl_NoDup. constructor. Qed.

Lemma compiled_foldl_order deps l st :
  NoDup l.*1 -> (∀ n, n ∈ l.*1 -> n ∉ obj_keys (compiled st)) ->
  obj_keys (compiled (foldl (compile_entry deps) st l)) = obj_keys (compiled st) ++ l.*1.
Proof.
  revert st. induction l as [|[name s] l IH]; intros st Hnodup Hnew.
  - by rewrite app_nil_r.
  - rewrite fmap_cons in Hnodup, Hnew. apply NoDup_cons in Hnodup as [Hname Hnodup].
    cbn [foldl]. rewrite IH; [|done|].
    + rewrite compile_entry_compiled, obj_keys_set_out by (apply Hnew; left).
      by rewrite <- app_assoc.
    + intros n Hn. rewrite compile_entry_compiled, obj_keys_set_elem.
      intros [->|Hin]; [done|]. apply (Hnew n); [by right|done].
Qed.

Lemma compiled_order sp :
  NoDup (services sp).*1 -> obj_keys (compiled (compile_services sp)) = (services sp).*1.
Proof.
  intros Hnodup. unfold compile_services.
  rewrite compiled_foldl_order; [done..|]. intros n _ Hn. by apply elem_of_nil in Hn.
Qed.

Lemma compiled_nonempty sp :
  services sp ≠ [] -> (0 < length (obj_keys (compiled (compile_services sp))))%nat.
Proof.
  intros Hne. destruct (services sp) as [|[n s] l] eqn:Hs; [done|].
  assert (n ∈ obj_keys (compiled (compile_services sp))) as Hin.
  { apply compile_services_keys. rewrite Hs. left. }
  destruct (obj_keys (compiled (compile_services sp))); [by apply elem_of_nil in Hin|].
  simpl. lia.
Qed.

Lemma compiled_empty sp : services sp = [] -> compiled (compile_services sp) = [].
Proof. unfold compile_services. by intros ->. Qed.




(** X9: the document.  Its version is 3.8 and its one network is the
    bridge [xq-network], to which every compiled service is attached.
    The services are compiled in the order of the specification, one
    entry per service under the service's name.  Without the gateway,
    or for a specification without services, the document has these
    entries only and no proxy configuration is written.  With the
    gateway and at least one service, the gateway entry comes last,
    unless a service is itself named [xq-gateway]: then the gateway
    entry takes the place of that service's entry. *)
Theorem compose_document_shape (nginxConfigPath : string) (sp : spec) :
  (∀ enableGateway,
     version (generateComposeObject nginxConfigPath sp enableGateway).1 = "3.8" ∧
     networks (generateComposeObject nginxConfigPath sp enableGateway).1 =
       [("xq-network", "bridge")]) ∧
  (∀ name c, obj_get name (compiled (compile_services sp)) = Some c ->
             c_networks c = ["xq-network"]) ∧
  (NoDup (services sp).*1 ->
   obj_keys (compiled (compile_services sp)) = (services sp).*1) ∧
  (∀ enableGateway,
     enableGateway = false ∨ services sp = [] ->
     generateComposeObject nginxConfigPath sp enableGateway =
       ({| version := "3.8";
           compose_services := compiled (compile_services sp);
           networks := [("xq-network", "bridge")] |}, None)) ∧
  (services sp ≠ [] ->
   (generateComposeObject nginxConfigPath sp true).2 =
     Some (generateNginxConfig
             (servicesWithRoutes (compiled (compile_services sp)) (services sp))) ∧
   (∀ name, name ≠ gateway_name ->
      obj_get name (compose_services (generateComposeObject nginxConfigPath sp true).1) =
      obj_get name (compiled (compile_services sp)))) ∧
  (NoDup (services sp).*1 -> services sp ≠ [] ->
   obj_keys (compose_services (generateComposeObject nginxConfigPath sp true).1) =
     if bool_decide (gateway_name ∈ (services sp).*1) then (services sp).*1
     else (services sp).*1 ++ [gateway_name]).
Proof.
  split; [|split; [|split; [|split; [|split]]]].
  - intros enableGateway. unfold generateComposeObject.
    by destruct (enableGateway && _); [destruct (addGateway _ _ _)|].
  - intros name c Hc.
    apply compile_services_origin in Hc as (s & used & cur & _ & ->).
    unfold convertServiceToCompose. destruct (ports s); [done|].
    by destruct (wants_auto_port s).
  - apply compiled_order.
  - intros enableGateway Hoff. unfold generateComposeObject.
    destruct Hoff as [->|Hnil]; [done|].
    rewrite (compiled_empty sp Hnil). cbn [obj_keys fmap list_fmap length].
    rewrite bool_decide_false by lia. by rewrite andb_false_r.
  - intros Hne. pose proof (compiled_nonempty sp Hne) as Hlen.
    unfold generateComposeObject, addGateway. cbn [andb].
    rewrite bool_decide_true by done. cbn [fst snd compose_services].
    split; [done|]. intros name Hname. by rewrite obj_get_set_ne.
  - intros Hnodup Hne. pose proof (compiled_nonempty sp Hne) as Hlen.
    unfold generateComposeObject, addGateway. cbn [andb].
    rewrite bool_decide_true by done. cbn [fst compose_services].
    rewrite <- (compiled_order sp Hnodup). case_bool_decide as Hgw.
    + by apply obj_keys_set_in.
    + by apply obj_keys_set_out.
Qed.

(** ** The proxy configuration: the gateway's own entry, and location patterns *)

Lemma foldl_skipping {B C} (skip : C -> bool) (f : B -> C -> B) (acc : B) (l : list C) :
  foldl (fun a c => if skip c then a else f a c) acc l =
  foldl f acc (filter (fun c => skip c = false) l).
Proof.
  revert acc. induction l as [|c l IH]; intros acc; [done|].
  cbn [foldl]. rewrite filter_cons. destruct (skip c) eqn:Hc.
  - rewrite decide_False by done. apply IH.
  - rewrite decide_True by done. cbn [foldl]. apply IH.
Qed.

Lemma filter_filter_same {C} (P : C -> Prop) `{!∀ c, Decision (P c)} (l : list C) :
  filter P (filter P l) = filter P l.
Proof.
  induction l as [|c l IH]; [done|]. rewrite filter_cons.
  destruct (decide (P c)); [|done]. rewrite filter_cons, decide_True by done.
  by rewrite IH.
Qed.

Lemma not_gateway_filter (servicesMap : list (string * gateway_service)) :
  filter (fun e => bool_decide (e.1 = gateway_name) = false) servicesMap =
  filter (fun e => e.1 ≠ gateway_name) servicesMap.
Proof.
  induction servicesMap as [|e l IH]; [done|]. rewrite !filter_cons, IH.
  destruct (decide (e.1 = gateway_name)) as [He|He].
  - rewrite decide_False by by rewrite bool_decide_true.
    by rewrite decide_False by by intros ?.
  - rewrite decide_True by by rewrite bool_decide_false.
    by rewrite decide_True.
Qed.

Lemma parseRoutes_names servicesMap r :
  r ∈ parseRoutes servicesMap ->
  serviceName r ≠ gateway_name ∧ ∃ svc, (serviceName r, svc) ∈ servicesMap.
Proof.
  unfold parseRoutes.
  assert (∀ acc, r ∈ foldl (fun acc entry =>
                              if bool_decide (entry.1 = gateway_name) then acc
                              else service_routes entry.1 entry.2 acc) acc servicesMap ->
                 r ∈ acc ∨ (serviceName r ≠ gateway_name ∧
                            ∃ svc, (serviceName r, svc) ∈ servicesMap)) as H.
  { induction servicesMap as [|[name svc] l IH]; intros acc; [by left|].
    cbn [foldl fst snd]. intros Hr. apply IH in Hr as [Hr|(Hne & svc' & Hin)].
    - case_bool_decide as Hname; [by left|].
      unfold service_routes in Hr. destruct (g_routes svc) as [rules|]; [|by left].
      assert (∀ acc', r ∈ foldl (fun acc rule =>
                 match paths rule with
                 | Some ps =>
                     acc ++ [{| serviceName := name;
                                containerPort := extractContainerPort (g_ports svc);
                                route_methods := from_option id default_methods (methods rule);
                                route_paths := ps |}]
                 | None => acc
                 end) acc' rules -> r ∈ acc' ∨ serviceName r = name) as Hrules.
      { clear Hr. induction rules as [|rule rules IHr]; intros acc' Hr; [by left|].
        cbn [foldl] in Hr. apply IHr in Hr as [Hr|?]; [|by right].
        destruct (paths rule); [|by left].
        apply elem_of_app in Hr as [?| ->%list_elem_of_singleton]; [by left|by right]. }
      apply Hrules in Hr as [?|Hr]; [by left|]. right. rewrite Hr.
      split; [done|]. exists svc. left.
    - right. split; [done|]. exists svc'. by right. }
  intros Hr. apply H in Hr as [Hr|?]; [by apply elem_of_nil in Hr|done].
Qed.

(** X10: the gateway's own entry plays no part in the proxy
    configuration.  A map entry named [xq-gateway] gets no upstream, no
    fallback location and no route: the configuration is the one of the
    map without that entry, and every route names a service of the map
    other than the gateway. *)
Theorem gateway_entry_is_not_proxied (servicesMap : list (string * gateway_service)) :
  let others := filter (fun e => e.1 ≠ gateway_name) servicesMap in
  parseRoutes servicesMap = parseRoutes others ∧
  generateServiceNameLocations servicesMap = generateServiceNameLocations others ∧
  generateNginxConfig servicesMap = generateNginxConfig others ∧
  (∀ r, r ∈ parseRoutes servicesMap ->
        serviceName r ≠ gateway_name ∧ ∃ svc, (serviceName r, svc) ∈ servicesMap).
Proof.
  intros others.
  assert (∀ {B} (f : B -> string * gateway_service -> B) acc,
            foldl (fun a e => if bool_decide (e.1 = gateway_name) then a else f a e)
                  acc servicesMap =
            foldl (fun a e => if bool_decide (e.1 = gateway_name) then a else f a e)
                  acc others) as Hfold.
  { intros B f acc.
    rewrite !(foldl_skipping (fun e => bool_decide (e.1 = gateway_name)) f).
    rewrite !not_gateway_filter. unfold others. by rewrite filter_filter_same. }
  assert (parseRoutes servicesMap = parseRoutes others) as Hroutes.
  { unfold parseRoutes.
    apply (Hfold _ (fun acc entry => service_routes entry.1 entry.2 acc)). }
  assert (generateServiceNameLocations servicesMap = generateServiceNameLocations others)
    as Hlocations.
  { unfold generateServiceNameLocations. f_equal.
    apply (Hfold _ (fun locations entry =>
                      locations ++
                      ["    location /" +:+ entry.1 +:+ "/ {" +:+ Js.nl +:+
                       "        proxy_pass http://" +:+ entry.1 +:+ "_upstream/;" +:+ Js.nl +:+
                       proxy_headers +:+ "    }"])). }
  split; [done|]. split; [done|]. split; [|apply parseRoutes_names].
  unfold generateNginxConfig. rewrite <- Hroutes, <- Hlocations.
  rewrite (Hfold _ (fun ups entry =>
                      ups ++
                      ["upstream " +:+ entry.1 +:+ "_upstream {" +:+ Js.nl +:+
                       "    server " +:+ entry.1 +:+ ":" +:+
                       Js.of_num (extractContainerPort (g_ports entry.2)) +:+ ";" +:+ Js.nl +:+
                       "}"])).
  done.
Qed.

Lemma string_app_inj_r (s t u : string) : s +:+ u = t +:+ u -> s = t.
Proof.
  intros H. apply (f_equal String.rev) in H. rewrite !string_rev_app in H.
  apply (inj (String.app _)) in H.
  by rewrite <- (string_rev_involutive s), H, string_rev_involutive.
Qed.

Lemma escape_slashes_head (s r : string) : Js.escape_slashes s ≠ String "/" r.
Proof.
  destruct s as [|a s]; [done|]. simpl. case_bool_decide as Ha; [done|].
  intros [= Heq _]. done.
Qed.

Lemma escape_slashes_inj (s t : string) :
  Js.escape_slashes s = Js.escape_slashes t -> s = t.
Proof.
  revert t. induction s as [|a s IH]; intros [|b t]; simpl.
  - done.
  - by case_bool_decide.
  - by case_bool_decide.
  - case_bool_decide as Ha; case_bool_decide as Hb.
    + intros [= H]. subst. f_equal. by apply IH.
    + intros [= <- H]. by destruct (escape_slashes_head t (Js.escape_slashes s)).
    + intros [= -> H]. symmetry in H.
      by destruct (escape_slashes_head s (Js.escape_slashes t)).
    + intros [= -> H]. f_equal. by apply IH.
Qed.

Lemma nginx_path_wildcard (base : string) :
  convertToNginxPath (base +:+ "/*") = "~ ^" +:+ Js.escape_slashes base +:+ "(\/.*)?$".
Proof.
  unfold convertToNginxPath.
  assert (Js.endsWith "/*" (base +:+ "/*") = true) as -> by (apply endsWith_spec; eauto).
  pose proof (drop_end_app base "/*") as H. cbn [String.length] in H. by rewrite H.
Qed.

Lemma nginx_path_inj (p q : string) :
  convertToNginxPath p = convertToNginxPath q -> p = q.
Proof.
  assert (∀ s t, s +:+ "(\/|$)" ≠ t +:+ "(\/.*)?$") as Hmixed.
  { intros s t H. apply (f_equal String.rev) in H. rewrite !string_rev_app in H.
    change (String.rev "(\/|$)") with ")$|/\(" in H.
    change (String.rev "(\/.*)?$") with "$?)*./\(" in H. done. }
  unfold convertToNginxPath.
  destruct (Js.endsWith "/*" p) eqn:Hp; destruct (Js.endsWith "/*" q) eqn:Hq.
  - apply endsWith_spec in Hp as [bp ->]. apply endsWith_spec in Hq as [bq ->].
    pose proof (drop_end_app bp "/*") as H1. pose proof (drop_end_app bq "/*") as H2.
    cbn [String.length] in H1, H2. rewrite H1, H2.
    intros H. apply (inj (String.app _)) in H.
    apply string_app_inj_r, escape_slashes_inj in H. by subst.
  - intros H. apply (inj (String.app _)) in H. symmetry in H. by apply Hmixed in H.
  - intros H. apply (inj (String.app _)) in H. by apply Hmixed in H.
  - intros H. apply (inj (String.app _)) in H.
    by apply string_app_inj_r, escape_slashes_inj in H.
Qed.

(** X11: the location pattern of a path.  A path ending in [/*] gives
    the pattern of its base followed by any or no sub-path, every other
    path the pattern of the path itself with an optional trailing slash;
    every slash is escaped.  Two paths have the same pattern only if
    they are the same path, so the path blocks of a configuration have
    pairwise different patterns. *)
Theorem location_patterns_are_distinct :
  (∀ base, convertToNginxPath (base +:+ "/*") =
           "~ ^" +:+ Js.escape_slashes base +:+ "(\/.*)?$") ∧
  (∀ path, Js.endsWith "/*" path = false ->
           convertToNginxPath path = "~ ^" +:+ Js.escape_slashes path +:+ "(\/|$)") ∧
  (∀ p q, convertToNginxPath p = convertToNginxPath q <-> p = q) ∧
  (∀ rs, NoDup (convertToNginxPath <$> distinct_paths rs)).
Proof.
  split; [apply nginx_path_wildcard|]. split.
  { intros path Hpath. unfold convertToNginxPath. by rewrite Hpath. }
  split.
  { intros p q. split; [apply nginx_path_inj|by intros ->]. }
  intros rs. apply NoDup_fmap_2; [intros p q; apply nginx_path_inj|].
  apply set_elements_NoDup.
Qed.

(** ** Test-container detection *)

Lemma detect_by_name_filter services :
  detect_by_name services = filter looks_like_test services.
Proof.
  unfold detect_by_name.
  assert (∀ acc, foldl (fun testContainers serviceName =>
           let nameLower := toLowerCase serviceName in
           if Js.includes "keeper" nameLower then testContainers ++ [serviceName]
           else if Js.includes "e2e" nameLower then testContainers ++ [serviceName]
           else if Js.startsWith "test-" nameLower || bool_decide (nameLower = "test")
                then testContainers ++ [serviceName]
           else testContainers) acc services = acc ++ filter looks_like_test services) as H.
  { induction services as [|n l IH]; intros acc; [by rewrite app_nil_r|].
    cbn [foldl]. rewrite IH, filter_cons. cbv zeta.
    destruct (decide (looks_like_test n)) as [Hl|Hl]; unfold looks_like_test in Hl;
      destruct (Js.includes "keeper" (toLowerCase n)) eqn:E1;
      destruct (Js.includes "e2e" (toLowerCase n)) eqn:E2;
      destruct (Js.startsWith "test-" (toLowerCase n)) eqn:E3;
      cbn [orb]; try case_bool_decide;
      try (by rewrite <- app_assoc); try done; exfalso; naive_solver. }
  apply H.
Qed.

Lemma toLowerCase_app (s t : string) :
  toLowerCase (s +:+ t) = toLowerCase s +:+ toLowerCase t.
Proof. induction s as [|a s IH]; [done|]. rewrite string_app_cons. simpl. by rewrite IH. Qed.

Lemma first_match_spec baseName services :
  match first_match baseName services with
  | Some n =>
      ∃ before after, services = before ++ n :: after ∧ matches_base baseName n = true ∧
                      ∀ n', n' ∈ before -> matches_base baseName n' = false
  | None => ∀ n, n ∈ services -> matches_base baseName n = false
  end.
Proof.
  induction services as [|n l IH]; [by intros n ?%elem_of_nil|].
  cbn [first_match]. destruct (matches_base baseName n) eqn:Hn.
  - exists [], l. split; [done|]. split; [done|]. by intros n' ?%elem_of_nil.
  - destruct (first_match baseName l) as [m|].
    + destruct IH as (before & after & -> & Hm & Hbefore).
      exists (n :: before), after. split; [done|]. split; [done|].
      intros n' [->|?]%elem_of_cons; [done|by apply Hbefore].
    + intros n' [->|?]%elem_of_cons; [done|by apply IH].
Qed.

(** The lookup under the name with the [xq-] prefix finds nothing the
    loop has not found. *)
Lemma prefixed_name_is_matched baseName services :
  first_match baseName services = None -> "xq-" +:+ baseName ∉ services.
Proof.
  intros Hnone Hin. pose proof (first_match_spec baseName services) as H.
  rewrite Hnone in H. specialize (H _ Hin). unfold matches_base in H.
  rewrite (toLowerCase_app "xq-" baseName) in H.
  change (toLowerCase "xq-") with "xq-" in H.
  rewrite (bool_decide_true ("xq-" +:+ toLowerCase baseName = "xq-" +:+ toLowerCase baseName))
    in H by done.
  by rewrite orb_true_r in H.
Qed.

Lemma test_file_containers_fold services testFiles acc :
  foldl (test_file_container services) acc testFiles =
  acc ++ omap (fun testFile => first_match (test_base_name testFile) services) testFiles.
Proof.
  revert acc. induction testFiles as [|f l IH]; intros acc; [by rewrite app_nil_r|].
  cbn [foldl omap list_omap]. rewrite IH. unfold test_file_container. cbv zeta.
  destruct (first_match (test_base_name f) services) as [n|] eqn:Hf.
  - by rewrite <- app_assoc.
  - rewrite bool_decide_false; [done|]. by apply prefixed_name_is_matched.
Qed.

Lemma containers_of_test_files_aux (services files : list string) :
  filter (fun file => is_test_file file = true) files ≠ [] ->
  ∀ n, n ∈ detectTestContainers (Some services) (SourceDirectory files) ->
       ∃ testFile before after,
         testFile ∈ files ∧ is_test_file testFile = true ∧
         services = before ++ n :: after ∧
         matches_base (test_base_name testFile) n = true.
Proof.
  intros Hne n Hn.
  unfold detectTestContainers in Hn.
  destruct (filter (fun file => is_test_file file = true) files) as [|f l] eqn:E; [done|].
  rewrite test_file_containers_fold, app_nil_l in Hn.
  apply set_elements_spec in Hn as [Hn _]. apply list_elem_of_omap in Hn as (t & Ht & Hn).
  rewrite <- E in Ht. apply list_elem_of_filter in Ht as [Htest Ht].
  pose proof (first_match_spec (test_base_name t) services) as H. rewrite Hn in H.
  destruct H as (before & after & Heq & Hm & _). exists t, before, after. done.
Qed.

(** X12: the test containers detected from a source directory.  When
    the directory has test files and the compose file can be read, the
    result lists, without duplicates and in the order of the test files,
    the first service (in the order of the compose file) that matches
    each test file's base name; a test file that no service matches
    contributes nothing, and the lookup under the name with the [xq-]
    prefix never adds a container.  So every container detected is a
    service of the compose file, and there are at most as many as test
    files. *)
Theorem containers_of_test_files (services files : list string) :
  let testFiles := filter (fun file => is_test_file file = true) files in
  testFiles ≠ [] ->
  detectTestContainers (Some services) (SourceDirectory files) =
    set_elements []
      (omap (fun testFile => first_match (test_base_name testFile) services) testFiles) ∧
  NoDup (detectTestContainers (Some services) (SourceDirectory files)) ∧
  (length (detectTestContainers (Some services) (SourceDirectory files))
     ≤ length testFiles)%nat ∧
  (∀ n, n ∈ detectTestContainers (Some services) (SourceDirectory files) <->
        ∃ testFile before after,
          testFile ∈ files ∧ is_test_file testFile = true ∧
          services = before ++ n :: after ∧
          matches_base (test_base_name testFile) n = true ∧
          ∀ n', n' ∈ before -> matches_base (test_base_name testFile) n' = false).
Proof.
  intros testFiles Hne.
  set (found := omap (fun testFile => first_match (test_base_name testFile) services)
                     testFiles).
  assert (detectTestContainers (Some services) (SourceDirectory files) =
          set_elements [] found) as Hdetect.
  { unfold detectTestContainers. fold testFiles.
    destruct testFiles as [|f l] eqn:E; [done|].
    by rewrite test_file_containers_fold, app_nil_l. }
  rewrite Hdetect. split; [done|]. split; [apply set_elements_NoDup|]. split.
  - etrans; [apply sublist_length, set_elements_sublist|].
    unfold found. clear. induction testFiles as [|f l IH]; [done|].
    cbn [omap list_omap]. destruct (first_match _ _); simpl; lia.
  - intros n. rewrite set_elements_spec. unfold found. rewrite list_elem_of_omap.
    split.
    + intros [(f & Hf & Hn) _]. unfold testFiles in Hf.
      apply list_elem_of_filter in Hf as [Htest Hf].
      pose proof (first_match_spec (test_base_name f) services) as H. rewrite Hn in H.
      destruct H as (before & after & Heq & Hm & Hb). exists f, before, after. done.
    + intros (f & before & after & Hf & Htest & Heq & Hm & Hb).
      split; [|by intros ?%elem_of_nil]. exists f.
      split; [by apply list_elem_of_filter|].
      pose proof (first_match_spec (test_base_name f) services) as H.
      destruct (first_match (test_base_name f) services) as [m|].
      * destruct H as (before' & after' & Heq' & Hm' & Hb'). f_equal.
        rewrite Heq in Heq'.
        destruct (decide (length before = length before')) as [Hlen|Hlen].
        -- apply app_inj_1 in Heq'; [|done]. by destruct Heq' as [_ [= -> _]].
        -- assert (n ∈ before' ∨ m ∈ before) as [Hin|Hin].
           { clear -Heq' Hlen. revert before' Heq' Hlen.
             induction before as [|x before IH]; intros [|y before'] Heq' Hlen.
             - done.
             - injection Heq' as -> _. left. left.
             - injection Heq' as -> _. right. left.
             - injection Heq' as -> Heq'. simpl in Hlen.
               destruct (IH before' Heq') as [?|?]; [lia|left; by right|right; by right]. }
           ++ rewrite (Hb' _ Hin) in Hm. done.
           ++ rewrite (Hb _ Hin) in Hm'. done.
      * rewrite (H n) in Hm; [done|]. rewrite Heq. apply elem_of_app. right. left.
Qed.

Lemma containers_of_test_files_witness :
  filter (fun file => is_test_file file = true)
         ["keeper.test.yaml"; "api.service.yml"; "notes.txt"] ≠ [] ∧
  detectTestContainers (Some ["postgres"; "xq-keeper"; "api"])
    (SourceDirectory ["keeper.test.yaml"; "api.service.yml"; "notes.txt"]) =
    ["xq-keeper"].
Proof.
  split; [by vm_compute|].
  destruct (containers_of_test_files ["postgres"; "xq-keeper"; "api"]
              ["keeper.test.yaml"; "api.service.yml"; "notes.txt"]) as [-> _].
  - by vm_compute.
  - by vm_compute.
Defined.

Lemma includes_empty s : Js.includes "" s = true.
Proof. by destruct s. Qed.

(** X13: when test containers are detected, and from what.  Nothing is
    detected when the compose file cannot be read, or when the source
    directory can be listed and has no test file (the names of the
    services are then not looked at).  Without a source directory that
    can be listed, the containers are the services, in the order of the
    compose file, whose lower-cased name contains [keeper] or [e2e],
    starts with [test-] or is [test].  In every case the containers
    detected are services of the compose file, without duplicates.  A
    test file whose base name is empty selects the first service. *)
Theorem detection_modes :
  (∀ sourcePath, detectTestContainers None sourcePath = []) ∧
  (∀ composeServices files,
     (∀ file, file ∈ files -> is_test_file file = false) ->
     detectTestContainers composeServices (SourceDirectory files) = []) ∧
  (∀ services,
     detectTestContainers (Some services) NoSourcePath = filter looks_like_test services ∧
     detectTestContainers (Some services) SourceUnreadable =
       filter looks_like_test services ∧
     detectTestContainers (Some services) SourceNotDirectory =
       filter looks_like_test services) ∧
  (∀ services sourcePath n,
     n ∈ detectTestContainers (Some services) sourcePath -> n ∈ services) ∧
  (∀ services sourcePath,
     NoDup services -> NoDup (detectTestContainers (Some services) sourcePath)) ∧
  (∀ n rest, first_match "" (n :: rest) = Some n).
Proof.
  assert (∀ files, (∀ file, file ∈ files -> is_test_file file = false) ->
            filter (fun file => is_test_file file = true) files = []) as Hnone.
  { intros files Hfiles. induction files as [|f l IH]; [done|].
    rewrite filter_cons, decide_False.
    - apply IH. intros file Hfile. apply Hfiles. by right.
    - rewrite Hfiles by left. done. }
  split; [|split; [|split; [|split; [|split]]]].
  - intros [| | |files]; try done. unfold detectTestContainers.
    by destruct (filter _ files).
  - intros composeServices files Hfiles. unfold detectTestContainers.
    by rewrite (Hnone files Hfiles).
  - intros services. unfold detectTestContainers. by rewrite detect_by_name_filter.
  - intros services sourcePath n.
    destruct sourcePath as [| | |files];
      try (unfold detectTestContainers; rewrite detect_by_name_filter;
           by intros [_ ?]%list_elem_of_filter).
    destruct (filter (fun file => is_test_file file = true) files) as [|f l] eqn:E.
    { unfold detectTestContainers. rewrite E. by intros ?%elem_of_nil. }
    intros Hn. apply containers_of_test_files_aux in Hn
      as (_ & before & after & _ & _ & -> & _); [|by rewrite E].
    apply elem_of_app. right. left.
  - intros services sourcePath Hnodup.
    destruct sourcePath as [| | |files];
      try (unfold detectTestContainers; rewrite detect_by_name_filter;
           by apply NoDup_filter).
    unfold detectTestContainers.
    destruct (filter (fun file => is_test_file file = true) files); [constructor|].
    apply set_elements_NoDup.
  - intros n rest. cbn [first_match]. unfold matches_base.
    change (toLowerCase "") with "". by rewrite includes_empty, !orb_true_r.
Qed.

(** ** Registry login *)

Lemma given_Some v : given v = true <-> ∃ s, v = Some s ∧ s ≠ "".
Proof.
  destruct v as [s|]; simpl; [|naive_solver].
  rewrite negb_true_iff, bool_decide_eq_false. naive_solver.
Qed.

Lemma set_DOCKER_CONFIG_twice a b env :
  set_DOCKER_CONFIG a (set_DOCKER_CONFIG b env) = set_DOCKER_CONFIG a env.
Proof. done. Qed.

Lemma set_DOCKER_CONFIG_same a env :
  DOCKER_CONFIG env = Some a -> set_DOCKER_CONFIG a env = env.
Proof. destruct env. simpl. by intros ->. Qed.

Lemma child_events_settled ephemeral original events s env :
  s ≠ Pending ->
  (foldl (on_child_event ephemeral original) (s, env) events).1 = s.
Proof.
  revert s env. induction events as [|ev events IH]; intros s env Hs; [done|].
  cbn [foldl]. destruct ev as [|code]; cbn [on_child_event fst snd].
  - rewrite IH; by destruct s.
  - rewrite IH; by destruct s.
Qed.

Lemma child_events_result ephemeral original events env :
  (foldl (on_child_event ephemeral original) (Pending, env) events).1 =
  match events with
  | [] => Pending
  | ChildError :: _ => Rejected SpawnFailed
  | ChildExit code :: _ =>
      if bool_decide (code = Some 0) then Resolved else Rejected (LoginExited code)
  end.
Proof.
  destruct events as [|[|code] events]; [done|..]; cbn [foldl on_child_event fst snd settle].
  - by apply child_events_settled.
  - apply child_events_settled. by case_bool_decide.
Qed.

Lemma child_events_env ephemeral original events s env :
  (foldl (on_child_event ephemeral original) (s, env) events).2 =
  match original with
  | Some o => if ephemeral && has_exited events then set_DOCKER_CONFIG o env else env
  | None => env
  end.
Proof.
  revert s env. induction events as [|ev events IH]; intros s env.
  - destruct original; [|done]. by rewrite andb_false_r.
  - cbn [foldl]. destruct ev as [|code]; cbn [on_child_event fst snd]; rewrite IH.
    + by destruct original.
    + destruct original as [o|]; [|done].
      change (has_exited (ChildExit code :: events)) with true.
      destruct ephemeral; cbn [andb]; [|done].
      by destruct (has_exited events).
Qed.

Lemma login_started r u p ephemeral tempDockerConfig events env :
  r ≠ "" -> u ≠ "" -> p ≠ "" ->
  (ephemeral = true -> is_Some tempDockerConfig) ->
  let env1 := match tempDockerConfig with
              | Some temp => if ephemeral then set_DOCKER_CONFIG temp env else env
              | None => env
              end in
  login (Some r) (Some u) (Some p) ephemeral tempDockerConfig events env =
  {| run_result := (foldl (on_child_event ephemeral (DOCKER_CONFIG env))
                          (Pending, env1) events).1;
     run_env := (foldl (on_child_event ephemeral (DOCKER_CONFIG env))
                       (Pending, env1) events).2;
     run_call := Some {| call_args := ["login"; r; "--username"; u; "--password-stdin"];
                         call_stdin := p;
                         call_config := DOCKER_CONFIG env1 |} |}.
Proof.
  intros Hr Hu Hp Htemp env1. unfold login, given.
  rewrite !bool_decide_false by done. cbn [negb andb].
  destruct ephemeral.
  - destruct (Htemp eq_refl) as [temp ->]. unfold env1.
    by destruct (foldl _ _ events).
  - assert (env1 = env) as -> by (unfold env1; by destruct tempDockerConfig).
    by destruct (foldl _ _ events).
Qed.

Lemma login_not_started registry username password ephemeral tempDockerConfig events env :
  given registry && given username && given password = false ∨
  (ephemeral = true ∧ tempDockerConfig = None) ->
  run_call (login registry username password ephemeral tempDockerConfig events env) = None ∧
  run_env (login registry username password ephemeral tempDockerConfig events env) = env ∧
  run_result (login registry username password ephemeral tempDockerConfig events env) =
    Rejected (if given registry && given username && given password
              then EnsureDirFailed else MissingArguments).
Proof.
  intros H. unfold login.
  destruct registry as [r|], username as [u|], password as [p|];
    try (by cbn [given andb]; rewrite ?andb_false_r).
  destruct (given (Some r) && given (Some u) && given (Some p)) eqn:Hg.
  - destruct H as [?|[-> ->]]; done.
  - done.
Qed.

(** X14: the contract of [login].  [docker] is started only when
    registry, user name and password are all given and, for an
    ephemeral login, the temporary directory could be made; otherwise
    the login is rejected and the environment is untouched.  When it is
    started, it is called as [login <registry> --username <user>
    --password-stdin] with the password written to its standard input
    only, and the login is settled by the first event of the child:
    resolved for exit code 0, rejected for another exit or an error.  A
    login that is not ephemeral never changes the environment.  An
    ephemeral login runs [docker] under the temporary [DOCKER_CONFIG];
    the environment is back as it was once the child has exited if
    [DOCKER_CONFIG] was set before, and otherwise keeps the temporary
    [DOCKER_CONFIG]. *)
Theorem docker_login_contract (registry username password : option string)
    (ephemeral : bool) (tempDockerConfig : option string)
    (events : list child_event) (env : auth_env) :
  let run := login registry username password ephemeral tempDockerConfig events env in
  let complete := given registry && given username && given password in
  (run_call run = None <->
   complete = false ∨ (ephemeral = true ∧ tempDockerConfig = None)) ∧
  (run_call run = None ->
   run_env run = env ∧
   run_result run = Rejected (if complete then EnsureDirFailed else MissingArguments)) ∧
  (∀ call,
     run_call run = Some call ->
     ∃ r u p,
       registry = Some r ∧ username = Some u ∧ password = Some p ∧
       call_args call = ["login"; r; "--username"; u; "--password-stdin"] ∧
       call_stdin call = p ∧
       call_config call = (if ephemeral then tempDockerConfig else DOCKER_CONFIG env) ∧
       run_result run =
         match events with
         | [] => Pending
         | ChildError :: _ => Rejected SpawnFailed
         | ChildExit code :: _ =>
             if bool_decide (code = Some 0) then Resolved
             else Rejected (LoginExited code)
         end) ∧
  (ephemeral = false -> run_env run = env) ∧
  (∀ temp,
     ephemeral = true -> tempDockerConfig = Some temp -> is_Some (run_call run) ->
     run_env run =
       if has_exited events && bool_decide (is_Some (DOCKER_CONFIG env)) then env
       else set_DOCKER_CONFIG temp env).
Proof.
  intros run complete.
  destruct complete eqn:Hcomplete; unfold complete in Hcomplete.
  2:{ destruct (login_not_started registry username password ephemeral tempDockerConfig
                  events env) as (Hcall & Henv & Hres); [by left|].
      fold run in Hcall, Henv, Hres. rewrite Hcomplete in Hres.
      split; [split; [by left|done]|]. split; [done|].
      split; [intros call Hc; by rewrite Hcall in Hc|]. split; [done|].
      intros temp _ _ [call Hc]. by rewrite Hcall in Hc. }
  apply andb_true_iff in Hcomplete as [[Hr Hu]%andb_true_iff Hp].
  apply given_Some in Hr as (r & -> & Hr). apply given_Some in Hu as (u & -> & Hu).
  apply given_Some in Hp as (p & -> & Hp).
  destruct (decide (ephemeral = true ∧ tempDockerConfig = None)) as [[-> ->]|Htemp].
  { destruct (login_not_started (Some r) (Some u) (Some p) true None events env)
      as (Hcall & Henv & Hres); [by right|].
    fold run in Hcall, Henv, Hres.
    assert (given (Some r) && given (Some u) && given (Some p) = true) as Hg.
    { unfold given. by rewrite !bool_decide_false. }
    rewrite Hg in Hres.
    split; [split; [by right|done]|]. split; [done|].
    split; [intros call Hc; by rewrite Hcall in Hc|]. split; [done|]. done. }
  assert (ephemeral = true -> is_Some tempDockerConfig) as Hok.
  { intros ->. destruct tempDockerConfig; [by eexists|]. by destruct Htemp. }
  pose proof (login_started r u p ephemeral tempDockerConfig events env Hr Hu Hp Hok)
    as Hrun. cbv zeta in Hrun. fold run in Hrun.
  rewrite child_events_result, child_events_env in Hrun.
  split.
  { rewrite Hrun. cbn [run_call]. split; [done|]. intros [?|?]; done. }
  split; [by rewrite Hrun|]. split.
  { intros call Hc. rewrite Hrun in Hc. injection Hc as <-.
    exists r, u, p. split; [done|]. split; [done|]. split; [done|].
    split; [done|]. split; [done|]. split; [|by rewrite Hrun].
    cbn [call_config]. destruct ephemeral; [|by destruct tempDockerConfig].
    by destruct (Hok eq_refl) as [temp ->]. }
  split.
  { intros ->. rewrite Hrun. cbn [run_env andb].
    destruct (DOCKER_CONFIG env); by destruct tempDockerConfig. }
  intros temp -> -> _. rewrite Hrun. cbn [run_env andb].
  destruct (DOCKER_CONFIG env) as [o|] eqn:Ho.
  - rewrite bool_decide_true by by eexists. rewrite andb_true_r.
    destruct (has_exited events); [|done].
    rewrite set_DOCKER_CONFIG_twice. by apply set_DOCKER_CONFIG_same.
  - rewrite bool_decide_false by by intros [??]. by rewrite andb_false_r.
Qed.

Lemma docker_login_facts registry username password ephemeral tempDockerConfig
    events env :
  let run := login registry username password ephemeral tempDockerConfig events env in
  (run_call run = None ->
   given registry && given username && given password = false ∨
   (ephemeral = true ∧ tempDockerConfig = None)) ∧
  (∀ call, run_call run = Some call ->
     ∃ r u p,
       registry = Some r ∧ username = Some u ∧ password = Some p ∧
       call_args call = ["login"; r; "--username"; u; "--password-stdin"] ∧
       call_stdin call = p ∧
       call_config call = (if ephemeral then tempDockerConfig else DOCKER_CONFIG env)) ∧
  (ephemeral = false -> run_env run = env).
Proof.
  intros run.
  destruct (given registry && given username && given password) eqn:Hcomplete.
  2:{ destruct (login_not_started registry username password ephemeral tempDockerConfig
                  events env) as (Hcall & Henv & Hres); [by left|].
      fold run in Hcall, Henv, Hres.
      split; [by left|]. split; [intros call Hc; by rewrite Hcall in Hc|done]. }
  apply andb_true_iff in Hcomplete as [[Hr Hu]%andb_true_iff Hp].
  apply given_Some in Hr as (r & -> & Hr). apply given_Some in Hu as (u & -> & Hu).
  apply given_Some in Hp as (p & -> & Hp).
  destruct (decide (ephemeral = true ∧ tempDockerConfig = None)) as [[-> ->]|Htemp].
  { destruct (login_not_started (Some r) (Some u) (Some p) true None events env)
      as (Hcall & Henv & Hres); [by right|].
    fold run in Hcall, Henv, Hres.
    split; [by right|]. split; [intros call Hc; by rewrite Hcall in Hc|done]. }
  assert (ephemeral = true -> is_Some tempDockerConfig) as Hok.
  { intros ->. destruct tempDockerConfig; [by eexists|]. by destruct Htemp. }
  pose proof (login_started r u p ephemeral tempDockerConfig events env Hr Hu Hp Hok)
    as Hrun. cbv zeta in Hrun. fold run in Hrun.
  rewrite child_events_env in Hrun.
  split; [by rewrite Hrun|]. split.
  { intros call Hc. rewrite Hrun in Hc. injection Hc as <-.
    exists r, u, p. split; [done|]. split; [done|]. split; [done|].
    split; [done|]. split; [done|].
    cbn [call_config]. destruct ephemeral; [|by destruct tempDockerConfig].
    by destruct (Hok eq_refl) as [temp ->]. }
  intros ->. rewrite Hrun. cbn [run_env andb].
  destruct (DOCKER_CONFIG env); by destruct tempDockerConfig.
Qed.

Lemma loginFromEnv_credentials registry ephemeral tempDockerConfig events env :
  loginFromEnv registry ephemeral tempDockerConfig events env =
  if given (or_else (DOCKER_USERNAME env) (REGISTRY_USERNAME env)) &&
     given (or_else (DOCKER_PASSWORD env) (REGISTRY_PASSWORD env))
  then login registry (or_else (DOCKER_USERNAME env) (REGISTRY_USERNAME env))
             (or_else (DOCKER_PASSWORD env) (REGISTRY_PASSWORD env))
             ephemeral tempDockerConfig events env
  else {| run_result := Rejected NoEnvCredentials; run_env := env; run_call := None |}.
Proof. done. Qed.

Lemma or_else_cases a b :
  (given a = true ∧ or_else a b = a) ∨ (given a = false ∧ or_else a b = b).
Proof. unfold or_else. destruct (given a); [by left|by right]. Qed.

(** X15: where [autoLogin] takes the credentials from.  Under GitHub
    Actions, for the registry [ghcr.io] or one whose name contains
    [github], the password is [GITHUB_TOKEN] and the user is
    [GITHUB_ACTOR], or [github-actions] when that is not set: the
    [DOCKER_] and [REGISTRY_] variables are not read, a missing token
    rejects the login without a call of [docker], and the login is never
    ephemeral, so the environment stays as it is.  In every other case
    the user and the password are [DOCKER_USERNAME] and
    [DOCKER_PASSWORD], each replaced by its [REGISTRY_] variable when
    not set; without both, the login is rejected without a call of
    [docker]; and every rejection is wrapped as a failure of the
    automatic login.  A call of [docker] made by [loginGitHub] logs in
    to [ghcr.io] as [USERNAME_PLACEHOLDER] with the token as password. *)
Theorem auto_login_credentials (registry : string) (ephemeral : bool)
    (tempDockerConfig : option string) (events : list child_event) (env : auth_env) :
  let run := autoLogin registry ephemeral tempDockerConfig events env in
  (github_login registry env ->
   run_env run = env ∧
   (GITHUB_TOKEN env = None ∨ GITHUB_TOKEN env = Some "" ->
    run_result run = Rejected NoGitHubToken ∧ run_call run = None) ∧
   (∀ call, run_call run = Some call ->
      call_args call =
        ["login"; registry; "--username";
         default "github-actions" (or_else (GITHUB_ACTOR env) (Some "github-actions"));
         "--password-stdin"] ∧
      Some (call_stdin call) = GITHUB_TOKEN env ∧
      call_config call = DOCKER_CONFIG env) ∧
   (∀ token, GITHUB_TOKEN env = Some token -> token ≠ "" -> registry ≠ "" ->
      is_Some (run_call run))) ∧
  (¬ github_login registry env ->
   (∀ e, run_result run = Rejected e -> ∃ original, e = AutoLoginFailed original) ∧
   (given (or_else (DOCKER_USERNAME env) (REGISTRY_USERNAME env)) = false ∨
    given (or_else (DOCKER_PASSWORD env) (REGISTRY_PASSWORD env)) = false ->
    run_result run = Rejected (AutoLoginFailed NoEnvCredentials) ∧
    run_call run = None ∧ run_env run = env) ∧
   (∀ call, run_call run = Some call ->
      ∃ u p,
        or_else (DOCKER_USERNAME env) (REGISTRY_USERNAME env) = Some u ∧
        or_else (DOCKER_PASSWORD env) (REGISTRY_PASSWORD env) = Some p ∧
        call_args call = ["login"; registry; "--username"; u; "--password-stdin"] ∧
        call_stdin call = p)) ∧
  (∀ token call,
     run_call (loginGitHub token ephemeral tempDockerConfig events env) = Some call ->
     call_args call =
       ["login"; "ghcr.io"; "--username"; "USERNAME_PLACEHOLDER"; "--password-stdin"] ∧
     Some (call_stdin call) = token).
Proof.
  intros run.
  assert (∀ token call,
     run_call (loginGitHub token ephemeral tempDockerConfig events env) = Some call ->
     call_args call =
       ["login"; "ghcr.io"; "--username"; "USERNAME_PLACEHOLDER"; "--password-stdin"] ∧
     Some (call_stdin call) = token) as Hgh.
  { intros token call Hc. unfold loginGitHub in Hc.
    destruct (docker_login_facts (Some "ghcr.io") (Some "USERNAME_PLACEHOLDER") token
                ephemeral tempDockerConfig events env) as (_ & Hcall & _).
    apply Hcall in Hc as (r & u & p & [= <-] & [= <-] & -> & -> & -> & _). done. }
  assert (isInGitHubActions env &&
          (bool_decide (registry = "ghcr.io") || Js.includes "github" registry) = true
          <-> github_login registry env) as Hgithub.
  { unfold isInGitHubActions, github_login.
    rewrite andb_true_iff, orb_true_iff, !bool_decide_eq_true. done. }
  split; [|split; [|exact Hgh]].
  - intros Hg. assert (run = loginFromGitHubActions (Some registry) tempDockerConfig
                               events env) as Hrun.
    { unfold run, autoLogin. apply Hgithub in Hg. by rewrite Hg. }
    rewrite Hrun. unfold loginFromGitHubActions. cbn [default id].
    destruct (given (GITHUB_TOKEN env)) eqn:Htoken.
    + apply given_Some in Htoken as (token & Htoken & Hne).
      destruct (docker_login_facts (Some registry)
                  (or_else (GITHUB_ACTOR env) (Some "github-actions"))
                  (GITHUB_TOKEN env) false tempDockerConfig events env)
        as (Hnone & Hcall & Henv).
      split; [by apply Henv|]. split.
      { intros [H|H]; rewrite Htoken in H; congruence. }
      split.
      { intros call Hc. apply Hcall in Hc as (r & u & p & [= <-] & -> & Hp & -> & -> & ->).
        cbn [default id]. by rewrite Hp. }
      intros token' _ _ Hreg.
      destruct (run_call (login _ _ _ _ _ _ _)) eqn:Hc'; [by eexists|].
      destruct (Hnone eq_refl) as [Hc|[? _]]; [|done].
      assert (given (Some registry) = true) as Hg1.
      { unfold given. by rewrite bool_decide_false. }
      assert (given (or_else (GITHUB_ACTOR env) (Some "github-actions")) = true) as Hg2.
      { destruct (or_else_cases (GITHUB_ACTOR env) (Some "github-actions"))
          as [[? ->]|[_ ->]]; done. }
      assert (given (GITHUB_TOKEN env) = true) as Hg3.
      { apply given_Some. eauto. }
      by rewrite Hg1, Hg2, Hg3 in Hc.
    + cbn [run_env run_result run_call]. split; [done|]. split; [done|].
      split; [done|]. intros token Ht Hne _.
      assert (given (GITHUB_TOKEN env) = true) as H by (apply given_Some; eauto).
      congruence.
  - intros Hg. assert (isInGitHubActions env &&
                       (bool_decide (registry = "ghcr.io") || Js.includes "github" registry)
                       = false) as Hoff.
    { apply not_true_is_false. by rewrite Hgithub. }
    unfold run, autoLogin. rewrite Hoff, loginFromEnv_credentials.
    set (username := or_else (DOCKER_USERNAME env) (REGISTRY_USERNAME env)).
    set (password := or_else (DOCKER_PASSWORD env) (REGISTRY_PASSWORD env)).
    destruct (given username && given password) eqn:Hcred.
    + apply andb_true_iff in Hcred as [Hu Hp].
      destruct (docker_login_facts (Some registry) username password ephemeral
                  tempDockerConfig events env) as (Hnone & Hcall & Henv).
      set (inner := login (Some registry) username password ephemeral tempDockerConfig
                          events env) in *.
      split; [|split].
      * intros e. destruct (run_result inner) eqn:Hres; cbn [run_result];
          rewrite ?Hres; try done.
        intros [= <-]. eauto.
      * intros [H|H]; congruence.
      * intros call Hc.
        assert (run_call inner = Some call) as Hc'.
        { by destruct (run_result inner). }
        apply Hcall in Hc' as (r & u & p & [= <-] & Hu' & Hp' & Hargs & Hstdin & _).
        exists u, p. done.
    + cbn [run_result run_env run_call]. split; [|split].
      * intros e [= <-]. eauto.
      * done.
      * done.
Qed.

(** ** From the specification to the routes of the gateway *)

Lemma foldl_obj_set_fresh {B C} (f : string * B -> C) (l : list (string * B))
    (acc : list (string * C)) :
  NoDup (obj_keys acc ++ l.*1) ->
  foldl (fun m e => obj_set e.1 (f e) m) acc l = acc ++ ((fun e => (e.1, f e)) <$> l).
Proof.
  revert acc. induction l as [|e l IH]; intros acc Hnodup; [by rewrite app_nil_r|].
  cbn [foldl]. rewrite fmap_cons in Hnodup.
  assert (e.1 ∉ obj_keys acc) as Hfresh.
  { apply NoDup_app in Hnodup as (_ & Hdisj & _). intros Hin. apply (Hdisj _ Hin). left. }
  rewrite obj_set_absent by done. rewrite IH.
  - by rewrite <- app_assoc.
  - unfold obj_keys. rewrite fmap_app. cbn [fmap list_fmap fst].
    rewrite <- app_assoc. done.
Qed.

Lemma servicesWithRoutes_entries entries originalServices :
  NoDup (obj_keys entries) ->
  servicesWithRoutes entries originalServices =
  (fun e => (e.1, {| g_ports := c_ports e.2;
                     g_routes := obj_get e.1 originalServices ≫= routes |})) <$> entries.
Proof.
  intros Hnodup. unfold servicesWithRoutes.
  by rewrite (foldl_obj_set_fresh
                (fun e => {| g_ports := c_ports e.2;
                             g_routes := obj_get e.1 originalServices ≫= routes |})).
Qed.

(** X16: the routes the gateway serves are the route rules of the
    specification.  Every rule with paths, of every service not named
    [xq-gateway], gives one route, to the service's name and to the
    container port read off the service's compiled port mappings, with
    the rule's paths and its methods (all five when the rule has none);
    and there are no other routes.  For a service that is auto-assigned
    a host port, the container port of its routes is the service's own
    [port]. *)
Theorem routes_of_the_specification (sp : spec) :
  NoDup (services sp).*1 ->
  let entries := compiled (compile_services sp) in
  let servicesMap := servicesWithRoutes entries (services sp) in
  (∀ r, r ∈ parseRoutes servicesMap <->
        ∃ name s c rule ps,
          (name, s) ∈ services sp ∧ name ≠ gateway_name ∧
          obj_get name entries = Some c ∧
          rule ∈ default [] (routes s) ∧ paths rule = Some ps ∧
          r = {| serviceName := name;
                 containerPort := extractContainerPort (c_ports c);
                 route_methods := default default_methods (methods rule);
                 route_paths := ps |}) ∧
  (∀ name s c p,
     (name, s) ∈ services sp -> obj_get name entries = Some c ->
     ports s = None -> port s = Some p -> p ≠ 0 -> autoPort s ≠ Some false ->
     extractContainerPort (c_ports c) = p).
Proof.
  intros Hnodup entries servicesMap.
  pose proof (compiled_NoDup sp) as Hkeys. fold entries in Hkeys.
  pose proof (compiled_order sp Hnodup) as Horder. fold entries in Horder.
  split.
  - intros r. unfold servicesMap.
    rewrite (servicesWithRoutes_entries _ _ Hkeys), parseRoutes_emitted.
    rewrite list_elem_of_bind. split.
    + intros ([name svc] & Hr & Hentry).
      apply list_elem_of_fmap in Hentry as ([name' c] & [= -> ->] & Hentry).
      cbn [fst snd] in Hr. case_bool_decide as Hname; [by apply elem_of_nil in Hr|].
      apply list_elem_of_omap in Hr as (rule & Hrule & Hr). cbn [g_routes] in Hrule.
      destruct (obj_get name' (services sp)) as [s|] eqn:Hs;
        [|by apply elem_of_nil in Hrule].
      cbn [mbind option_bind] in Hrule.
      unfold emitted_route in Hr. cbn [g_ports] in Hr.
      destruct (paths rule) as [ps|] eqn:Hps; [|done]. injection Hr as <-.
      exists name', s, c, rule, ps. split; [by apply obj_get_elem_of|].
      split; [done|]. split; [by apply obj_get_NoDup|]. done.
    + intros (name & s & c & rule & ps & Hs & Hname & Hc & Hrule & Hps & ->).
      exists (name, {| g_ports := c_ports c;
                       g_routes := obj_get name (services sp) ≫= routes |}).
      split.
      * cbn [fst snd]. rewrite bool_decide_false by done.
        apply list_elem_of_omap. exists rule.
        rewrite (obj_get_NoDup name s (services sp) Hnodup Hs).
        split; [done|]. unfold emitted_route. by rewrite Hps.
      * apply list_elem_of_fmap. exists (name, c). split; [done|].
        by apply obj_get_elem_of.
  - intros name s c p Hs Hc Hports Hp Hp0 Hauto.
    apply compile_services_origin in Hc as (s' & used & cur & Hs' & ->).
    assert (s' = s) as ->.
    { apply (obj_get_NoDup name s' (services sp) Hnodup) in Hs'.
      apply (obj_get_NoDup name s (services sp) Hnodup) in Hs. congruence. }
    destruct (convert_auto_port s (from_option id [] (dependencies sp)) used cur p
                Hports Hp Hp0 Hauto) as [-> _].
    apply container_port_after_colon.
Qed.

Lemma routes_of_the_specification_witness :
  NoDup (services spec_routed).*1 ∧
  {| serviceName := "todo"; containerPort := 3000;
     route_methods := default_methods; route_paths := ["/api/todos/*"] |}
  ∈ parseRoutes
      (servicesWithRoutes (compiled (compile_services spec_routed))
                          (services spec_routed)).
Proof.
  assert (NoDup (services spec_routed).*1) as Hnodup.
  { simpl. repeat constructor. set_solver. }
  split; [done|].
  apply (proj1 (routes_of_the_specification spec_routed Hnodup)).
  exists "todo", routed_service,
    (convertServiceToCompose routed_service [] ∅ 3000).1,
    {| methods := None; paths := Some ["/api/todos/*"] |}, ["/api/todos/*"].
  split; [left|]. split; [done|]. split; [reflexivity|]. split; [left|].
  split; [done|]. reflexivity.
Defined.

(** ** Reading a status line *)

Lemma split_ws_go_cons in_run s : ∃ hd tl, Js.split_ws_go in_run s = hd :: tl.
Proof.
  revert in_run. induction s as [|a s IH]; intros in_run; simpl; [eauto|].
  destruct (Js.is_ws a).
  - destruct in_run; [apply IH|eauto].
  - destruct (IH false) as (hd & tl & ->). eauto.
Qed.







Lemma includes_app_r sub s t : Js.includes sub t = true -> Js.includes sub (s +:+ t) = true.
Proof.
  intros Ht. induction s as [|a s IH]; [done|]. rewrite string_app_cons.
  cbn [Js.includes]. rewrite IH. by rewrite orb_true_r.
Qed.

Lemma includes_here sub t : Js.includes sub (sub +:+ t) = true.
Proof.
  assert (Js.startsWith sub (sub +:+ t) = true) as H by (apply startsWith_spec; eauto).
  destruct (sub +:+ t); simpl; by rewrite H.
Qed.

Lemma includes_app_l sub s t : Js.includes sub s = true -> Js.includes sub (s +:+ t) = true.
Proof.
  induction s as [|a s IH].
  - destruct sub; [intros _; apply (includes_here "" t)|done].
  - rewrite string_app_cons. cbn [Js.includes]. intros [H|H]%orb_true_iff.
    + apply startsWith_spec in H as [r Hr].
      assert (Js.startsWith sub (String a (s +:+ t)) = true) as ->; [|done].
      apply startsWith_spec. exists (r +:+ t).
      by rewrite <- string_app_cons, Hr, string_app_assoc.
    + by rewrite (IH H), orb_true_r.
Qed.









(** ** What the proxy configuration contains *)

Lemma includes_self s : Js.includes s s = true.
Proof. rewrite <- (string_app_nil_r s) at 2. apply includes_here. Qed.

Lemma join_includes sep x l : x ∈ l -> Js.includes x (Js.join sep l) = true.
Proof.
  induction l as [|y l IH]; [by intros ?%elem_of_nil|].
  intros [->|Hx]%elem_of_cons.
  - destruct l as [|z l]; [apply includes_self|]. cbn [Js.join]. apply includes_here.
  - destruct l as [|z l]; [by apply elem_of_nil in Hx|]. cbn [Js.join].
    apply includes_app_r, includes_app_r. by apply IH.
Qed.

Lemma foldl_collect_skipping {B} (skip : B -> bool) (f : B -> string) (l : list B) :
  foldl (fun out e => if skip e then out else out ++ [f e]) [] l =
  f <$> filter (fun e => skip e = false) l.
Proof.
  rewrite (foldl_skipping skip (fun out e => out ++ [f e])).
  by rewrite (foldl_collect f []).
Qed.

(** X18: every service other than the gateway can be reached through
    the proxy.  The configuration has, for each entry of the map not
    named [xq-gateway], an upstream block that points at the service's
    name and the container port of its first port mapping (80 without a
    mapping), and a fallback location under the service's name that
    passes to this upstream. *)
Theorem every_service_is_proxied (servicesMap : list (string * gateway_service))
    (name : string) (svc : gateway_service) :
  (name, svc) ∈ servicesMap -> name ≠ gateway_name ->
  Js.includes (upstream_block name svc) (generateNginxConfig servicesMap) = true ∧
  Js.includes (fallback_location name) (generateNginxConfig servicesMap) = true.
Proof.
  intros Hin Hname.
  assert ((name, svc) ∈ filter (fun e : string * gateway_service =>
                                  bool_decide (e.1 = gateway_name) = false) servicesMap)
    as Hkept.
  { apply list_elem_of_filter. split; [|done]. by apply bool_decide_eq_false. }
  unfold generateNginxConfig. cbv zeta. split.
  - do 20 apply includes_app_r. apply includes_app_l.
    rewrite (foldl_collect_skipping (fun e => bool_decide (e.1 = gateway_name))
               (fun e => upstream_block e.1 e.2)).
    apply join_includes, list_elem_of_fmap. by exists (name, svc).
  - do 30 apply includes_app_r. apply includes_app_l, includes_app_r.
    change (generateServiceNameLocations servicesMap)
      with (Js.join (Js.nl +:+ Js.nl)
              (foldl (fun out (e : string * gateway_service) =>
                        if bool_decide (e.1 = gateway_name) then out
                        else out ++ [fallback_location e.1]) [] servicesMap)).
    rewrite (foldl_collect_skipping (fun e => bool_decide (e.1 = gateway_name))
               (fun e => fallback_location e.1)).
    apply join_includes, list_elem_of_fmap. by exists (name, svc).
Qed.

Lemma every_service_is_proxied_witness :
  Js.includes
    ("upstream todo_upstream {" +:+ Js.nl +:+ "    server todo:3000;" +:+ Js.nl +:+ "}")
    (generateNginxConfig
       [("todo", {| g_ports := Some ["3001:3000"]; g_routes := None |})]) = true.
Proof.
  refine (proj1 (every_service_is_proxied
                   [("todo", {| g_ports := Some ["3001:3000"]; g_routes := None |})]
                   "todo" {| g_ports := Some ["3001:3000"]; g_routes := None |} _ _)).
  - left.
  - done.
Defined.

(** ** Overrides applied twice *)

Lemma obj_set_same {A} k (v : A) (o : list (string * A)) :
  obj_get k o = Some v -> obj_set k v o = o.
Proof.
  induction o as [|[k' v'] o IH]; [done|]. simpl. case_bool_decide as Hk.
  - intros [= ->]. by subst.
  - intros H. by rewrite (IH H).
Qed.

Lemma foldl_obj_set_same (kvs : list (string * jsval)) (t : raw_service) :
  (∀ kv, kv ∈ kvs -> obj_get kv.1 t = Some kv.2) ->
  foldl (fun t kv => obj_set kv.1 kv.2 t) t kvs = t.
Proof.
  induction kvs as [|kv kvs IH]; intros H; [done|].
  cbn [foldl]. rewrite obj_set_same by (apply H; left). apply IH.
  intros kv' Hkv'. apply H. by right.
Qed.

Lemma Object_assign_idempotent target source :
  NoDup (own_props source).*1 ->
  Object_assign (Object_assign target source) source = Object_assign target source.
Proof.
  intros Hnodup. unfold Object_assign at 1. apply foldl_obj_set_same.
  intros [k v] Hkv. cbn [fst snd]. rewrite (Object_assign_get _ _ _ Hnodup).
  by rewrite (obj_get_NoDup k v _ Hnodup Hkv).
Qed.

Lemma foldl_override_same ov svcs :
  (∀ e, e ∈ ov -> override_service svcs e = svcs) ->
  foldl override_service svcs ov = svcs.
Proof.
  induction ov as [|e ov IH]; intros H; [done|].
  cbn [foldl]. rewrite H by left. apply IH. intros e' He'. apply H. by right.
Qed.

(** X19: overrides are idempotent.  Applying the same overrides to a
    specification that already has them changes nothing. *)
Theorem overrides_are_idempotent (sp : raw_spec) (ov : list (string * jsval)) :
  NoDup ov.*1 ->
  (∀ e, e ∈ ov -> NoDup (own_props e.2).*1) ->
  applyOverrides (applyOverrides sp (Some ov)) (Some ov) = applyOverrides sp (Some ov).
Proof.
  intros Hnodup Hprops. destruct (raw_services sp) as [svcs|] eqn:Hsvcs.
  2:{ by rewrite !(applyOverrides_no_services sp ov Hsvcs). }
  rewrite (applyOverrides_some sp ov svcs Hsvcs).
  rewrite (applyOverrides_some _ ov (foldl override_service svcs ov)) by done.
  cbn [raw_portRange raw_dependencies]. do 2 f_equal.
  apply foldl_override_same. intros [n patch] Hin.
  set (merged := foldl override_service svcs ov).
  assert (obj_get n merged =
          match obj_get n svcs with
          | Some target => Some (Object_assign target patch)
          | None => None
          end) as Hmerged.
  { unfold merged. rewrite (foldl_override_get ov svcs n Hnodup).
    by rewrite (obj_get_NoDup n patch ov Hnodup Hin). }
  unfold override_service. cbn [fst snd]. rewrite Hmerged.
  destruct (obj_get n svcs) as [target|] eqn:Htarget; [|done].
  rewrite (Object_assign_idempotent target patch (Hprops _ Hin)).
  by apply obj_set_same.
Qed.

Lemma overrides_are_idempotent_witness :
  applyOverrides (applyOverrides raw_spec_web (Some overrides_web)) (Some overrides_web) =
  applyOverrides raw_spec_web (Some overrides_web).
Proof.
  apply (overrides_are_idempotent raw_spec_web overrides_web).
  - apply (bool_decide_unpack _). vm_compute. exact I.
  - intros e He. repeat (apply elem_of_cons in He as [->|He]);
      [apply (bool_decide_unpack _); vm_compute; exact I..|].
    by apply elem_of_nil in He.
Defined.

(** ** Compose commands *)

Lemma detect_cached cli t :
  detectDockerCompose (Some cli) t = {| found := inl cli; cache := Some cli; probes := [] |}.
Proof. done. Qed.

Lemma detect_result cached t :
  match found (detectDockerCompose cached t) with
  | inl cli => cache (detectDockerCompose cached t) = Some cli
  | inr e => e = NoComposeCommand ∧ cached = None ∧
             cache (detectDockerCompose cached t) = None ∧
             has_docker_compose t = false ∧
             (has_docker t = false ∨ has_compose_plugin t = false)
  end.
Proof.
  destruct cached as [cli|]; [done|]. unfold detectDockerCompose, detect_v1.
  destruct (has_docker t), (has_compose_plugin t), (has_docker_compose t);
    cbn; auto 10.
Qed.

(** X20: finding the compose command.  [docker compose] is used when
    [docker] is there and its compose plugin answers, otherwise
    [docker-compose] when it is there, otherwise the detection fails and
    nothing is remembered.  A command found is remembered: every later
    detection returns it without looking at the machine again, whatever
    the machine has by then.  Every command checks the compose file
    first: when it cannot be accessed the command fails at once, without
    looking for a compose command; otherwise the process started is the
    compose command followed by [-f], the compose file and the command's
    own arguments. *)
Theorem compose_command_is_found_once (cached : option compose_cli) (t t' : tools)
    (composeFile : string) (args : list string) (stdio : string) :
  (has_docker t = true -> has_compose_plugin t = true ->
   found (detectDockerCompose None t) = inl (ComposeCli "docker" ["compose"])) ∧
  (has_docker t && has_compose_plugin t = false -> has_docker_compose t = true ->
   found (detectDockerCompose None t) = inl (ComposeCli "docker-compose" [])) ∧
  (has_docker t && has_compose_plugin t = false -> has_docker_compose t = false ->
   found (detectDockerCompose None t) = inr NoComposeCommand ∧
   cache (detectDockerCompose None t) = None) ∧
  (∀ cli, found (detectDockerCompose cached t) = inl cli ->
          detectDockerCompose (cache (detectDockerCompose cached t)) t' =
          {| found := inl cli; cache := Some cli; probes := [] |}) ∧
  (let missing := {| found := inr (ComposeFileNotFound composeFile);
                     cache := cached; probes := [] |} in
   compose_command false cached t composeFile args stdio = missing ∧
   (∀ detached pull_images, up false cached t composeFile detached pull_images = missing) ∧
   (∀ removeVolumes removeImages,
      down false cached t composeFile removeVolumes removeImages = missing) ∧
   pull false cached t composeFile = missing ∧
   (∀ follow tail timestamps service_name,
      logs false cached t composeFile follow tail timestamps service_name = missing) ∧
   ps false cached t composeFile = missing) ∧
  (∀ call, found (compose_command true cached t composeFile args stdio) = inl call ->
           ∃ cli, found (detectDockerCompose cached t) = inl cli ∧
                  cache (compose_command true cached t composeFile args stdio) = Some cli ∧
                  inv_command call = cli_command cli ∧
                  inv_args call = cli_args cli ++ "-f" :: composeFile :: args ∧
                  inv_stdio call = stdio) ∧
  (∀ accessible detached pull_images call,
     found (up accessible cached t composeFile detached pull_images) = inl call ->
     last (inv_args call) = Some "--remove-orphans").
Proof.
  split; [|split; [|split; [|split; [|split; [|split]]]]].
  - intros Hd Hp. unfold detectDockerCompose. by rewrite Hd, Hp.
  - intros Hno Hv1. unfold detectDockerCompose, detect_v1.
    destruct (has_docker t), (has_compose_plugin t); try done; by rewrite Hv1.
  - intros Hno Hv1. unfold detectDockerCompose, detect_v1.
    destruct (has_docker t), (has_compose_plugin t); try done; by rewrite Hv1.
  - intros cli Hcli. pose proof (detect_result cached t) as H. rewrite Hcli in H.
    by rewrite H.
  - cbv zeta. repeat split; done.
  - intros call Hcall. unfold compose_command in *. cbn [found cache] in *.
    pose proof (detect_result cached t) as H.
    destruct (found (detectDockerCompose cached t)) as [cli|e]; [|done].
    injection Hcall as <-. exists cli. done.
  - intros accessible detached pull_images call Hcall. unfold up, compose_command in Hcall.
    destruct accessible; [|done]. cbn [found] in Hcall.
    destruct (found (detectDockerCompose cached t)) as [cli|e]; [|done].
    injection Hcall as <-. cbn [inv_args].
    assert (∀ a b c d : list string,
              last (a ++ b ++ c ++ d ++ ["--remove-orphans"]) = Some "--remove-orphans")
      as Hlast.
    { intros a b c d. rewrite !app_assoc. apply last_snoc. }
    apply (Hlast (cli_args cli) ["-f"; composeFile; "up"]).
Qed.

(** ** The [up] command *)

Lemma no_test_file_no_container composeServices files :
  (∀ file, file ∈ files -> is_test_file file = false) ->
  detectTestContainers composeServices (SourceDirectory files) = [].
Proof.
  intros Hfiles. unfold detectTestContainers.
  assert (filter (fun file => is_test_file file = true) files = []) as ->; [|done].
  induction files as [|f l IH]; [done|]. rewrite filter_cons, decide_False.
  - apply IH. intros file Hfile. apply Hfiles. by right.
  - rewrite Hfiles by left. done.
Qed.

(** X21: how [up] ends.  It exits with code 3 when the services could
    not be started.  Otherwise it exits with a code only when test
    containers were detected and the wait for them returned false (a
    container failed, or the ten minutes ran out): the code is then 1.
    When no test container is detected nothing is polled and the command
    returns.  The source directory is the first of the three candidates
    that is a directory; as the last candidate is the directory of the
    compose file, a source directory is always given, and when its
    listing has no test file the command returns without waiting,
    whatever the services are called. *)
Theorem up_command_outcome (started : bool) (possibleSourceDirs : list candidate)
    (composeServices : option (list string)) (observed : list (Z * poll)) :
  let testContainers :=
    detectTestContainers composeServices (source_of possibleSourceDirs) in
  (started = false ->
   cli_up started possibleSourceDirs composeServices observed = CliExit 3) ∧
  (∀ code,
     cli_up started possibleSourceDirs composeServices observed = CliExit code ->
     (code = 3 ∧ started = false) ∨
     (code = 1 ∧ started = true ∧ testContainers ≠ [] ∧
      returned (waitForTestContainers 600000 testContainers observed) = Some false)) ∧
  (started = true -> testContainers = [] ->
   ∀ observed', cli_up started possibleSourceDirs composeServices observed' = CliDone) ∧
  (started = true -> testContainers ≠ [] ->
   cli_up started possibleSourceDirs composeServices observed =
     match returned (waitForTestContainers 600000 testContainers observed) with
     | Some true => CliDone
     | Some false => CliExit 1
     | None => CliWaiting
     end) ∧
  (∀ testEnv services_dir listing,
     possibleSourceDirs = [testEnv; services_dir; Directory listing] ->
     source_of possibleSourceDirs ≠ NoSourcePath ∧
     source_of possibleSourceDirs ≠ SourceNotDirectory) ∧
  (∀ files,
     started = true -> source_of possibleSourceDirs = SourceDirectory files ->
     (∀ file, file ∈ files -> is_test_file file = false) ->
     cli_up started possibleSourceDirs composeServices observed = CliDone).
Proof.
  intros testContainers.
  split; [by intros ->|]. split; [|split; [|split; [|split]]].
  - intros code Hexit. unfold cli_up in Hexit. fold testContainers in Hexit.
    destruct started; [|injection Hexit as <-; by left]. right.
    destruct testContainers as [|t ts] eqn:E; [done|].
    destruct (returned (waitForTestContainers 600000 (t :: ts) observed)) as [[]|];
      try done.
    by injection Hexit as <-.
  - intros -> Hnone observed'. unfold cli_up. fold testContainers. by rewrite Hnone.
  - intros -> Hsome. unfold cli_up. fold testContainers.
    by destruct testContainers.
  - intros testEnv services_dir listing ->.
    destruct testEnv as [|[?|]], services_dir as [|[?|]], listing as [?|]; done.
  - intros files -> Hsource Hfiles. unfold cli_up.
    by rewrite Hsource, (no_test_file_no_container _ _ Hfiles).
Qed.
